(** * Styled-text layout engine of [src/app/page.tsx]

    A shallow embedding of the layout and rasterisation core of the text
    editor component: the style resolver ([getStyleForPosition]), style-range
    creation ([applyStyleToSelection]), the line breaker
    ([wrapStyledSegments]), line placement and the crop step of
    [renderTextOnCanvas].

    JavaScript numbers that carry pixel measures (advance widths, font sizes,
    the target width, the line-height multiplier) are modelled as exact
    rationals [Q]; text positions and pixel coordinates as [Z]; counters as
    [nat].  One-character strings stay [string]s. *)

From Stdlib Require Import String Ascii List Bool ZArith QArith Lia Arith.
Import ListNotations.

Open Scope Z_scope.

(** ** Data model (the interfaces at the top of the file) *)

Inductive Alignment : Type := AlignLeft | AlignCenter | AlignRight | AlignJustify.

Definition Alignment_eqb (a b : Alignment) : bool :=
  match a, b with
  | AlignLeft, AlignLeft | AlignCenter, AlignCenter
  | AlignRight, AlignRight | AlignJustify, AlignJustify => true
  | _, _ => false
  end.

Record TextStyle : Type := mkTextStyle {
  fontSize : Q;
  fontFamily : string;
  textColor : string;
  isBold : bool;
  isItalic : bool;
  isUnderline : bool;
  letterSpacing : Q;
  wordSpacing : Q;
  textAlign : option Alignment   (* [textAlign?: ...]: may be absent *)
}.

Record StyledRange : Type := mkStyledRange {
  id : string;
  range_start : Z;
  range_end : Z;
  style : TextStyle;
  text : string
}.

Record LineSegment : Type := mkLineSegment {
  char : string;
  seg_style : TextStyle;
  width : Q
}.

Record LineData : Type := mkLineData {
  segments : list LineSegment;
  metricsWidth : Q;
  maxHeight : Q;
  spaces : nat;
  effectiveAlignment : Alignment
}.

(** The two characters the line breaker looks at. *)
Definition NEWLINE : string := String (ascii_of_nat 10) EmptyString.
Definition SPACE : string := String (ascii_of_nat 32) EmptyString.

Definition isNewline (s : LineSegment) : bool := String.eqb (char s) NEWLINE.
Definition isSpace (s : LineSegment) : bool := String.eqb (char s) SPACE.

(** ** Array helpers *)

(** [Array.prototype.find]: the first element satisfying the predicate. *)
Fixpoint array_find {A : Type} (p : A -> bool) (l : list A) : option A :=
  match l with
  | [] => None
  | x :: r => if p x then Some x else array_find p r
  end.

(** [Array.prototype.slice(b, e)], with JavaScript's treatment of negative
    and out-of-range indices. *)
Definition relativeIndex (len i : Z) : Z :=
  if i <? 0 then Z.max (len + i) 0 else Z.min i len.

Definition slice {A : Type} (l : list A) (b e : Z) : list A :=
  let len := Z.of_nat (length l) in
  let k := relativeIndex len b in
  let final := relativeIndex len e in
  firstn (Z.to_nat (final - k)) (skipn (Z.to_nat k) l).

(** [slice(b)]: the end defaults to the length. *)
Definition sliceFrom {A : Type} (l : list A) (b : Z) : list A :=
  slice l b (Z.of_nat (length l)).

(** ** Style resolver and style-range creation *)

Module Editor.

(** The component state the layout core reads and writes (the [useState]
    cells; the editor plumbing is left out). *)
Record State : Type := mkState {
  s_text : string;
  s_fontSize : Q;
  s_fontFamily : string;
  s_textColor : string;
  s_backgroundColor : string;
  s_lineHeight : Q;
  s_isBold : bool;
  s_isItalic : bool;
  s_isUnderline : bool;
  s_textAlign : Alignment;
  s_letterSpacing : Q;
  s_wordSpacing : Q;
  styledRanges : list StyledRange;
  selectedRange : option (Z * Z)
}.

Definition getDefaultStyle (st : State) : TextStyle :=
  {| fontSize := s_fontSize st;
     fontFamily := s_fontFamily st;
     textColor := s_textColor st;
     isBold := s_isBold st;
     isItalic := s_isItalic st;
     isUnderline := s_isUnderline st;
     letterSpacing := s_letterSpacing st;
     wordSpacing := s_wordSpacing st;
     textAlign := Some (s_textAlign st) |}.

(** The two setters [applyStyleToSelection] calls. *)
Definition setStyledRanges (l : list StyledRange) (st : State) : State :=
  {| s_text := s_text st; s_fontSize := s_fontSize st;
     s_fontFamily := s_fontFamily st; s_textColor := s_textColor st;
     s_backgroundColor := s_backgroundColor st; s_lineHeight := s_lineHeight st;
     s_isBold := s_isBold st; s_isItalic := s_isItalic st;
     s_isUnderline := s_isUnderline st; s_textAlign := s_textAlign st;
     s_letterSpacing := s_letterSpacing st; s_wordSpacing := s_wordSpacing st;
     styledRanges := l; selectedRange := selectedRange st |}.

Definition setSelectedRange (r : option (Z * Z)) (st : State) : State :=
  {| s_text := s_text st; s_fontSize := s_fontSize st;
     s_fontFamily := s_fontFamily st; s_textColor := s_textColor st;
     s_backgroundColor := s_backgroundColor st; s_lineHeight := s_lineHeight st;
     s_isBold := s_isBold st; s_isItalic := s_isItalic st;
     s_isUnderline := s_isUnderline st; s_textAlign := s_textAlign st;
     s_letterSpacing := s_letterSpacing st; s_wordSpacing := s_wordSpacing st;
     styledRanges := styledRanges st; selectedRange := r |}.

Definition inRange (position : Z) (range : StyledRange) : bool :=
  (position >=? range_start range) && (position <? range_end range).

Definition getStyleForPosition (st : State) (position : Z) : TextStyle :=
  match array_find (inRange position) (styledRanges st) with
  | Some applicableRange => style applicableRange
  | None => getDefaultStyle st
  end.

(** [String.prototype.slice(b, e)]. *)
Definition textSlice (s : string) (b e : Z) : string :=
  let len := Z.of_nat (String.length s) in
  let k := relativeIndex len b in
  let final := relativeIndex len e in
  String.substring (Z.to_nat k) (Z.to_nat (final - k)) s.

(** The predicate of the filter: the range lies wholly before or wholly
    after the selection. *)
Definition keepsRange (s e : Z) (range : StyledRange) : bool :=
  (range_end range <=? s) || (range_start range >=? e).

(** [applyStyleToSelection]; [now] is the string [Date.now().toString()]
    evaluates to.  The result is the state after the two setters; the early
    [return] leaves the state as it is. *)
Definition applyStyleToSelection (now : string) (st : State) : State :=
  match selectedRange st with
  | None => st
  | Some (s, e) =>
      if s =? e then st
      else
        let selectedTextContent := textSlice (s_text st) s e in
        let newRange :=
          {| id := now; range_start := s; range_end := e;
             text := selectedTextContent;
             style := getDefaultStyle st |} in
        let filteredRanges := filter (keepsRange s e) (styledRanges st) in
        setSelectedRange None (setStyledRanges (filteredRanges ++ [newRange]) st)
  end.

(** Two half-open intervals share at least one position. *)
Definition overlaps (s e : Z) (range : StyledRange) : Prop :=
  range_start range < e /\ s < range_end range.

(** The data-model invariant: ranges are pairwise disjoint. *)
Definition disjointRanges (r1 r2 : StyledRange) : Prop :=
  range_end r1 <= range_start r2 \/ range_end r2 <= range_start r1.

Definition nonOverlapping (l : list StyledRange) : Prop :=
  ForallOrdPairs disjointRanges l.

End Editor.

(** ** Line breaker *)

Module Wrap.

Section Breaker.

(** The values the callback closes over, and its [targetWidth] argument. *)
Variable lineHeight : Q.
Variable docAlign : Alignment.      (* the component's [textAlign] *)
Variable targetWidth : Q.

(** The accumulator variables of [wrapStyledSegments]. *)
Record Acc : Type := mkAcc {
  lines : list LineData;
  currentLineSegments : list LineSegment;
  currentLineMetricsWidth : Q;
  currentLineMaxHeight : Q;
  currentLineSpaces : nat;
  currentLineEffectiveAlignment : Alignment
}.

Definition initial : Acc :=
  {| lines := []; currentLineSegments := []; currentLineMetricsWidth := 0%Q;
     currentLineMaxHeight := 0%Q; currentLineSpaces := 0%nat;
     currentLineEffectiveAlignment := docAlign |}.

Definition processLine (a : Acc) : Acc :=
  {| lines :=
       if (0 <? Z.of_nat (length (currentLineSegments a)))
       then lines a ++
            [ {| segments := currentLineSegments a;
                 metricsWidth := currentLineMetricsWidth a;
                 maxHeight := currentLineMaxHeight a;
                 spaces := currentLineSpaces a;
                 effectiveAlignment := currentLineEffectiveAlignment a |} ]
       else lines a;
     currentLineSegments := [];
     currentLineMetricsWidth := 0%Q;
     currentLineMaxHeight := 0%Q;
     currentLineSpaces := 0%nat;
     currentLineEffectiveAlignment := docAlign |}.

(** [Math.max] on two numbers. *)
Definition Math_max (a b : Q) : Q := if Qle_bool b a then a else b.

(** The three [reduce]/[filter] recomputations. *)
Definition sumWidth (l : list LineSegment) : Q :=
  fold_left (fun sum s => (sum + width s)%Q) l 0%Q.

Definition maxLineHeight (l : list LineSegment) : Q :=
  fold_left (fun mx s => Math_max mx (fontSize (seg_style s) * lineHeight)%Q) l 0%Q.

Definition countSpaces (l : list LineSegment) : nat :=
  length (filter isSpace l).

(** The backward scan [for (i = length - 1; i >= 0; i--)]: [n] is [i + 1];
    the result is the index found, or [-1]. *)
Fixpoint lastSpaceFrom (l : list LineSegment) (n : nat) : Z :=
  match n with
  | O => -1
  | S i =>
      match nth_error l i with
      | Some s => if isSpace s then Z.of_nat i else lastSpaceFrom l i
      | None => lastSpaceFrom l i
      end
  end.

Definition lastSpaceIndex (l : list LineSegment) : Z :=
  lastSpaceFrom l (length l).

(** The alignment assignment at the top of the callback. *)
Definition adoptAlignment (segment : LineSegment) (a : Acc) : Acc :=
  match textAlign (seg_style segment) with
  | Some al =>
      if Alignment_eqb (currentLineEffectiveAlignment a) docAlign
      then {| lines := lines a;
              currentLineSegments := currentLineSegments a;
              currentLineMetricsWidth := currentLineMetricsWidth a;
              currentLineMaxHeight := currentLineMaxHeight a;
              currentLineSpaces := currentLineSpaces a;
              currentLineEffectiveAlignment := al |}
      else a
  | None => a
  end.

(** The branch taken when a space was found at [lastSpace]. *)
Definition breakAtSpace (lastSpace : Z) (a : Acc) : Acc :=
  let segmentsToMove := sliceFrom (currentLineSegments a) (lastSpace + 1) in
  let kept := slice (currentLineSegments a) 0 (lastSpace + 1) in
  let a1 :=
    {| lines := lines a;
       currentLineSegments := kept;
       currentLineMetricsWidth := sumWidth kept;
       currentLineMaxHeight := maxLineHeight kept;
       currentLineSpaces := countSpaces kept;
       currentLineEffectiveAlignment := currentLineEffectiveAlignment a |} in
  let a2 := processLine a1 in
  {| lines := lines a2;
     currentLineSegments := segmentsToMove;
     currentLineMetricsWidth := sumWidth segmentsToMove;
     currentLineMaxHeight := maxLineHeight segmentsToMove;
     currentLineSpaces := countSpaces segmentsToMove;
     currentLineEffectiveAlignment :=
       match segmentsToMove with
       | first :: _ =>
           match textAlign (seg_style first) with
           | Some al => al
           | None => docAlign
           end
       | [] => docAlign
       end |}.

(** The guard [currentLineMetricsWidth + width > targetWidth &&
    currentLineSegments.length > 0]. *)
Definition overflows (segment : LineSegment) (a : Acc) : bool :=
  negb (Qle_bool (currentLineMetricsWidth a + width segment) targetWidth)
  && (0 <? Z.of_nat (length (currentLineSegments a))).

Definition breakIfNeeded (segment : LineSegment) (a : Acc) : Acc :=
  if overflows segment a then
    let lastSpace := lastSpaceIndex (currentLineSegments a) in
    if negb (lastSpace =? -1) then breakAtSpace lastSpace a
    else processLine a
  else a.

Definition pushSegment (segment : LineSegment) (a : Acc) : Acc :=
  {| lines := lines a;
     currentLineSegments := currentLineSegments a ++ [segment];
     currentLineMetricsWidth := (currentLineMetricsWidth a + width segment)%Q;
     currentLineMaxHeight :=
       Math_max (currentLineMaxHeight a)
                (fontSize (seg_style segment) * lineHeight)%Q;
     currentLineSpaces :=
       if isSpace segment then S (currentLineSpaces a) else currentLineSpaces a;
     currentLineEffectiveAlignment := currentLineEffectiveAlignment a |}.

(** The body of [segments.forEach]. *)
Definition step (a : Acc) (segment : LineSegment) : Acc :=
  let a1 := adoptAlignment segment a in
  if isNewline segment then processLine a1
  else pushSegment segment (breakIfNeeded segment a1).

Definition wrapFrom (a : Acc) (segs : list LineSegment) : Acc :=
  fold_left step segs a.

Definition wrapStyledSegments (segs : list LineSegment) : list LineData :=
  lines (processLine (wrapFrom initial segs)).

End Breaker.

End Wrap.

(** ** Placement, drawing and cropping ([renderTextOnCanvas]) *)

Module Render.

(** What [ctx.measureText] returns, as far as the code reads it. *)
Record TextMetrics : Type := mkTextMetrics {
  tm_width : Q;
  actualBoundingBoxAscent : Q
}.

(** One RGBA entry of an [ImageData]. *)
Record Pixel : Type := mkPixel { red : Z; green : Z; blue : Z; alpha : Z }.

Definition transparentPixel : Pixel := mkPixel 0 0 0 0.

(** The calls made on the offscreen 2D context. *)
Inductive DrawCall : Type :=
| FillText (c : string) (st : TextStyle) (x y : Q)
| FillRect (color : string) (x y w h : Q).

(** A canvas with its pixel grid. *)
Record Canvas : Type := mkCanvas {
  cwidth : Z;
  cheight : Z;
  pixelAt : Z -> Z -> Pixel
}.

(** Reading a canvas: transparent black outside its grid. *)
Definition canvasPixel (c : Canvas) (i j : Z) : Pixel :=
  if (0 <=? i) && (i <? cwidth c) && (0 <=? j) && (j <? cheight c)
  then pixelAt c i j else transparentPixel.

(** [ImageData]: [width], [height] and the byte array [data]. *)
Record ImageData : Type := mkImageData {
  width_ : Z;
  height_ : Z;
  data : list Z
}.

Definition range (n : Z) : list Z := map Z.of_nat (seq 0 (Z.to_nat n)).

Definition pixelBytes (p : Pixel) : list Z := [red p; green p; blue p; alpha p].

(** [getImageData(0, 0, sw, sh)]: row-major RGBA bytes. *)
Definition getImageData (c : Canvas) (sw sh : Z) : ImageData :=
  {| width_ := sw; height_ := sh;
     data := flat_map (fun j => flat_map (fun i => pixelBytes (canvasPixel c i j))
                                         (range sw))
                      (range sh) |}.

(** The integer the DOM makes of a number where the code goes on to count
    with it (the width of the offscreen canvas, the rows of the ImageData):
    the fraction is dropped. *)
Definition toInteger (q : Q) : Z := Z.quot (Qnum q) (Zpos (Qden q)).

(** [a || b] on numbers: [b] when [a] is zero. *)
Definition orElse (a b : Q) : Q := if Qeq_bool a 0 then b else a.

(** What is painted on a pixel of the target canvas, newest first: a solid
    fill colour or a pixel copied by [drawImage].  The empty stack is a
    transparent pixel. *)
Inductive Layer : Type :=
| Solid (color : string)
| Copied (p : Pixel).

(** The target canvas: the numbers assigned to [canvas.width] and
    [canvas.height], and what lies on each pixel. *)
Record Target : Type := mkTarget {
  canvas_width : Q;
  canvas_height : Q;
  layers : Z -> Z -> list Layer
}.

(** Assigning [canvas.width] and [canvas.height] clears the canvas. *)
Definition resize (w h : Q) : Target :=
  {| canvas_width := w; canvas_height := h; layers := fun _ _ => [] |}.

(** The pixel cell [(x, y)] lies inside the rectangle at [(rx, ry)] of size
    [rw] by [rh]; a cell cut by the edge of a rectangle of fractional size
    counts as outside. *)
Definition inRect (rx ry : Z) (rw rh : Q) (x y : Z) : bool :=
  (rx <=? x) && (ry <=? y)
  && Qle_bool (inject_Z (x + 1 - rx)) rw && Qle_bool (inject_Z (y + 1 - ry)) rh.

Definition clearRect (rx ry : Z) (rw rh : Q) (t : Target) : Target :=
  {| canvas_width := canvas_width t; canvas_height := canvas_height t;
     layers := fun x y => if inRect rx ry rw rh x y then [] else layers t x y |}.

Definition fillRect (color : string) (rx ry : Z) (rw rh : Q) (t : Target) : Target :=
  {| canvas_width := canvas_width t; canvas_height := canvas_height t;
     layers := fun x y =>
       if inRect rx ry rw rh x y then Solid color :: layers t x y
       else layers t x y |}.

(** [drawImage(src, sx, sy, sw, sh, dx, dy, sw, sh)]: both calls in the code
    pass the source size as the destination size, so pixels are copied
    without scaling. *)
Definition drawImage (src : Canvas) (sx sy : Z) (sw sh : Q) (dx dy : Z)
    (t : Target) : Target :=
  {| canvas_width := canvas_width t; canvas_height := canvas_height t;
     layers := fun x y =>
       if inRect dx dy sw sh x y
       then Copied (canvasPixel src (sx + (x - dx)) (sy + (y - dy))) :: layers t x y
       else layers t x y |}.

(** The running bounds of the pixel scan. *)
Record Bounds : Type := mkBounds {
  minX : Z; minY : Z; maxX : Z; maxY : Z; hasContent : bool
}.

(** [data[k] > 0], false when [k] is outside the array. *)
Definition byteIsPositive (d : list Z) (k : Z) : bool :=
  match nth_error d (Z.to_nat k) with
  | Some v => 0 <? v
  | None => false
  end.

(** The body of the inner loop of the scan. *)
Definition visit (img : ImageData) (b : Bounds) (i j : Z) : Bounds :=
  let index := (j * width_ img + i) * 4 in
  if byteIsPositive (data img) (index + 3) then
    {| minX := Z.min (minX b) i; minY := Z.min (minY b) j;
       maxX := Z.max (maxX b) i; maxY := Z.max (maxY b) j;
       hasContent := true |}
  else b.

Definition scanColumn (img : ImageData) (b : Bounds) (i : Z) : Bounds :=
  fold_left (fun b j => visit img b i j) (range (height_ img)) b.

Definition findBounds (offscreen : Canvas) (img : ImageData) : Bounds :=
  fold_left (scanColumn img) (range (width_ img))
    {| minX := cwidth offscreen; minY := cheight offscreen;
       maxX := 0; maxY := 0; hasContent := false |}.

Section Browser.

(** The two services of the 2D context the code relies on: text metrics for
    a character under the font, letter spacing and word spacing of a style,
    and the pixels a sequence of calls leaves on a canvas. *)
Variable measureText : string -> TextStyle -> TextMetrics.
Variable paint : list DrawCall -> Z -> Z -> Pixel.

Definition measureTextWidth (c : string) (st : TextStyle) : Q :=
  tm_width (measureText c st).

(** The loop of [getStyledSegments], from index [i] on. *)
Fixpoint styledSegmentsFrom (st : Editor.State) (s : string) (i : Z)
    : list LineSegment :=
  match s with
  | EmptyString => []
  | String c rest =>
      let ch := String c EmptyString in
      let sty := Editor.getStyleForPosition st i in
      {| char := ch; seg_style := sty; width := measureTextWidth ch sty |}
        :: styledSegmentsFrom st rest (i + 1)
  end.

Definition getStyledSegments (st : Editor.State) (textToProcess : string)
    : list LineSegment :=
  styledSegmentsFrom st textToProcess 0.

(** The calls that draw one segment at [(tempX, currentY)]. *)
Definition drawSegment (currentY : Q) (segment : LineSegment) (tempX : Q)
    : list DrawCall :=
  let sty := seg_style segment in
  FillText (char segment) sty tempX currentY ::
  (if isUnderline sty then
     let textMetrics := measureText (char segment) sty in
     [FillRect (textColor sty) tempX
        (currentY + orElse (actualBoundingBoxAscent textMetrics)
                           (fontSize sty * (8 # 10)) + 2)%Q
        (tm_width textMetrics) 1%Q]
   else []).

(** The pen positions of the justified loop: each segment with the [tempX]
    it is drawn at, and the pen after the last one. *)
Fixpoint placeJustified (extraSpacePerGap : Q) (segs : list LineSegment)
    (tempX : Q) : list (LineSegment * Q) * Q :=
  match segs with
  | [] => ([], tempX)
  | segment :: rest =>
      let x1 := (tempX + width segment)%Q in
      let x2 := if isSpace segment then (x1 + extraSpacePerGap)%Q else x1 in
      let (placed, final) := placeJustified extraSpacePerGap rest x2 in
      ((segment, tempX) :: placed, final)
  end.

(** The pen positions of the default loop. *)
Fixpoint placeDefault (segs : list LineSegment) (tempX : Q)
    : list (LineSegment * Q) * Q :=
  match segs with
  | [] => ([], tempX)
  | segment :: rest =>
      let (placed, final) := placeDefault rest (tempX + width segment)%Q in
      ((segment, tempX) :: placed, final)
  end.

(** The condition of the justify branch. *)
Definition justifies (lineData : LineData) : bool :=
  Alignment_eqb (effectiveAlignment lineData) AlignJustify
  && (0 <? Z.of_nat (spaces lineData))
  && existsb (fun s => negb (isSpace s)) (segments lineData).

Definition extraSpacePerGap (targetWidth : Q) (lineData : LineData) : Q :=
  ((targetWidth - metricsWidth lineData) / inject_Z (Z.of_nat (spaces lineData)))%Q.

(** The alignment engine: where the segments of a line are drawn.  A justify
    line that fails the condition is drawn by the default loop from
    [initialPadding]. *)
Definition placeLine (targetWidth : Q) (lineData : LineData)
    : list (LineSegment * Q) * Q :=
  let initialPadding := 0%Q in
  let actualLineContentWidth := metricsWidth lineData in
  match effectiveAlignment lineData with
  | AlignCenter =>
      placeDefault (segments lineData)
        (initialPadding + (targetWidth - actualLineContentWidth) / 2)%Q
  | AlignRight =>
      placeDefault (segments lineData)
        (initialPadding + targetWidth - actualLineContentWidth)%Q
  | _ =>
      if justifies lineData then
        placeJustified (extraSpacePerGap targetWidth lineData)
                       (segments lineData) initialPadding
      else placeDefault (segments lineData) initialPadding
  end.

(** The body of [linesData.forEach]: the calls so far and [currentY]. *)
Definition drawLine (st : Editor.State) (targetWidth : Q)
    (acc : list DrawCall * Q) (lineData : LineData) : list DrawCall * Q :=
  let (calls, currentY) := acc in
  let placed := fst (placeLine targetWidth lineData) in
  (calls ++ flat_map (fun p => drawSegment currentY (fst p) (snd p)) placed,
   (currentY + orElse (maxHeight lineData)
                      (fontSize (Editor.getDefaultStyle st)
                       * Editor.s_lineHeight st))%Q).

Definition drawLines (st : Editor.State) (targetWidth : Q)
    (linesData : list LineData) : list DrawCall * Q :=
  fold_left (drawLine st targetWidth) linesData ([], 0%Q).

(** Steps 3 and 4: scan the drawn region for its bounds, then size and fill
    the target canvas. *)
Definition finishRender (backgroundColor : string) (offscreenCanvas : Canvas)
    (currentY targetWidth : Q) (forExport : bool) : Target :=
  let imageData :=
    getImageData offscreenCanvas (cwidth offscreenCanvas)
                 (toInteger (currentY + 10)) in
  let b := findBounds offscreenCanvas imageData in
  if negb (hasContent b) then
    let w := if forExport then 4%Q else (targetWidth + 20)%Q in
    let h := if forExport then 4%Q else 200%Q in
    let canvas := clearRect 0 0 w h (resize w h) in
    if negb forExport then fillRect backgroundColor 0 0 w h canvas
    else canvas
  else
    let contentWidth := maxX b - minX b + 1 in
    let contentHeight := maxY b - minY b + 1 in
    if forExport then
      let w := inject_Z (contentWidth + 4) in
      let h := inject_Z (contentHeight + 4) in
      drawImage offscreenCanvas (minX b) (minY b)
                (inject_Z contentWidth) (inject_Z contentHeight) 2 2
                (clearRect 0 0 w h (resize w h))
    else
      let w := (targetWidth + 20)%Q in
      let h := (currentY + 20)%Q in
      drawImage offscreenCanvas 0 0 targetWidth currentY 10 10
                (fillRect backgroundColor 0 0 w h
                          (clearRect 0 0 w h (resize w h))).

(** The offscreen canvas after step 2 and the total drawn height. *)
Definition drawOffscreen (st : Editor.State) (textToRender : string)
    (targetWidth : Q) : Canvas * Q :=
  let styledSegments := getStyledSegments st textToRender in
  let linesData :=
    Wrap.wrapStyledSegments (Editor.s_lineHeight st) (Editor.s_textAlign st)
                            targetWidth styledSegments in
  let (calls, currentY) := drawLines st targetWidth linesData in
  ({| cwidth := toInteger (targetWidth + 200); cheight := 5000;
      pixelAt := paint calls |}, currentY).

Definition renderTextOnCanvas (st : Editor.State) (textToRender : string)
    (targetWidth : Q) (forExport : bool) : Target :=
  let (offscreenCanvas, currentY) := drawOffscreen st textToRender targetWidth in
  finishRender (Editor.s_backgroundColor st) offscreenCanvas currentY
               targetWidth forExport.

End Browser.

End Render.

(** * Properties *)

(** ** Facts about the array helpers *)

Lemma relativeIndex_inside (len i : Z) :
  0 <= i <= len -> relativeIndex len i = i.
Proof.
  intros H. unfold relativeIndex.
  destruct (Z.ltb_spec i 0); lia.
Qed.

Lemma slice_prefix {A : Type} (l : list A) (n : nat) :
  (n <= length l)%nat -> slice l 0 (Z.of_nat n) = firstn n l.
Proof.
  intros Hn. unfold slice.
  rewrite !relativeIndex_inside by lia.
  cbn [Z.to_nat skipn]. rewrite Z.sub_0_r, Nat2Z.id. reflexivity.
Qed.

Lemma sliceFrom_suffix {A : Type} (l : list A) (n : nat) :
  (n <= length l)%nat -> sliceFrom l (Z.of_nat n) = skipn n l.
Proof.
  intros Hn. unfold sliceFrom, slice.
  rewrite !relativeIndex_inside by lia.
  rewrite Nat2Z.id. apply firstn_all2.
  rewrite length_skipn. lia.
Qed.

Lemma slice_split {A : Type} (l : list A) (k : Z) :
  -1 <= k < Z.of_nat (length l) ->
  slice l 0 (k + 1) ++ sliceFrom l (k + 1) = l.
Proof.
  intros Hk.
  replace (k + 1) with (Z.of_nat (Z.to_nat (k + 1))) by lia.
  rewrite slice_prefix, sliceFrom_suffix by lia.
  apply firstn_skipn.
Qed.

Lemma filter_all {A : Type} (p : A -> bool) (l : list A) :
  forallb p l = true -> filter p l = l.
Proof.
  induction l as [|x l IH]; cbn; [reflexivity|].
  intros H. apply andb_true_iff in H. destruct H as [Hx Hl].
  rewrite Hx. f_equal. now apply IH.
Qed.

Lemma array_find_first {A : Type} (p : A -> bool) (l1 l2 : list A) (x : A) :
  (forall y, In y l1 -> p y = false) -> p x = true ->
  array_find p (l1 ++ x :: l2) = Some x.
Proof.
  induction l1 as [|y l1 IH]; intros Hnone Hx; cbn.
  - now rewrite Hx.
  - rewrite (Hnone y) by now left.
    apply IH; [|assumption]. intros z Hz. apply Hnone. now right.
Qed.

Lemma array_find_none {A : Type} (p : A -> bool) (l : list A) :
  (forall y, In y l -> p y = false) -> array_find p l = None.
Proof.
  induction l as [|y l IH]; intros Hnone; cbn; [reflexivity|].
  rewrite (Hnone y) by now left.
  apply IH. intros z Hz. apply Hnone. now right.
Qed.

Lemma array_find_none_inv {A : Type} (p : A -> bool) (l : list A) :
  array_find p l = None -> forall y, In y l -> p y = false.
Proof.
  induction l as [|x l IH]; cbn; intros Hf y Hy; [contradiction|].
  destruct (p x) eqn:Hx; [discriminate|].
  destruct Hy as [<-|Hy]; [assumption|]. now apply IH.
Qed.

Lemma array_find_some {A : Type} (p : A -> bool) (l : list A) (x : A) :
  array_find p l = Some x ->
  exists l1 l2, l = l1 ++ x :: l2 /\ p x = true
                /\ forall y, In y l1 -> p y = false.
Proof.
  induction l as [|y l IH]; cbn; [discriminate|].
  destruct (p y) eqn:Hy.
  - intros [= ->]. exists [], l. repeat split; [assumption|]. intros ? [].
  - intros Hf. destruct (IH Hf) as (l1 & l2 & -> & Hx & Hnone).
    exists (y :: l1), l2. repeat split; [assumption|].
    intros z [<-|Hz]; [assumption|]. now apply Hnone.
Qed.

(** ** The style resolver and style-range creation *)

Module EditorFacts.
Import Editor.

Lemma inRange_spec (position : Z) (r : StyledRange) :
  inRange position r = true <-> range_start r <= position < range_end r.
Proof. unfold inRange. rewrite andb_true_iff, Z.geb_le, Z.ltb_lt. lia. Qed.

Lemma keepsRange_spec (s e : Z) (r : StyledRange) :
  keepsRange s e r = true <-> ~ overlaps s e r.
Proof.
  unfold keepsRange, overlaps.
  rewrite orb_true_iff, Z.leb_le, Z.geb_le. lia.
Qed.

(** For well-formed intervals, [overlaps] is sharing a character position. *)
Lemma overlaps_shared_position (s e : Z) (r : StyledRange) :
  s < e -> range_start r < range_end r ->
  overlaps s e r <->
  exists p, (s <= p < e) /\ (range_start r <= p < range_end r).
Proof.
  intros Hse Hr. unfold overlaps. split.
  - intros [H1 H2]. exists (Z.max s (range_start r)). lia.
  - intros (p & H1 & H2). lia.
Qed.

(** A style a position may resolve to: the style of a range containing it,
    or the default style when no range contains it. *)
Definition resolvesTo (st : State) (position : Z) (sty : TextStyle) : Prop :=
  (exists r, In r (styledRanges st) /\ inRange position r = true /\ sty = style r)
  \/ ((forall r, In r (styledRanges st) -> inRange position r = false)
      /\ sty = getDefaultStyle st).

Lemma nonOverlapping_one_match (l : list StyledRange) (position : Z) :
  nonOverlapping l ->
  forall l1 r l2 r', l = l1 ++ r :: l2 ->
    inRange position r = true -> In r' l -> inRange position r' = true ->
    (forall y, In y l1 -> inRange position y = false) ->
    style r' = style r.
Proof.
  intros Hno l1. revert l Hno.
  induction l1 as [|y l1 IH]; intros l Hno r l2 r' -> Hr Hin Hr' Hnone.
  - cbn in Hin. destruct Hin as [<-|Hin]; [reflexivity|].
    inversion Hno as [|? ? Hall _]; subst.
    rewrite Forall_forall in Hall. specialize (Hall _ Hin).
    unfold disjointRanges in Hall.
    apply inRange_spec in Hr, Hr'. lia.
  - cbn in Hin. destruct Hin as [<-|Hin].
    + rewrite (Hnone y) in Hr' by now left. discriminate.
    + inversion Hno as [|? ? _ Hrest]; subst.
      apply (IH _ Hrest r l2 r' eq_refl Hr Hin Hr').
      intros z Hz. apply Hnone. now right.
Qed.

(** Range creation keeps the ranges pairwise disjoint. *)
Lemma filter_nonOverlapping (p : StyledRange -> bool) (l : list StyledRange) :
  nonOverlapping l -> nonOverlapping (filter p l).
Proof.
  unfold nonOverlapping. induction 1 as [|r l Hall _ IH]; cbn.
  - constructor.
  - destruct (p r); [|assumption].
    constructor; [|assumption].
    rewrite Forall_forall in *. intros y Hy.
    apply filter_In in Hy. now apply Hall.
Qed.

Lemma snoc_nonOverlapping (l : list StyledRange) (n : StyledRange) :
  nonOverlapping l -> Forall (fun r => disjointRanges r n) l ->
  nonOverlapping (l ++ [n]).
Proof.
  unfold nonOverlapping. induction 1 as [|r l Hall _ IH]; cbn; intros Hn.
  - repeat constructor.
  - inversion Hn; subst. constructor.
    + apply Forall_app. split; [assumption|]. now constructor.
    + now apply IH.
Qed.

Lemma applyStyleToSelection_nonOverlapping (now : string) (st : State) :
  nonOverlapping (styledRanges st) ->
  nonOverlapping (styledRanges (applyStyleToSelection now st)).
Proof.
  intros Hno. unfold applyStyleToSelection.
  destruct (selectedRange st) as [[s e]|]; [|assumption].
  destruct (s =? e); [assumption|]. cbn.
  apply snoc_nonOverlapping.
  - now apply filter_nonOverlapping.
  - rewrite Forall_forall. intros r Hr. apply filter_In in Hr.
    destruct Hr as [_ Hk]. unfold keepsRange in Hk.
    rewrite orb_true_iff, Z.leb_le, Z.geb_le in Hk.
    unfold disjointRanges. cbn. lia.
Qed.

(** C6: [getStyleForPosition] returns the style of the first range, in the
    order of the array, with [start <= position < end], and the default
    style when no range contains the position; when the ranges are pairwise
    disjoint, the style returned is the only style the position can resolve
    to, whichever containing range is looked at. *)
Theorem getStyleForPosition_first_match (st : State) (position : Z) :
  (forall l1 r l2,
      styledRanges st = l1 ++ r :: l2 ->
      inRange position r = true ->
      (forall y, In y l1 -> inRange position y = false) ->
      getStyleForPosition st position = style r)
  /\ ((forall r, In r (styledRanges st) -> inRange position r = false) ->
      getStyleForPosition st position = getDefaultStyle st)
  /\ resolvesTo st position (getStyleForPosition st position)
  /\ (nonOverlapping (styledRanges st) ->
      forall sty, resolvesTo st position sty ->
                  sty = getStyleForPosition st position).
Proof.
  unfold getStyleForPosition. repeat split.
  - intros l1 r l2 Heq Hr Hnone.
    rewrite Heq, (array_find_first _ l1 l2 r Hnone Hr). reflexivity.
  - intros Hnone. now rewrite array_find_none.
  - destruct (array_find (inRange position) (styledRanges st)) as [r|] eqn:Hf.
    + apply array_find_some in Hf. destruct Hf as (l1 & l2 & Heq & Hr & _).
      left. exists r. repeat split; [|assumption].
      rewrite Heq. apply in_or_app. right. now left.
    + right. split; [|reflexivity]. now apply array_find_none_inv.
  - intros Hno sty [(r' & Hin & Hr' & ->)|[Hnone ->]].
    + destruct (array_find (inRange position) (styledRanges st)) as [r|] eqn:Hf.
      * apply array_find_some in Hf. destruct Hf as (l1 & l2 & Heq & Hr & Hl1).
        exact (nonOverlapping_one_match _ position Hno l1 r l2 r' Heq Hr Hin Hr' Hl1).
      * rewrite (array_find_none_inv _ _ Hf r' Hin) in Hr'. discriminate.
    + now rewrite array_find_none.
Qed.

(** The overlap test the specification words describe, as a boolean. *)
Definition overlapsb (s e : Z) (r : StyledRange) : bool :=
  (range_start r <? e) && (s <? range_end r).

Lemma overlapsb_spec (s e : Z) (r : StyledRange) :
  overlapsb s e r = true <-> overlaps s e r.
Proof. unfold overlapsb, overlaps. rewrite andb_true_iff, !Z.ltb_lt. tauto. Qed.

Lemma keepsRange_overlapsb (s e : Z) (r : StyledRange) :
  keepsRange s e r = negb (overlapsb s e r).
Proof.
  unfold keepsRange, overlapsb.
  destruct (Z.leb_spec (range_end r) s), (Z.geb_spec (range_start r) e),
           (Z.ltb_spec (range_start r) e), (Z.ltb_spec s (range_end r));
    cbn; try reflexivity; lia.
Qed.

(** The range an application to the selection [(s, e)] creates. *)
Definition createdRange (now : string) (st : State) (s e : Z) : StyledRange :=
  {| id := now; range_start := s; range_end := e;
     text := textSlice (s_text st) s e; style := getDefaultStyle st |}.

Lemma applyStyleToSelection_ranges (now : string) (st : State) (s e : Z) :
  selectedRange st = Some (s, e) -> s <> e ->
  styledRanges (applyStyleToSelection now st)
  = filter (keepsRange s e) (styledRanges st) ++ [createdRange now st s e].
Proof.
  intros Hsel Hne. unfold applyStyleToSelection. rewrite Hsel.
  destruct (Z.eqb_spec s e); [contradiction|]. reflexivity.
Qed.

(** C5: applying a style to a selection [(s, e)] with [s < e] leaves
    exactly the old ranges that do not overlap it, whole and in their order,
    followed by the new range: every old range that overlaps the selection is
    gone, none is trimmed.  In particular, applying to [(2, 5)] on a document
    without ranges and then to [(4, 8)] leaves the single range [(4, 8)] with
    the style current at the second application. *)
Theorem applyStyleToSelection_replaces_overlaps :
  (forall now st s e,
      selectedRange st = Some (s, e) -> s < e ->
      styledRanges (applyStyleToSelection now st)
      = filter (fun r => negb (overlapsb s e r)) (styledRanges st)
        ++ [createdRange now st s e]
      /\ (forall r, In r (styledRanges (applyStyleToSelection now st)) <->
                    (In r (styledRanges st) /\ ~ overlaps s e r)
                    \/ r = createdRange now st s e))
  /\ (forall now1 now2 st0 st2,
         styledRanges st0 = [] -> selectedRange st0 = Some (2, 5) ->
         styledRanges st2 = styledRanges (applyStyleToSelection now1 st0) ->
         selectedRange st2 = Some (4, 8) ->
         styledRanges (applyStyleToSelection now2 st2)
         = [createdRange now2 st2 4 8]).
Proof.
  split.
  - intros now st s e Hsel Hlt.
    rewrite (applyStyleToSelection_ranges now st s e Hsel) by lia.
    split.
    + f_equal. apply filter_ext. intros r. apply keepsRange_overlapsb.
    + intros r. rewrite in_app_iff, filter_In, keepsRange_spec. cbn.
      intuition congruence.
  - intros now1 now2 st0 st2 Hempty Hsel0 Hranges Hsel2.
    rewrite (applyStyleToSelection_ranges now2 st2 4 8 Hsel2) by lia.
    rewrite Hranges, (applyStyleToSelection_ranges now1 st0 2 5 Hsel0) by lia.
    rewrite Hempty. reflexivity.
Qed.


(** *** Concrete documents *)

Definition sampleState (ranges : list StyledRange) (sel : option (Z * Z))
    : State :=
  {| s_text := "Welcome to the editor"%string; s_fontSize := 14;
     s_fontFamily := "Arial"%string; s_textColor := "#737373"%string;
     s_backgroundColor := "#ffffff"%string; s_lineHeight := 3 # 2;
     s_isBold := false; s_isItalic := false; s_isUnderline := false;
     s_textAlign := AlignLeft; s_letterSpacing := 0; s_wordSpacing := 0;
     styledRanges := ranges; selectedRange := sel |}.

Definition boldStyle : TextStyle :=
  {| fontSize := 14; fontFamily := "Arial"%string; textColor := "#737373"%string;
     isBold := true; isItalic := false; isUnderline := false;
     letterSpacing := 0; wordSpacing := 0; textAlign := Some AlignLeft |}.

Definition sampleRange (name : string) (s e : Z) : StyledRange :=
  {| id := name; range_start := s; range_end := e; style := boldStyle;
     text := textSlice "Welcome to the editor"%string s e |}.

Lemma getStyleForPosition_first_match_witness :
  getStyleForPosition
    (sampleState [sampleRange "1"%string 0 2; sampleRange "2"%string 2 5] None) 3
  = boldStyle.
Proof.
  destruct (getStyleForPosition_first_match
              (sampleState [sampleRange "1"%string 0 2; sampleRange "2"%string 2 5] None) 3)
    as (Hfirst & _).
  apply (Hfirst [sampleRange "1"%string 0 2] (sampleRange "2"%string 2 5) []); [reflexivity..|].
  intros y [<-|[]]. reflexivity.
Defined.

Lemma applyStyleToSelection_replaces_overlaps_witness :
  styledRanges
    (applyStyleToSelection "2"%string
       (sampleState [sampleRange "1"%string 2 5] (Some (4, 8))))
  = [createdRange "2"%string (sampleState [sampleRange "1"%string 2 5] (Some (4, 8))) 4 8].
Proof.
  destruct applyStyleToSelection_replaces_overlaps as [Hgeneral _].
  destruct (Hgeneral "2"%string (sampleState [sampleRange "1"%string 2 5] (Some (4, 8))) 4 8
                     eq_refl eq_refl) as [Heq _].
  rewrite Heq. reflexivity.
Defined.



End EditorFacts.

(** ** The line breaker *)

Module WrapFacts.
Import Wrap.

Definition notNewline (s : LineSegment) : bool := negb (isNewline s).

(** The test of [processLine] and of the overflow guard. *)
Definition nonEmpty (l : list LineSegment) : bool := 0 <? Z.of_nat (length l).

Lemma nonEmpty_nil : nonEmpty [] = false.
Proof. reflexivity. Qed.

Lemma nonEmpty_snoc (l : list LineSegment) (s : LineSegment) :
  nonEmpty (l ++ [s]) = true.
Proof. unfold nonEmpty. rewrite length_app. cbn. apply Z.ltb_lt. lia. Qed.

Lemma nonEmpty_false (l : list LineSegment) : nonEmpty l = false -> l = [].
Proof.
  destruct l; [reflexivity|]. unfold nonEmpty. cbn [length].
  intros H. apply Z.ltb_ge in H. lia.
Qed.

Lemma fold_width_from (l : list LineSegment) (a : Q) :
  (fold_left (fun sum s => sum + width s) l a == a + sumWidth l)%Q.
Proof.
  unfold sumWidth. revert a.
  induction l as [|s l IH]; intros a; cbn.
  - ring.
  - rewrite (IH (a + width s)%Q), (IH (0 + width s)%Q). ring.
Qed.

Lemma sumWidth_cons (s : LineSegment) (l : list LineSegment) :
  (sumWidth (s :: l) == width s + sumWidth l)%Q.
Proof.
  unfold sumWidth at 1. cbn. rewrite fold_width_from. ring.
Qed.

Section Breaker.

Variable lineHeight : Q.
Variable docAlign : Alignment.
Variable targetWidth : Q.

Abbreviation processLine := (processLine docAlign).
Abbreviation step := (step lineHeight docAlign targetWidth).
Abbreviation wrapFrom := (wrapFrom lineHeight docAlign targetWidth).
Abbreviation wrapStyledSegments := (wrapStyledSegments lineHeight docAlign targetWidth).
Abbreviation breakAtSpace := (breakAtSpace lineHeight docAlign).
Abbreviation breakIfNeeded := (breakIfNeeded lineHeight docAlign targetWidth).
Abbreviation adoptAlignment := (adoptAlignment docAlign).
Abbreviation pushSegment := (pushSegment lineHeight).

(** *** What the accumulator holds *)

(** All segments placed so far: those of the finished lines, then those of
    the line being built. *)
Definition placedSegments (a : Acc) : list LineSegment :=
  concat (map segments (lines a)) ++ currentLineSegments a.

Lemma lastSpaceFrom_range (l : list LineSegment) (n : nat) :
  (n <= length l)%nat -> -1 <= lastSpaceFrom l n < Z.of_nat (length l).
Proof.
  induction n as [|i IH]; cbn; intros Hn; [lia|].
  destruct (nth_error l i) as [s|]; [destruct (isSpace s)|]; lia.
Qed.

Lemma lastSpaceIndex_range (l : list LineSegment) :
  -1 <= lastSpaceIndex l < Z.of_nat (length l).
Proof. apply lastSpaceFrom_range. lia. Qed.

Lemma processLine_lines (a : Acc) :
  lines (processLine a)
  = if nonEmpty (currentLineSegments a)
    then lines a ++ [ {| segments := currentLineSegments a;
                         metricsWidth := currentLineMetricsWidth a;
                         maxHeight := currentLineMaxHeight a;
                         spaces := currentLineSpaces a;
                         effectiveAlignment := currentLineEffectiveAlignment a |} ]
    else lines a.
Proof. reflexivity. Qed.

Lemma processLine_placed (a : Acc) :
  placedSegments (processLine a) = placedSegments a.
Proof.
  unfold placedSegments. rewrite processLine_lines. cbn [currentLineSegments Wrap.processLine].
  rewrite app_nil_r.
  destruct (nonEmpty (currentLineSegments a)) eqn:Hne.
  - rewrite map_app, concat_app. cbn. now rewrite app_nil_r.
  - apply nonEmpty_false in Hne. rewrite Hne. now rewrite app_nil_r.
Qed.

Lemma adoptAlignment_lines (s : LineSegment) (a : Acc) :
  lines (adoptAlignment s a) = lines a.
Proof.
  unfold Wrap.adoptAlignment.
  destruct (textAlign (seg_style s)); [|reflexivity].
  destruct (Alignment_eqb _ _); reflexivity.
Qed.

Lemma adoptAlignment_segments (s : LineSegment) (a : Acc) :
  currentLineSegments (adoptAlignment s a) = currentLineSegments a.
Proof.
  unfold Wrap.adoptAlignment.
  destruct (textAlign (seg_style s)); [|reflexivity].
  destruct (Alignment_eqb _ _); reflexivity.
Qed.

Lemma adoptAlignment_width (s : LineSegment) (a : Acc) :
  currentLineMetricsWidth (adoptAlignment s a) = currentLineMetricsWidth a.
Proof.
  unfold Wrap.adoptAlignment.
  destruct (textAlign (seg_style s)); [|reflexivity].
  destruct (Alignment_eqb _ _); reflexivity.
Qed.

Lemma adoptAlignment_spaces (s : LineSegment) (a : Acc) :
  currentLineSpaces (adoptAlignment s a) = currentLineSpaces a.
Proof.
  unfold Wrap.adoptAlignment.
  destruct (textAlign (seg_style s)); [|reflexivity].
  destruct (Alignment_eqb _ _); reflexivity.
Qed.

Lemma adoptAlignment_placed (s : LineSegment) (a : Acc) :
  placedSegments (adoptAlignment s a) = placedSegments a.
Proof.
  unfold placedSegments.
  now rewrite adoptAlignment_lines, adoptAlignment_segments.
Qed.

Lemma breakAtSpace_placed (k : Z) (a : Acc) :
  -1 <= k < Z.of_nat (length (currentLineSegments a)) ->
  placedSegments (breakAtSpace k a) = placedSegments a.
Proof.
  intros Hk. unfold placedSegments, Wrap.breakAtSpace.
  cbn [lines currentLineSegments].
  rewrite processLine_lines. cbn [lines currentLineSegments currentLineMetricsWidth
    currentLineMaxHeight currentLineSpaces currentLineEffectiveAlignment].
  destruct (nonEmpty (slice (currentLineSegments a) 0 (k + 1))) eqn:Hne.
  - rewrite map_app, concat_app. cbn [map concat segments].
    rewrite app_nil_r, <- app_assoc. f_equal. now apply slice_split.
  - apply nonEmpty_false in Hne.
    rewrite <- (slice_split (currentLineSegments a) k Hk) at 2.
    now rewrite Hne.
Qed.

Lemma breakIfNeeded_placed (s : LineSegment) (a : Acc) :
  placedSegments (breakIfNeeded s a) = placedSegments a.
Proof.
  unfold Wrap.breakIfNeeded.
  destruct (overflows targetWidth s a); [|reflexivity].
  destruct (negb _).
  - apply breakAtSpace_placed, lastSpaceIndex_range.
  - apply processLine_placed.
Qed.

Lemma pushSegment_placed (s : LineSegment) (a : Acc) :
  placedSegments (pushSegment s a) = placedSegments a ++ [s].
Proof. unfold placedSegments. cbn. now rewrite app_assoc. Qed.

Lemma step_placed (a : Acc) (s : LineSegment) :
  placedSegments (step a s)
  = placedSegments a ++ (if isNewline s then [] else [s]).
Proof.
  unfold Wrap.step. destruct (isNewline s).
  - now rewrite processLine_placed, adoptAlignment_placed, app_nil_r.
  - now rewrite pushSegment_placed, breakIfNeeded_placed, adoptAlignment_placed.
Qed.

Lemma wrapFrom_placed (segs : list LineSegment) (a : Acc) :
  placedSegments (wrapFrom a segs) = placedSegments a ++ filter notNewline segs.
Proof.
  revert a. induction segs as [|s segs IH]; intros a; cbn.
  - now rewrite app_nil_r.
  - unfold Wrap.wrapFrom in IH. rewrite IH, step_placed, <- app_assoc.
    f_equal. unfold notNewline. now destruct (isNewline s).
Qed.

Lemma wrapStyledSegments_placed (segs : list LineSegment) :
  concat (map segments (wrapStyledSegments segs)) = filter notNewline segs.
Proof.
  unfold Wrap.wrapStyledSegments.
  pose proof (processLine_placed (wrapFrom (initial docAlign) segs)) as H.
  unfold placedSegments at 1 in H. cbn [currentLineSegments Wrap.processLine] in H.
  rewrite app_nil_r in H. rewrite H, wrapFrom_placed. reflexivity.
Qed.

(** C10: the segments of the lines returned by [wrapStyledSegments], taken
    line after line, are the input segments without the newline segments:
    none is lost, repeated, moved or changed, whatever the target width, the
    line-height multiplier and the document alignment. *)
Theorem wrapStyledSegments_keeps_segments (segs : list LineSegment) :
  concat (map segments (wrapStyledSegments segs))
  = filter (fun s => negb (isNewline s)) segs
  /\ (forall s, In s segs -> isNewline s = false ->
        exists line, In line (wrapStyledSegments segs) /\ In s (segments line))
  /\ (forall line s, In line (wrapStyledSegments segs) ->
        In s (segments line) -> In s segs /\ isNewline s = false).
Proof.
  pose proof (wrapStyledSegments_placed segs) as Hcat.
  split; [exact Hcat|]. split.
  - intros s Hin Hs.
    assert (Hf : In s (filter notNewline segs)).
    { apply filter_In. split; [assumption|]. unfold notNewline. now rewrite Hs. }
    rewrite <- Hcat in Hf. apply in_concat in Hf.
    destruct Hf as (l & Hl & Hsl). apply in_map_iff in Hl.
    destruct Hl as (line & <- & Hline). eauto.
  - intros line s Hline Hs.
    assert (Hf : In s (concat (map segments (wrapStyledSegments segs)))).
    { apply in_concat. exists (segments line). split; [now apply in_map|assumption]. }
    rewrite Hcat in Hf. apply filter_In in Hf. destruct Hf as [Hin Hn].
    split; [assumption|]. unfold notNewline in Hn. now destruct (isNewline s).
Qed.

(** *** Explicit line breaks *)

(** The runs of segments between consecutive newline segments, [cur] being
    the run read so far: a text with [k] newlines has [k + 1] runs. *)
Fixpoint runsFrom (cur : list LineSegment) (segs : list LineSegment)
    : list (list LineSegment) :=
  match segs with
  | [] => [cur]
  | s :: rest =>
      if isNewline s then cur :: runsFrom [] rest
      else runsFrom (cur ++ [s]) rest
  end.

Definition splitOnNewline (segs : list LineSegment) : list (list LineSegment) :=
  runsFrom [] segs.

Definition countNewlines (segs : list LineSegment) : nat :=
  length (filter isNewline segs).

(** No width-triggered break occurs: whenever a segment arrives at a line
    that already holds one, the running width plus its width stays within
    [targetWidth].  [cur] is the running width and [started] says whether
    the line holds a segment. *)
Fixpoint noBreakFrom (cur : Q) (started : bool) (segs : list LineSegment)
    : bool :=
  match segs with
  | [] => true
  | s :: rest =>
      if isNewline s then noBreakFrom 0 false rest
      else (negb started || Qle_bool (cur + width s) targetWidth)
           && noBreakFrom (cur + width s) true rest
  end.

Definition noBreak (segs : list LineSegment) : bool := noBreakFrom 0 false segs.

Lemma runsFrom_length (segs cur : list LineSegment) :
  length (runsFrom cur segs) = S (countNewlines segs).
Proof.
  revert cur. unfold countNewlines.
  induction segs as [|s segs IH]; intros cur; cbn; [reflexivity|].
  destruct (isNewline s); cbn; now rewrite IH.
Qed.

Lemma runsFrom_no_newline (segs cur : list LineSegment) :
  Forall (fun s => isNewline s = false) cur ->
  Forall (Forall (fun s => isNewline s = false)) (runsFrom cur segs).
Proof.
  revert cur. induction segs as [|s segs IH]; intros cur Hcur; cbn.
  - now constructor.
  - destruct (isNewline s) eqn:Hs.
    + constructor; [assumption|]. now apply IH.
    + apply IH. apply Forall_app. split; [assumption|]. now repeat constructor.
Qed.

(** Joining the runs with the newline segments in between gives the text
    back: the runs are the characters between consecutive breaks. *)
Fixpoint joinRuns (seps : list LineSegment) (runs : list (list LineSegment))
    : list LineSegment :=
  match runs with
  | [] => []
  | [r] => r
  | r :: rs =>
      match seps with
      | nl :: seps' => r ++ nl :: joinRuns seps' rs
      | [] => r ++ joinRuns [] rs
      end
  end.

Lemma runsFrom_nonempty (segs cur : list LineSegment) : runsFrom cur segs <> [].
Proof.
  revert cur. induction segs as [|s segs IH]; intros cur; cbn; [discriminate|].
  destruct (isNewline s); [discriminate|apply IH].
Qed.

Lemma joinRuns_runsFrom (segs cur : list LineSegment) :
  joinRuns (filter isNewline segs) (runsFrom cur segs) = cur ++ segs.
Proof.
  revert cur. induction segs as [|s segs IH]; intros cur; cbn.
  - now rewrite app_nil_r.
  - destruct (isNewline s) eqn:Hs.
    + specialize (IH []). cbn [app] in IH.
      destruct (runsFrom [] segs) as [|r rs] eqn:Hr;
        [now apply runsFrom_nonempty in Hr|].
      change (joinRuns (s :: filter isNewline segs) (cur :: r :: rs))
        with (cur ++ s :: joinRuns (filter isNewline segs) (r :: rs)).
      now rewrite IH.
    + rewrite IH, <- app_assoc. reflexivity.
Qed.

Lemma step_newline (a : Acc) (s : LineSegment) :
  isNewline s = true -> step a s = processLine (adoptAlignment s a).
Proof. intros H. unfold Wrap.step. now rewrite H. Qed.

Lemma step_fits (a : Acc) (s : LineSegment) :
  isNewline s = false ->
  negb (nonEmpty (currentLineSegments a))
  || Qle_bool (currentLineMetricsWidth a + width s) targetWidth = true ->
  step a s = pushSegment s (adoptAlignment s a).
Proof.
  intros Hs Hfit. unfold Wrap.step, Wrap.breakIfNeeded, overflows. rewrite Hs.
  rewrite adoptAlignment_width, adoptAlignment_segments.
  fold (nonEmpty (currentLineSegments a)).
  destruct (nonEmpty (currentLineSegments a)); cbn in *.
  - rewrite Hfit. reflexivity.
  - now rewrite andb_false_r.
Qed.

Lemma wrapFrom_noBreak (segs : list LineSegment) (a : Acc) :
  noBreakFrom (currentLineMetricsWidth a) (nonEmpty (currentLineSegments a)) segs
  = true ->
  map segments (lines (processLine (wrapFrom a segs)))
  = map segments (lines a)
    ++ filter nonEmpty (runsFrom (currentLineSegments a) segs).
Proof.
  revert a. induction segs as [|s segs IH]; intros a Hfit.
  - cbn [Wrap.wrapFrom fold_left runsFrom filter]. rewrite processLine_lines.
    destruct (nonEmpty (currentLineSegments a)).
    + now rewrite map_app.
    + now rewrite app_nil_r.
  - cbn [noBreakFrom] in Hfit. cbn [runsFrom].
    change (wrapFrom a (s :: segs)) with (wrapFrom (step a s) segs).
    destruct (isNewline s) eqn:Hs.
    + rewrite step_newline by assumption.
      rewrite IH by exact Hfit.
      rewrite processLine_lines, adoptAlignment_segments, adoptAlignment_lines.
      cbn [currentLineSegments Wrap.processLine filter].
      destruct (nonEmpty (currentLineSegments a)).
      * rewrite map_app, <- app_assoc. reflexivity.
      * reflexivity.
    + apply andb_true_iff in Hfit. destruct Hfit as [Hnow Hrest].
      rewrite step_fits by assumption.
      rewrite IH.
      * cbn [lines currentLineSegments Wrap.pushSegment].
        now rewrite adoptAlignment_lines, adoptAlignment_segments.
      * cbn [currentLineSegments currentLineMetricsWidth Wrap.pushSegment].
        rewrite adoptAlignment_segments, adoptAlignment_width, nonEmpty_snoc.
        exact Hrest.
Qed.

Lemma wrapStyledSegments_no_newline (segs : list LineSegment) (line : LineData)
    (s : LineSegment) :
  In line (wrapStyledSegments segs) -> In s (segments line) ->
  isNewline s = false.
Proof.
  intros Hline Hs.
  assert (Hin : In s (concat (map segments (wrapStyledSegments segs)))).
  { apply in_concat. exists (segments line). split; [|assumption].
    now apply in_map. }
  rewrite wrapStyledSegments_placed in Hin.
  apply filter_In in Hin. destruct Hin as [_ Hn].
  unfold notNewline in Hn. now destruct (isNewline s).
Qed.

(** C3, as the code has it: when no width-triggered break occurs, the lines
    returned are the non-empty runs between consecutive newline segments, in
    order, each line holding exactly the segments of its run; a text with
    [k] newlines has [k + 1] runs, so at most [k + 1] lines are returned and
    exactly [k + 1] when no run is empty; no newline segment is a segment of
    a line. *)
Theorem wrapStyledSegments_hard_breaks (segs : list LineSegment) :
  noBreak segs = true ->
  map segments (wrapStyledSegments segs) = filter nonEmpty (splitOnNewline segs)
  /\ length (splitOnNewline segs) = S (countNewlines segs)
  /\ joinRuns (filter isNewline segs) (splitOnNewline segs) = segs
  /\ (length (wrapStyledSegments segs) <= S (countNewlines segs))%nat
  /\ (forallb nonEmpty (splitOnNewline segs) = true ->
      length (wrapStyledSegments segs) = S (countNewlines segs))
  /\ (forall line s, In line (wrapStyledSegments segs) ->
                     In s (segments line) -> isNewline s = false).
Proof.
  intros Hfit.
  assert (Hlines : map segments (wrapStyledSegments segs)
                   = filter nonEmpty (splitOnNewline segs)).
  { unfold Wrap.wrapStyledSegments.
    rewrite (wrapFrom_noBreak segs (initial docAlign)) by exact Hfit.
    reflexivity. }
  assert (Hlen : length (wrapStyledSegments segs)
                 = length (filter nonEmpty (splitOnNewline segs))).
  { now rewrite <- Hlines, length_map. }
  split; [|split; [|split; [|split; [|split]]]].
  - exact Hlines.
  - apply runsFrom_length.
  - apply (joinRuns_runsFrom segs []).
  - rewrite Hlen, <- (runsFrom_length segs []). apply filter_length_le.
  - intros Hall. rewrite Hlen, <- (runsFrom_length segs []).
    fold (splitOnNewline segs). now rewrite filter_all.
  - apply wrapStyledSegments_no_newline.
Qed.

(** *** The aggregates stored with a line *)

(** A finished line is not empty and its stored width, height and space
    count are those of its segments. *)
Definition lineConsistent (l : LineData) : Prop :=
  segments l <> []
  /\ metricsWidth l = sumWidth (segments l)
  /\ maxHeight l = maxLineHeight lineHeight (segments l)
  /\ spaces l = countSpaces (segments l).

Definition accConsistent (a : Acc) : Prop :=
  Forall lineConsistent (lines a)
  /\ currentLineMetricsWidth a = sumWidth (currentLineSegments a)
  /\ currentLineMaxHeight a = maxLineHeight lineHeight (currentLineSegments a)
  /\ currentLineSpaces a = countSpaces (currentLineSegments a).

Lemma sumWidth_snoc (l : list LineSegment) (s : LineSegment) :
  sumWidth (l ++ [s]) = (sumWidth l + width s)%Q.
Proof. unfold sumWidth. now rewrite fold_left_app. Qed.

Lemma maxLineHeight_snoc (l : list LineSegment) (s : LineSegment) :
  maxLineHeight lineHeight (l ++ [s])
  = Math_max (maxLineHeight lineHeight l) (fontSize (seg_style s) * lineHeight)%Q.
Proof. unfold maxLineHeight. now rewrite fold_left_app. Qed.

Lemma countSpaces_snoc (l : list LineSegment) (s : LineSegment) :
  countSpaces (l ++ [s])
  = if isSpace s then S (countSpaces l) else countSpaces l.
Proof.
  unfold countSpaces. rewrite filter_app, length_app. cbn.
  destruct (isSpace s); cbn; lia.
Qed.

Lemma initial_consistent : accConsistent (initial docAlign).
Proof. repeat split. constructor. Qed.

Lemma processLine_consistent (a : Acc) :
  accConsistent a -> accConsistent (processLine a).
Proof.
  intros (Hlines & Hw & Hh & Hs). repeat split.
  rewrite processLine_lines.
  destruct (nonEmpty (currentLineSegments a)) eqn:Hne; [|assumption].
  apply Forall_app. split; [assumption|]. constructor; [|constructor].
  repeat split; cbn; try assumption.
  intros Hnil. rewrite Hnil in Hne. discriminate.
Qed.

Lemma adoptAlignment_consistent (s : LineSegment) (a : Acc) :
  accConsistent a -> accConsistent (adoptAlignment s a).
Proof.
  unfold Wrap.adoptAlignment.
  destruct (textAlign (seg_style s)); [|trivial].
  destruct (Alignment_eqb _ _); trivial.
Qed.

Lemma breakAtSpace_consistent (k : Z) (a : Acc) :
  accConsistent a -> accConsistent (breakAtSpace k a).
Proof.
  intros (Hlines & _). unfold Wrap.breakAtSpace.
  match goal with
  | |- accConsistent {| lines := lines (processLine ?b) |} =>
      assert (Hb : accConsistent (processLine b))
  end.
  { apply processLine_consistent. now repeat split. }
  destruct Hb as (Hl & _). now repeat split.
Qed.

Lemma breakIfNeeded_consistent (s : LineSegment) (a : Acc) :
  accConsistent a -> accConsistent (breakIfNeeded s a).
Proof.
  intros Ha. unfold Wrap.breakIfNeeded.
  destruct (overflows targetWidth s a); [|assumption].
  destruct (negb _).
  - now apply breakAtSpace_consistent.
  - now apply processLine_consistent.
Qed.

Lemma pushSegment_consistent (s : LineSegment) (a : Acc) :
  accConsistent a -> accConsistent (pushSegment s a).
Proof.
  intros (Hlines & Hw & Hh & Hs). unfold Wrap.pushSegment.
  repeat split;
    cbn [lines currentLineSegments currentLineMetricsWidth
         currentLineMaxHeight currentLineSpaces].
  - assumption.
  - now rewrite sumWidth_snoc, Hw.
  - now rewrite maxLineHeight_snoc, Hh.
  - now rewrite countSpaces_snoc, Hs.
Qed.

Lemma step_consistent (a : Acc) (s : LineSegment) :
  accConsistent a -> accConsistent (step a s).
Proof.
  intros Ha. unfold Wrap.step. destruct (isNewline s).
  - now apply processLine_consistent, adoptAlignment_consistent.
  - now apply pushSegment_consistent, breakIfNeeded_consistent,
      adoptAlignment_consistent.
Qed.

Lemma wrapFrom_consistent (segs : list LineSegment) (a : Acc) :
  accConsistent a -> accConsistent (wrapFrom a segs).
Proof.
  revert a. induction segs as [|s segs IH]; intros a Ha; [assumption|].
  apply IH. now apply step_consistent.
Qed.

Lemma wrapStyledSegments_consistent (segs : list LineSegment) :
  Forall lineConsistent (wrapStyledSegments segs).
Proof.
  unfold Wrap.wrapStyledSegments.
  apply (processLine_consistent (wrapFrom (initial docAlign) segs)).
  apply wrapFrom_consistent, initial_consistent.
Qed.

(** *** The alignment of a line closed by a width-triggered break *)

Lemma overflows_adoptAlignment (s s' : LineSegment) (a : Acc) :
  overflows targetWidth s (adoptAlignment s' a) = overflows targetWidth s a.
Proof.
  unfold overflows. now rewrite adoptAlignment_width, adoptAlignment_segments.
Qed.

Lemma adoptAlignment_adopts (s : LineSegment) (a : Acc) (al : Alignment) :
  textAlign (seg_style s) = Some al ->
  currentLineEffectiveAlignment a = docAlign ->
  currentLineEffectiveAlignment (adoptAlignment s a) = al.
Proof.
  intros Hal Hdef. unfold Wrap.adoptAlignment. rewrite Hal, Hdef.
  now destruct docAlign.
Qed.

(** When a segment with its own alignment arrives at a line that still has
    the default alignment and does not fit, the line closed by the break is
    made of segments that were there before, gets the alignment of the
    arriving segment, and the arriving segment goes to the next line. *)
Lemma step_break_alignment (a : Acc) (s : LineSegment) (al : Alignment) :
  isNewline s = false ->
  overflows targetWidth s a = true ->
  textAlign (seg_style s) = Some al ->
  currentLineEffectiveAlignment a = docAlign ->
  exists line rest,
    lines (step a s) = lines a ++ [line]
    /\ currentLineSegments a = segments line ++ rest
    /\ effectiveAlignment line = al
    /\ currentLineSegments (step a s) = rest ++ [s].
Proof.
  intros Hs Hover Hal Hdef.
  pose proof (adoptAlignment_adopts s a al Hal Hdef) as Hadopt.
  assert (Hne : nonEmpty (currentLineSegments a) = true).
  { unfold overflows in Hover. apply andb_true_iff in Hover. apply Hover. }
  unfold Wrap.step, Wrap.breakIfNeeded. rewrite Hs, overflows_adoptAlignment, Hover.
  rewrite adoptAlignment_segments.
  pose proof (lastSpaceIndex_range (currentLineSegments a)) as Hk.
  destruct (Z.eqb_spec (lastSpaceIndex (currentLineSegments a)) (-1)) as [Hnone|Hfound];
    cbn [negb].
  - eexists. exists [].
    cbn [lines currentLineSegments Wrap.pushSegment].
    rewrite processLine_lines, adoptAlignment_segments, adoptAlignment_lines, Hne.
    cbn [segments effectiveAlignment currentLineSegments Wrap.processLine].
    rewrite app_nil_r. repeat split. exact Hadopt.
  - set (k := lastSpaceIndex (currentLineSegments a)) in *.
    assert (Hkept : nonEmpty (slice (currentLineSegments a) 0 (k + 1)) = true).
    { replace (k + 1) with (Z.of_nat (Z.to_nat (k + 1))) by lia.
      rewrite slice_prefix by lia. unfold nonEmpty.
      rewrite length_firstn. apply Z.ltb_lt. lia. }
    eexists. exists (sliceFrom (currentLineSegments a) (k + 1)).
    unfold Wrap.breakAtSpace. rewrite adoptAlignment_segments.
    cbn [lines currentLineSegments Wrap.pushSegment].
    rewrite processLine_lines.
    cbn [lines currentLineSegments currentLineMetricsWidth currentLineMaxHeight
         currentLineSpaces currentLineEffectiveAlignment].
    rewrite Hkept, adoptAlignment_lines.
    cbn [segments effectiveAlignment].
    repeat split.
    + symmetry. apply slice_split. lia.
    + exact Hadopt.
Qed.

(** *** How far a line can exceed the target width *)

Definition nonNegative (l : list LineSegment) : Prop :=
  Forall (fun s => (0 <= width s)%Q) l.

Definition noSpace (l : list LineSegment) : Prop :=
  Forall (fun s => isSpace s = false) l.

(** The line without its last segment is within the target width. *)
Definition fitsButLast (l : list LineSegment) : Prop :=
  exists m s, l = m ++ [s] /\ (sumWidth m <= targetWidth)%Q.

(** The line being built fits, or it is a run without spaces that fits
    followed by one more segment. *)
Definition curFits (cur : list LineSegment) : Prop :=
  (sumWidth cur <= targetWidth)%Q
  \/ exists m s, cur = m ++ [s] /\ (sumWidth m <= targetWidth)%Q /\ noSpace m.

Lemma sumWidth_app (l1 l2 : list LineSegment) :
  (sumWidth (l1 ++ l2) == sumWidth l1 + sumWidth l2)%Q.
Proof.
  unfold sumWidth at 1. rewrite fold_left_app. apply fold_width_from.
Qed.

Lemma sumWidth_nonneg (l : list LineSegment) :
  nonNegative l -> (0 <= sumWidth l)%Q.
Proof.
  induction 1 as [|s l Hs _ IH].
  - apply Qle_refl.
  - rewrite sumWidth_cons.
    apply (Qplus_le_compat 0 (width s) 0 (sumWidth l)); assumption.
Qed.

Lemma sumWidth_prefix_le (l1 l2 : list LineSegment) :
  nonNegative l2 -> (sumWidth l1 <= sumWidth (l1 ++ l2))%Q.
Proof.
  intros H2. rewrite sumWidth_app.
  rewrite <- (Qplus_0_r (sumWidth l1)) at 1.
  apply Qplus_le_compat; [apply Qle_refl|now apply sumWidth_nonneg].
Qed.

Lemma sumWidth_suffix_le (l1 l2 : list LineSegment) :
  nonNegative l1 -> (sumWidth l2 <= sumWidth (l1 ++ l2))%Q.
Proof.
  intros H1. rewrite sumWidth_app.
  rewrite <- (Qplus_0_l (sumWidth l2)) at 1.
  apply Qplus_le_compat; [now apply sumWidth_nonneg|apply Qle_refl].
Qed.

(** What the backward scan returns: the index of a space with no space
    after it. *)
Lemma lastSpaceFrom_found (l : list LineSegment) (n : nat) (k : Z) :
  lastSpaceFrom l n = k -> 0 <= k ->
  (Z.to_nat k < n)%nat
  /\ (exists sp, nth_error l (Z.to_nat k) = Some sp /\ isSpace sp = true)
  /\ forall i s, (Z.to_nat k < i < n)%nat -> nth_error l i = Some s ->
                 isSpace s = false.
Proof.
  induction n as [|i IH]; cbn [lastSpaceFrom]; intros Hk Hpos; [lia|].
  destruct (nth_error l i) as [x|] eqn:Hx; [destruct (isSpace x) eqn:Hsp|].
  - subst k. rewrite Nat2Z.id. split; [lia|]. split; [eauto|]. intros; lia.
  - destruct (IH Hk Hpos) as (Hlt & Hfound & Hafter).
    split; [lia|]. split; [assumption|].
    intros i' s' Hi' Hs'. destruct (Nat.eq_dec i' i) as [->|Hne].
    + congruence.
    + apply (Hafter i' s'); [lia|assumption].
  - destruct (IH Hk Hpos) as (Hlt & Hfound & Hafter).
    split; [lia|]. split; [assumption|].
    intros i' s' Hi' Hs'. destruct (Nat.eq_dec i' i) as [->|Hne].
    + congruence.
    + apply (Hafter i' s'); [lia|assumption].
Qed.

Lemma firstn_succ_nth {A : Type} (l : list A) (k : nat) (x : A) :
  nth_error l k = Some x -> firstn (S k) l = firstn k l ++ [x].
Proof.
  revert k. induction l as [|y l IH]; intros [|k] H;
    cbn [nth_error] in H; try discriminate.
  - injection H as ->. reflexivity.
  - change (firstn (S (S k)) (y :: l)) with (y :: firstn (S k) l).
    now rewrite (IH k H).
Qed.

Lemma skipn_noSpace (l : list LineSegment) (k : nat) :
  (forall i s, (k <= i)%nat -> nth_error l i = Some s -> isSpace s = false) ->
  noSpace (skipn k l).
Proof.
  intros H. apply Forall_forall. intros s Hs.
  apply In_nth_error in Hs. destruct Hs as [i Hi].
  rewrite nth_error_skipn in Hi. apply (H (k + i)%nat s); [lia|assumption].
Qed.

(** The two pieces of a word-boundary break. *)
Lemma lastSpaceIndex_split (cur : list LineSegment) :
  lastSpaceIndex cur <> -1 ->
  exists pre sp,
    slice cur 0 (lastSpaceIndex cur + 1) = pre ++ [sp]
    /\ isSpace sp = true
    /\ cur = pre ++ sp :: sliceFrom cur (lastSpaceIndex cur + 1)
    /\ noSpace (sliceFrom cur (lastSpaceIndex cur + 1)).
Proof.
  intros Hfound.
  pose proof (lastSpaceIndex_range cur) as Hrange.
  set (k := lastSpaceIndex cur) in *.
  destruct (lastSpaceFrom_found cur (length cur) k eq_refl ltac:(lia))
    as (Hlt & (sp & Hnth & Hsp) & Hafter).
  replace (k + 1) with (Z.of_nat (S (Z.to_nat k))) by lia.
  rewrite slice_prefix, sliceFrom_suffix by lia.
  exists (firstn (Z.to_nat k) cur), sp.
  rewrite (firstn_succ_nth cur _ sp Hnth).
  split; [reflexivity|]. split; [assumption|]. split.
  - rewrite <- (firstn_skipn (S (Z.to_nat k)) cur) at 1.
    rewrite (firstn_succ_nth cur _ sp Hnth), <- app_assoc. reflexivity.
  - apply skipn_noSpace. intros i s Hi Hs.
    apply (Hafter i s); [|assumption].
    split; [lia|]. apply nth_error_Some. congruence.
Qed.

Section WidthBound.

Hypothesis targetWidth_nonneg : (0 <= targetWidth)%Q.

Lemma curFits_nil : curFits [].
Proof. left. exact targetWidth_nonneg. Qed.

Lemma curFits_single (m : list LineSegment) (s : LineSegment) :
  noSpace m -> (sumWidth m <= targetWidth)%Q -> curFits (m ++ [s]).
Proof. intros Hm Hw. right. eauto. Qed.

Lemma curFits_line (cur : list LineSegment) :
  cur <> [] -> nonNegative cur -> curFits cur -> fitsButLast cur.
Proof.
  intros Hne Hpos [Hfit|(m & s & -> & Hm & _)].
  - destruct (exists_last Hne) as (m & s & ->). exists m, s.
    split; [reflexivity|].
    apply Forall_app in Hpos. destruct Hpos as [_ Hs].
    apply (Qle_trans _ (sumWidth (m ++ [s]))); [|assumption].
    now apply sumWidth_prefix_le.
  - exists m, s. now split.
Qed.

Definition widthInv (a : Acc) : Prop :=
  accConsistent a
  /\ nonNegative (currentLineSegments a)
  /\ Forall (fun l => fitsButLast (segments l)) (lines a)
  /\ curFits (currentLineSegments a).

Lemma processLine_widthInv (a : Acc) : widthInv a -> widthInv (processLine a).
Proof.
  intros (Hc & Hpos & Hlines & Hcur). split; [|split; [|split]].
  - now apply processLine_consistent.
  - constructor.
  - rewrite processLine_lines.
    destruct (nonEmpty (currentLineSegments a)) eqn:Hne; [|assumption].
    apply Forall_app. split; [assumption|]. constructor; [|constructor].
    cbn [segments]. apply curFits_line; try assumption.
    intros Hnil. rewrite Hnil in Hne. discriminate.
  - apply curFits_nil.
Qed.

Lemma adoptAlignment_widthInv (s : LineSegment) (a : Acc) :
  widthInv a -> widthInv (adoptAlignment s a).
Proof.
  unfold Wrap.adoptAlignment.
  destruct (textAlign (seg_style s)); [|trivial].
  destruct (Alignment_eqb _ _); trivial.
Qed.

(** A segment appended to an empty line, or to a line where it fits. *)
Lemma pushSegment_fits_widthInv (s : LineSegment) (a : Acc) :
  widthInv a -> (0 <= width s)%Q -> overflows targetWidth s a = false ->
  widthInv (pushSegment s a).
Proof.
  intros (Hc & Hpos & Hlines & Hcur) Hs Hover.
  split; [|split; [|split]].
  - now apply pushSegment_consistent.
  - cbn [currentLineSegments Wrap.pushSegment]. apply Forall_app.
    split; [assumption|]. now constructor.
  - assumption.
  - cbn [currentLineSegments Wrap.pushSegment].
    unfold overflows in Hover. apply andb_false_iff in Hover.
    destruct Hover as [Hfit|Hempty].
    + left. rewrite sumWidth_snoc.
      destruct Hc as (_ & Hw & _). rewrite <- Hw.
      apply Qle_bool_iff. now destruct (Qle_bool _ _).
    + apply nonEmpty_false in Hempty. rewrite Hempty.
      apply (curFits_single [] s); [constructor|exact targetWidth_nonneg].
Qed.

(** A segment appended after a break at the last space. *)
Lemma breakAtSpace_widthInv (s : LineSegment) (a : Acc) :
  widthInv a -> (0 <= width s)%Q ->
  lastSpaceIndex (currentLineSegments a) <> -1 ->
  widthInv (pushSegment s
              (breakAtSpace (lastSpaceIndex (currentLineSegments a)) a)).
Proof.
  intros (Hc & Hpos & Hlines & Hcur) Hs Hfound.
  destruct (lastSpaceIndex_split _ Hfound)
    as (pre & sp & Hkept & Hsp & Hcur_eq & Hmoved).
  set (moved := sliceFrom (currentLineSegments a)
                          (lastSpaceIndex (currentLineSegments a) + 1)) in *.
  assert (Hpos' : nonNegative pre /\ nonNegative (sp :: moved)).
  { unfold nonNegative in *. rewrite Hcur_eq in Hpos.
    now apply Forall_app in Hpos. }
  destruct Hpos' as [Hpre Hrest].
  assert (Hmoved_pos : nonNegative moved) by now inversion Hrest.
  (* the kept part without its space, and the moved part, both fit *)
  assert (Hparts : (sumWidth pre <= targetWidth)%Q
                   /\ (sumWidth moved <= targetWidth)%Q).
  { destruct Hcur as [Hfit|(m & s0 & Hm & Hmw & Hmn)].
    - rewrite Hcur_eq in Hfit. split.
      + apply (Qle_trans _ (sumWidth (pre ++ sp :: moved))); [|assumption].
        now apply sumWidth_prefix_le.
      + apply (Qle_trans _ (sumWidth (pre ++ sp :: moved))); [|assumption].
        replace (pre ++ sp :: moved) with ((pre ++ [sp]) ++ moved)
          by now rewrite <- app_assoc.
        apply sumWidth_suffix_le.
        apply Forall_app. split; [assumption|].
        constructor; [now inversion Hrest|constructor].
    - (* the space is the last segment: nothing is moved *)
      assert (Hlast : moved = [] /\ pre = m).
      { rewrite Hcur_eq in Hm.
        destruct moved as [|x moved'] using rev_ind.
        - apply app_inj_tail in Hm. destruct Hm as [-> _]. now split.
        - exfalso.
          replace (pre ++ sp :: moved' ++ [x])
            with ((pre ++ sp :: moved') ++ [x]) in Hm
            by now rewrite <- app_assoc.
          apply app_inj_tail in Hm. destruct Hm as [<- _].
          unfold noSpace in Hmn. apply Forall_app in Hmn.
          destruct Hmn as [_ Hmn]. inversion Hmn; subst. congruence. }
      destruct Hlast as [-> ->]. split; [assumption|exact targetWidth_nonneg]. }
  destruct Hparts as [Hpre_fit Hmoved_fit].
  split; [|split; [|split]].
  - apply pushSegment_consistent, breakAtSpace_consistent. assumption.
  - cbn [currentLineSegments Wrap.pushSegment Wrap.breakAtSpace].
    apply Forall_app. split; [assumption|]. now constructor.
  - cbn [lines Wrap.pushSegment Wrap.breakAtSpace]. rewrite processLine_lines.
    cbn [lines currentLineSegments currentLineMetricsWidth currentLineMaxHeight
         currentLineSpaces currentLineEffectiveAlignment].
    rewrite Hkept, nonEmpty_snoc.
    apply Forall_app. split; [assumption|]. constructor; [|constructor].
    cbn [segments]. exists pre, sp. now split.
  - cbn [currentLineSegments Wrap.pushSegment Wrap.breakAtSpace].
    now apply curFits_single.
Qed.

Lemma step_widthInv (a : Acc) (s : LineSegment) :
  widthInv a -> (0 <= width s)%Q -> widthInv (step a s).
Proof.
  intros Ha Hs. apply (adoptAlignment_widthInv s) in Ha.
  unfold Wrap.step. destruct (isNewline s); [now apply processLine_widthInv|].
  unfold Wrap.breakIfNeeded.
  destruct (overflows targetWidth s (adoptAlignment s a)) eqn:Hover.
  - destruct (Z.eqb_spec (lastSpaceIndex (currentLineSegments (adoptAlignment s a)))
                         (-1)) as [Hnone|Hfound]; cbn [negb].
    + apply pushSegment_fits_widthInv; [now apply processLine_widthInv|assumption|].
      unfold overflows. cbn [currentLineSegments Wrap.processLine].
      now rewrite andb_false_r.
    + now apply breakAtSpace_widthInv.
  - now apply pushSegment_fits_widthInv.
Qed.

Lemma wrapFrom_widthInv (segs : list LineSegment) (a : Acc) :
  widthInv a -> nonNegative segs -> widthInv (wrapFrom a segs).
Proof.
  revert a. induction segs as [|s segs IH]; intros a Ha Hpos; [assumption|].
  inversion Hpos; subst. apply IH; [|assumption]. now apply step_widthInv.
Qed.

(** With advance widths that are not negative, every line fits the target
    width once its last segment is left out. *)
Lemma wrapStyledSegments_fitsButLast (segs : list LineSegment) :
  nonNegative segs ->
  Forall (fun l => fitsButLast (segments l)) (wrapStyledSegments segs).
Proof.
  intros Hpos. unfold Wrap.wrapStyledSegments.
  assert (Hinit : widthInv (initial docAlign)).
  { split; [apply initial_consistent|]. split; [constructor|].
    split; [constructor|apply curFits_nil]. }
  pose proof (processLine_widthInv _ (wrapFrom_widthInv segs _ Hinit Hpos))
    as (_ & _ & Hlines & _).
  exact Hlines.
Qed.

End WidthBound.

End Breaker.

(** *** Concrete texts *)

Local Open Scope string_scope.

Definition plainStyle (al : Alignment) : TextStyle :=
  {| fontSize := 14; fontFamily := "Arial"; textColor := "#737373";
     isBold := false; isItalic := false; isUnderline := false;
     letterSpacing := 0; wordSpacing := 0; textAlign := Some al |}.

Definition largeStyle (al : Alignment) : TextStyle :=
  {| fontSize := 48; fontFamily := "Arial"; textColor := "#737373";
     isBold := false; isItalic := false; isUnderline := false;
     letterSpacing := 0; wordSpacing := 20; textAlign := Some al |}.

Definition seg (c : string) (sty : TextStyle) (w : Q) : LineSegment :=
  {| char := c; seg_style := sty; width := w |}.

(** What is read off a line in the examples: its characters, its stored
    width and its alignment. *)
Definition lineSummary (l : LineData) : list string * Q * Alignment :=
  (map char (segments l), metricsWidth l, effectiveAlignment l).

(** "i WWWWWWWW" in one font: a short word, then a word that fills the rest
    of the line and one character more. *)
Definition shortThenLongWord : list LineSegment :=
  seg "i" (plainStyle AlignLeft) 3 :: seg SPACE (plainStyle AlignLeft) 4
  :: repeat (seg "W" (plainStyle AlignLeft) 13) 8.

(** "a b " where the second space is set in a larger font. *)
Definition wideSecondSpace : list LineSegment :=
  [ seg "a" (plainStyle AlignLeft) 10; seg SPACE (plainStyle AlignLeft) 5;
    seg "b" (plainStyle AlignLeft) 70; seg SPACE (largeStyle AlignLeft) 40 ].

(** C1 fails on the code: after a word-boundary break the arriving segment
    is appended to the moved segments without a second width check.  What
    the code keeps, for advance widths that are not negative, is that every
    line fits [targetWidth] once its last segment is left out.  With
    [targetWidth = 100], "i WWWWWWWW" gives the line "WWWWWWWW" of width 104
    although no segment is wider than 13, and "a b " gives the line "b ",
    which holds a space, of width 110 although no segment is wider than
    70. *)
Theorem wrapStyledSegments_overflows_after_word_break :
  (forall lineHeight docAlign targetWidth segs line,
      (0 <= targetWidth)%Q ->
      Forall (fun s => (0 <= width s)%Q) segs ->
      In line (Wrap.wrapStyledSegments lineHeight docAlign targetWidth segs) ->
      exists m s,
        segments line = (m ++ [s])%list
        /\ (sumWidth m <= targetWidth)%Q
        /\ metricsWidth line = (sumWidth m + width s)%Q)
  /\
  let T := 100%Q in
  let wrap := Wrap.wrapStyledSegments (3 # 2) AlignLeft T in
  map lineSummary (wrap shortThenLongWord)
  = [ (["i"; SPACE], 7%Q, AlignLeft);
      (repeat "W" 8, 104%Q, AlignLeft) ]
  /\ Forall (fun s => (0 <= width s <= 13)%Q) shortThenLongWord
  /\ map lineSummary (wrap wideSecondSpace)
     = [ (["a"; SPACE], 15%Q, AlignLeft); (["b"; SPACE], 110%Q, AlignLeft) ]
  /\ Forall (fun s => (0 <= width s <= 70)%Q) wideSecondSpace
  /\ (exists line,
        In line (wrap wideSecondSpace)
        /\ existsb isSpace (segments line) = true
        /\ (T < metricsWidth line)%Q
        /\ Forall (fun s => (width s <= T)%Q) (segments line)).
Proof.
  split.
  - intros lineHeight docAlign targetWidth segs line HT Hpos Hin.
    pose proof (wrapStyledSegments_fitsButLast lineHeight docAlign targetWidth
                  HT segs Hpos) as Hfit.
    pose proof (wrapStyledSegments_consistent lineHeight docAlign targetWidth
                  segs) as Hcons.
    rewrite Forall_forall in Hfit, Hcons.
    destruct (Hfit line Hin) as (m & s & Hsegs & Hm).
    destruct (Hcons line Hin) as (_ & Hw & _).
    exists m, s. split; [assumption|]. split; [assumption|].
    now rewrite Hw, Hsegs, sumWidth_snoc.
  - cbv zeta.
    split; [reflexivity|]. split.
    { repeat constructor; discriminate. }
    split; [reflexivity|]. split.
    { repeat constructor; discriminate. }
    exists (nth 1 (Wrap.wrapStyledSegments (3 # 2) AlignLeft 100 wideSecondSpace)
                  (mkLineData [] 0 0 0 AlignLeft)).
    split; [vm_compute; right; left; reflexivity|].
    split; [vm_compute; reflexivity|]. split; [vm_compute; reflexivity|].
    vm_compute. repeat constructor; discriminate.
Qed.

(** "a b": the last character carries a right-aligned style; the document
    default is left. *)
Definition rightAlignedWord : list LineSegment :=
  [ seg "a" (plainStyle AlignLeft) 40; seg SPACE (plainStyle AlignLeft) 40;
    seg "b" (plainStyle AlignRight) 40 ].

(** C2 fails on the code: the alignment of the arriving segment is adopted
    before the width check, so it lands on the line being closed.  In
    general, when a segment with its own alignment does not fit on a line
    that still has the default alignment, the line closed by the break gets
    that alignment although the segment goes to the next line.  With the
    default left and [targetWidth = 100], "a b" with a right-aligned "b"
    gives the line "a " (no right-aligned segment) aligned right, and the
    line "b" (its only segment right-aligned) aligned left. *)
Theorem wrapStyledSegments_alignment_of_breaking_segment :
  (forall lineHeight docAlign targetWidth a s al,
      isNewline s = false ->
      overflows targetWidth s a = true ->
      textAlign (seg_style s) = Some al ->
      currentLineEffectiveAlignment a = docAlign ->
      exists line rest,
        lines (Wrap.step lineHeight docAlign targetWidth a s)
        = (lines a ++ [line])%list
        /\ currentLineSegments a = (segments line ++ rest)%list
        /\ effectiveAlignment line = al
        /\ currentLineSegments (Wrap.step lineHeight docAlign targetWidth a s)
           = (rest ++ [s])%list)
  /\ map (fun l => (map char (segments l),
                    map (fun s => textAlign (seg_style s)) (segments l),
                    effectiveAlignment l))
         (Wrap.wrapStyledSegments (3 # 2) AlignLeft 100 rightAlignedWord)
     = [ (["a"; SPACE], [Some AlignLeft; Some AlignLeft], AlignRight);
         (["b"], [Some AlignRight], AlignLeft) ].
Proof.
  split.
  - intros lineHeight docAlign targetWidth a s al.
    apply step_break_alignment.
  - reflexivity.
Qed.

(** "a", two newlines, "b". *)
Definition blankLineText : list LineSegment :=
  [ seg "a" (plainStyle AlignLeft) 8; seg NEWLINE (plainStyle AlignLeft) 0;
    seg NEWLINE (plainStyle AlignLeft) 0; seg "b" (plainStyle AlignLeft) 8 ].

(** A blank line is dropped: two newlines, no overflow, two lines. *)
Lemma wrapStyledSegments_drops_blank_line :
  noBreak 100 blankLineText = true
  /\ countNewlines blankLineText = 2%nat
  /\ map lineSummary (Wrap.wrapStyledSegments (3 # 2) AlignLeft 100 blankLineText)
     = [ (["a"], 8%Q, AlignLeft); (["b"], 8%Q, AlignLeft) ]
  /\ length (Wrap.wrapStyledSegments (3 # 2) AlignLeft 100 blankLineText)
     <> S (countNewlines blankLineText).
Proof.
  split; [reflexivity|]. split; [reflexivity|]. split; [reflexivity|].
  discriminate.
Qed.

Lemma wrapStyledSegments_hard_breaks_witness :
  map segments (Wrap.wrapStyledSegments (3 # 2) AlignLeft 100 blankLineText)
  = filter nonEmpty (splitOnNewline blankLineText).
Proof.
  apply (wrapStyledSegments_hard_breaks (3 # 2) AlignLeft 100 blankLineText).
  reflexivity.
Defined.

Lemma wrapStyledSegments_overflows_after_word_break_witness :
  exists line m s,
    In line (Wrap.wrapStyledSegments (3 # 2) AlignLeft 100 shortThenLongWord)
    /\ map char (segments line) = repeat "W" 8
    /\ segments line = (m ++ [s])%list
    /\ (sumWidth m <= 100)%Q
    /\ metricsWidth line = (sumWidth m + width s)%Q.
Proof.
  destruct wrapStyledSegments_overflows_after_word_break as [Hbound _].
  assert (Hin : In (nth 1 (Wrap.wrapStyledSegments (3 # 2) AlignLeft 100
                             shortThenLongWord)
                        (mkLineData [] 0 0 0 AlignLeft))
                   (Wrap.wrapStyledSegments (3 # 2) AlignLeft 100
                      shortThenLongWord))
    by (vm_compute; right; left; reflexivity).
  assert (HT : (0 <= 100)%Q) by discriminate.
  assert (Hpos : Forall (fun s => (0 <= width s)%Q) shortThenLongWord)
    by (repeat constructor; discriminate).
  pose proof (Hbound (3 # 2) AlignLeft 100%Q shortThenLongWord _ HT Hpos Hin)
    as (m & s & Hsegs & Hm & Hw).
  eexists. exists m, s. split; [exact Hin|].
  split; [vm_compute; reflexivity|]. split; [exact Hsegs|].
  split; [exact Hm|exact Hw].
Defined.

(** The accumulator after "a " of ["a b"], before "b" arrives. *)
Definition beforeBreak : Acc :=
  {| lines := [];
     currentLineSegments :=
       [ seg "a" (plainStyle AlignLeft) 40; seg SPACE (plainStyle AlignLeft) 40 ];
     currentLineMetricsWidth := 80; currentLineMaxHeight := 21;
     currentLineSpaces := 1; currentLineEffectiveAlignment := AlignLeft |}.

Lemma wrapStyledSegments_alignment_of_breaking_segment_witness :
  exists line rest,
    lines (Wrap.step (3 # 2) AlignLeft 100 beforeBreak
                     (seg "b" (plainStyle AlignRight) 40))
    = ([] ++ [line])%list
    /\ currentLineSegments beforeBreak = (segments line ++ rest)%list
    /\ effectiveAlignment line = AlignRight
    /\ currentLineSegments
         (Wrap.step (3 # 2) AlignLeft 100 beforeBreak
                    (seg "b" (plainStyle AlignRight) 40))
       = (rest ++ [seg "b" (plainStyle AlignRight) 40])%list.
Proof.
  destruct wrapStyledSegments_alignment_of_breaking_segment as [Hstep _].
  apply (Hstep (3 # 2) AlignLeft 100%Q beforeBreak
               (seg "b" (plainStyle AlignRight) 40) AlignRight);
    reflexivity.
Defined.

End WrapFacts.

(** ** Placement of a line *)

Module PlaceFacts.
Import Wrap Render.

Local Open Scope Q_scope.







Lemma Alignment_eqb_eq (a b : Alignment) : Alignment_eqb a b = true -> a = b.
Proof. destruct a, b; cbn; congruence. Qed.




(** *** A wrapped, justified text *)





End PlaceFacts.

(** ** The pixel scan and the target canvas *)

Module RenderFacts.
Import Render.

Lemma In_range (n i : Z) : In i (range n) <-> 0 <= i < n.
Proof.
  unfold range. rewrite in_map_iff. split.
  - intros (k & <- & Hk). apply in_seq in Hk. lia.
  - intros H. exists (Z.to_nat i). split; [lia|]. apply in_seq. lia.
Qed.

Lemma length_range (n : Z) : length (range n) = Z.to_nat n.
Proof. unfold range. now rewrite length_map, length_seq. Qed.

Lemma nth_error_range (n : Z) (k : nat) :
  (k < Z.to_nat n)%nat -> nth_error (range n) k = Some (Z.of_nat k).
Proof.
  intros H. unfold range. rewrite nth_error_map, nth_error_seq.
  destruct (Nat.ltb_spec k (Z.to_nat n)); [reflexivity|lia].
Qed.

(** Indexing a concatenation of blocks of one length. *)
Lemma flat_map_block_length {A B : Type} (f : A -> list B) (n : nat)
    (l : list A) :
  (forall a, length (f a) = n) -> length (flat_map f l) = (length l * n)%nat.
Proof.
  intros Hlen. induction l as [|a l IH]; cbn; [reflexivity|].
  rewrite length_app, Hlen, IH. reflexivity.
Qed.

Lemma nth_error_flat_map_block {A B : Type} (f : A -> list B) (n : nat)
    (l : list A) :
  (forall a, length (f a) = n) ->
  forall k r, (r < n)%nat ->
    nth_error (flat_map f l) (k * n + r)
    = match nth_error l k with
      | Some a => nth_error (f a) r
      | None => None
      end.
Proof.
  intros Hlen. induction l as [|a l IH]; intros k r Hr.
  - cbn [flat_map]. rewrite (proj2 (nth_error_None _ _)) by (cbn; lia).
    now destruct k.
  - cbn [flat_map]. destruct k as [|k].
    + cbn [Nat.mul Nat.add nth_error].
      rewrite nth_error_app1 by (rewrite Hlen; lia). reflexivity.
    + rewrite Nat.mul_succ_l.
      rewrite nth_error_app2 by (rewrite Hlen; lia).
      rewrite Hlen. replace (k * n + n + r - n)%nat with (k * n + r)%nat by lia.
      cbn [nth_error]. now apply IH.
Qed.

Lemma fold_left_flat_map {A B C : Type} (f : A -> C -> A) (g : B -> list C)
    (l : list B) (a : A) :
  fold_left f (flat_map g l) a
  = fold_left (fun acc x => fold_left f (g x) acc) l a.
Proof.
  revert a. induction l as [|x l IH]; intros a; cbn; [reflexivity|].
  now rewrite fold_left_app, IH.
Qed.

Lemma fold_left_over_map {A B C : Type} (f : A -> C -> A) (g : B -> C)
    (l : list B) (a : A) :
  fold_left f (map g l) a = fold_left (fun acc x => f acc (g x)) l a.
Proof.
  revert a. induction l as [|x l IH]; intros a; cbn; [reflexivity|apply IH].
Qed.

Lemma fold_left_ext_in {A B : Type} (f g : A -> B -> A) (l : list B) (a : A) :
  (forall x acc, In x l -> f acc x = g acc x) ->
  fold_left f l a = fold_left g l a.
Proof.
  revert a. induction l as [|x l IH]; intros a Hext; cbn; [reflexivity|].
  rewrite Hext by now left. apply IH.
  intros y acc Hy. apply Hext. now right.
Qed.

Section Scan.

(** The offscreen canvas and the height of the scanned rows. *)
Variable c : Canvas.
Variable h : Z.

Let w : Z := cwidth c.
Let img : ImageData := getImageData c w h.

(** The pixel at [(i, j)] is not fully transparent. *)
Definition lit (i j : Z) : bool := 0 <? alpha (canvasPixel c i j).

(** A pixel of the scanned region that is not fully transparent. *)
Definition visible (i j : Z) : Prop :=
  0 <= i < cwidth c /\ 0 <= j < h /\ 0 < alpha (canvasPixel c i j).

(** The tight bounding box of the visible pixels. *)
Definition boundingBox (x0 y0 x1 y1 : Z) : Prop :=
  (forall i j, visible i j -> x0 <= i <= x1 /\ y0 <= j <= y1)
  /\ (exists j, visible x0 j) /\ (exists j, visible x1 j)
  /\ (exists i, visible i y0) /\ (exists i, visible i y1).

Lemma boundingBox_unique (x0 y0 x1 y1 x0' y0' x1' y1' : Z) :
  boundingBox x0 y0 x1 y1 -> boundingBox x0' y0' x1' y1' ->
  x0 = x0' /\ y0 = y0' /\ x1 = x1' /\ y1 = y1'.
Proof.
  intros (Hb & (j0 & H0) & (j1 & H1) & (i0 & H2) & (i1 & H3))
         (Hb' & (j0' & H0') & (j1' & H1') & (i0' & H2') & (i1' & H3')).
  pose proof (Hb _ _ H0'). pose proof (Hb _ _ H1').
  pose proof (Hb _ _ H2'). pose proof (Hb _ _ H3').
  pose proof (Hb' _ _ H0). pose proof (Hb' _ _ H1).
  pose proof (Hb' _ _ H2). pose proof (Hb' _ _ H3).
  lia.
Qed.

Lemma lit_inside (i j : Z) :
  lit i j = true -> 0 <= i < cwidth c /\ 0 <= j < cheight c.
Proof.
  unfold lit, canvasPixel.
  destruct (Z.leb_spec 0 i), (Z.ltb_spec i (cwidth c)),
           (Z.leb_spec 0 j), (Z.ltb_spec j (cheight c));
    cbn; try discriminate. lia.
Qed.

(** The byte the scan reads for [(i, j)] is the alpha of that pixel. *)
Lemma byte_alpha (i j : Z) :
  0 <= i < w -> 0 <= j < h ->
  byteIsPositive (data img) ((j * width_ img + i) * 4 + 3) = lit i j.
Proof.
  intros Hi Hj. unfold byteIsPositive, lit. cbn [img width_ data getImageData].
  replace (Z.to_nat ((j * w + i) * 4 + 3))
    with (Z.to_nat j * (Z.to_nat w * 4) + (Z.to_nat i * 4 + 3))%nat by nia.
  rewrite (nth_error_flat_map_block _ (Z.to_nat w * 4)).
  - rewrite nth_error_range by lia.
    rewrite (nth_error_flat_map_block _ 4); [|reflexivity|lia].
    rewrite nth_error_range by lia.
    rewrite !Z2Nat.id by lia. reflexivity.
  - intros a. rewrite (flat_map_block_length _ 4) by reflexivity.
    now rewrite length_range.
  - lia.
Qed.

Definition initBounds : Bounds :=
  {| minX := cwidth c; minY := cheight c; maxX := 0; maxY := 0;
     hasContent := false |}.

(** The inner loop body, on the pixel instead of the byte array. *)
Definition mark (b : Bounds) (p : Z * Z) : Bounds :=
  if lit (fst p) (snd p) then
    {| minX := Z.min (minX b) (fst p); minY := Z.min (minY b) (snd p);
       maxX := Z.max (maxX b) (fst p); maxY := Z.max (maxY b) (snd p);
       hasContent := true |}
  else b.

(** The cells in the order the two loops visit them. *)
Definition cells : list (Z * Z) :=
  flat_map (fun i => map (fun j => (i, j)) (range h)) (range w).

Lemma In_cells (i j : Z) : In (i, j) cells <-> 0 <= i < w /\ 0 <= j < h.
Proof.
  unfold cells. rewrite in_flat_map. split.
  - intros (i' & Hi & Hin). apply in_map_iff in Hin.
    destruct Hin as (j' & [= -> ->] & Hj).
    apply In_range in Hi, Hj. tauto.
  - intros [Hi Hj]. exists i. split; [now apply In_range|].
    apply in_map_iff. exists j. split; [reflexivity|now apply In_range].
Qed.

Lemma findBounds_cells : findBounds c img = fold_left mark cells initBounds.
Proof.
  unfold findBounds, cells. rewrite fold_left_flat_map.
  cbn [img width_ height_ getImageData]. fold initBounds.
  apply fold_left_ext_in. intros i acc Hi.
  unfold scanColumn. cbn [height_ getImageData]. rewrite fold_left_over_map.
  apply fold_left_ext_in. intros j b Hj.
  apply In_range in Hi, Hj.
  unfold visit, mark. cbn [fst snd].
  now rewrite (byte_alpha i j Hi Hj).
Qed.

(** What the running bounds say about the cells visited so far. *)
Definition tight (visited : list (Z * Z)) (b : Bounds) : Prop :=
  (forall i j, In (i, j) visited -> lit i j = true ->
               minX b <= i <= maxX b /\ minY b <= j <= maxY b)
  /\ (exists j, In (minX b, j) visited /\ lit (minX b) j = true)
  /\ (exists j, In (maxX b, j) visited /\ lit (maxX b) j = true)
  /\ (exists i, In (i, minY b) visited /\ lit i (minY b) = true)
  /\ (exists i, In (i, maxY b) visited /\ lit i (maxY b) = true).

Definition scanInv (visited : list (Z * Z)) (b : Bounds) : Prop :=
  if hasContent b then tight visited b
  else b = initBounds /\ forall i j, In (i, j) visited -> lit i j = false.

Lemma mark_first (visited : list (Z * Z)) (i j : Z) :
  (forall i' j', In (i', j') visited -> lit i' j' = false) ->
  lit i j = true ->
  tight (visited ++ [(i, j)]) (mark initBounds (i, j)).
Proof.
  intros Hdark Hl. unfold mark. cbn [fst snd]. rewrite Hl.
  destruct (lit_inside i j Hl) as [Hi Hj].
  assert (Hhere : In (i, j) (visited ++ [(i, j)])).
  { apply in_or_app. right. now left. }
  unfold tight. cbn [minX minY maxX maxY initBounds].
  rewrite Z.min_r, Z.min_r, Z.max_r, Z.max_r by lia.
  split.
  - intros i' j' Hin Hl'. apply in_app_or in Hin.
    destruct Hin as [Hin|[[= <- <-]|[]]]; [|lia].
    rewrite (Hdark _ _ Hin) in Hl'. discriminate.
  - repeat split; eauto.
Qed.

Lemma mark_next (visited : list (Z * Z)) (b : Bounds) (i j : Z) :
  tight visited b -> lit i j = true ->
  tight (visited ++ [(i, j)])
        {| minX := Z.min (minX b) i; minY := Z.min (minY b) j;
           maxX := Z.max (maxX b) i; maxY := Z.max (maxY b) j;
           hasContent := true |}.
Proof.
  intros (Hbox & (j0 & Hin0 & Hl0) & (j1 & Hin1 & Hl1)
               & (i0 & Hin2 & Hl2) & (i1 & Hin3 & Hl3)) Hl.
  assert (Hhere : In (i, j) (visited ++ [(i, j)])).
  { apply in_or_app. right. now left. }
  assert (Hold : forall p, In p visited -> In p (visited ++ [(i, j)])).
  { intros p Hp. apply in_or_app. now left. }
  unfold tight. cbn [minX minY maxX maxY].
  split; [|split; [|split; [|split]]].
  - intros i' j' Hin Hl'. apply in_app_or in Hin.
    destruct Hin as [Hin|[[= <- <-]|[]]]; [|lia].
    specialize (Hbox _ _ Hin Hl'). lia.
  - destruct (Z.min_spec (minX b) i) as [[_ ->]|[_ ->]]; eauto.
  - destruct (Z.max_spec (maxX b) i) as [[_ ->]|[_ ->]]; eauto.
  - destruct (Z.min_spec (minY b) j) as [[_ ->]|[_ ->]]; eauto.
  - destruct (Z.max_spec (maxY b) j) as [[_ ->]|[_ ->]]; eauto.
Qed.

Lemma mark_inv (visited : list (Z * Z)) (b : Bounds) (p : Z * Z) :
  scanInv visited b -> scanInv (visited ++ [p]) (mark b p).
Proof.
  destruct p as [i j]. unfold scanInv. intros Hinv.
  destruct (lit i j) eqn:Hl.
  - destruct (hasContent b) eqn:Hc.
    + unfold mark. cbn [fst snd]. rewrite Hl. cbn [hasContent].
      now apply mark_next.
    + destruct Hinv as [-> Hdark].
      pose proof (mark_first visited i j Hdark Hl) as Ht.
      unfold mark in *. cbn [fst snd] in *. rewrite Hl in *. exact Ht.
  - unfold mark. cbn [fst snd]. rewrite Hl.
    destruct (hasContent b).
    + destruct Hinv as (Hbox & (j0 & Hin0 & Hl0) & (j1 & Hin1 & Hl1)
                             & (i0 & Hin2 & Hl2) & (i1 & Hin3 & Hl3)).
      assert (Hold : forall q, In q visited -> In q (visited ++ [(i, j)])).
      { intros q Hq. apply in_or_app. now left. }
      split; [|repeat split; eauto].
      intros i' j' Hin Hl'. apply in_app_or in Hin.
      destruct Hin as [Hin|[[= <- <-]|[]]]; [now apply Hbox|].
      rewrite Hl in Hl'. discriminate.
    + destruct Hinv as [-> Hdark]. split; [reflexivity|].
      intros i' j' Hin. apply in_app_or in Hin.
      destruct Hin as [Hin|[[= <- <-]|[]]]; [now apply Hdark|assumption].
Qed.

Lemma fold_mark_inv (rest visited : list (Z * Z)) (b : Bounds) :
  scanInv visited b -> scanInv (visited ++ rest) (fold_left mark rest b).
Proof.
  revert visited b. induction rest as [|p rest IH]; intros visited b Hinv.
  - now rewrite app_nil_r.
  - cbn [fold_left].
    replace (visited ++ p :: rest) with ((visited ++ [p]) ++ rest)
      by now rewrite <- app_assoc.
    apply IH. now apply mark_inv.
Qed.

Lemma findBounds_inv : scanInv cells (findBounds c img).
Proof.
  rewrite findBounds_cells. apply (fold_mark_inv cells []).
  split; [reflexivity|]. intros ? ? [].
Qed.

Lemma visible_cells (i j : Z) :
  visible i j <-> In (i, j) cells /\ lit i j = true.
Proof.
  unfold visible, lit. rewrite In_cells, Z.ltb_lt. unfold w. tauto.
Qed.

(** The scan finds content exactly when a visible pixel exists, and then
    its bounds are the tight bounding box. *)
Lemma findBounds_spec :
  (hasContent (findBounds c img) = true <-> exists i j, visible i j)
  /\ (hasContent (findBounds c img) = true ->
      boundingBox (minX (findBounds c img)) (minY (findBounds c img))
                  (maxX (findBounds c img)) (maxY (findBounds c img))).
Proof.
  pose proof findBounds_inv as Hinv. unfold scanInv in Hinv.
  destruct (hasContent (findBounds c img)) eqn:Hc.
  - destruct Hinv as (Hbox & (j0 & Hin0 & Hl0) & (j1 & Hin1 & Hl1)
                           & (i0 & Hin2 & Hl2) & (i1 & Hin3 & Hl3)).
    assert (Hbb : boundingBox (minX (findBounds c img)) (minY (findBounds c img))
                    (maxX (findBounds c img)) (maxY (findBounds c img))).
    { split; [|repeat split].
      - intros i j Hv. apply visible_cells in Hv. now apply Hbox.
      - exists j0. now apply visible_cells.
      - exists j1. now apply visible_cells.
      - exists i0. now apply visible_cells.
      - exists i1. now apply visible_cells. }
    split; [|intros _; exact Hbb].
    split; [|reflexivity]. intros _.
    destruct Hbb as (_ & (j & Hv) & _). eauto.
  - destruct Hinv as [_ Hdark]. split; [|discriminate].
    split; [discriminate|]. intros (i & j & Hv).
    apply visible_cells in Hv. destruct Hv as [Hin Hl].
    rewrite (Hdark _ _ Hin) in Hl. discriminate.
Qed.

End Scan.

(** *** Rectangles on the pixel grid *)

Lemma Qle_bool_inject_Z (a b : Z) :
  Qle_bool (inject_Z a) (inject_Z b) = true <-> a <= b.
Proof. rewrite Qle_bool_iff, <- Zle_Qle. reflexivity. Qed.

Lemma inRect_Z (rx ry rw rh x y : Z) :
  inRect rx ry (inject_Z rw) (inject_Z rh) x y = true
  <-> rx <= x < rx + rw /\ ry <= y < ry + rh.
Proof.
  unfold inRect.
  rewrite !andb_true_iff, !Z.leb_le, !Qle_bool_inject_Z. lia.
Qed.

Lemma inRect_spec (rx ry : Z) (rw rh : Q) (x y : Z) :
  inRect rx ry rw rh x y = true
  <-> rx <= x /\ ry <= y
      /\ (inject_Z (x + 1 - rx) <= rw)%Q /\ (inject_Z (y + 1 - ry) <= rh)%Q.
Proof.
  unfold inRect. rewrite !andb_true_iff, !Z.leb_le, !Qle_bool_iff. tauto.
Qed.


Section Output.

Variable measureText : string -> TextStyle -> TextMetrics.
Variable paint : list DrawCall -> Z -> Z -> Pixel.





Lemma renderTextOnCanvas_finish (st : Editor.State) (textToRender : string)
    (targetWidth : Q) (forExport : bool) :
  renderTextOnCanvas measureText paint st textToRender targetWidth forExport
  = finishRender (Editor.s_backgroundColor st)
      (fst (drawOffscreen measureText paint st textToRender targetWidth))
      (snd (drawOffscreen measureText paint st textToRender targetWidth))
      targetWidth forExport.
Proof.
  unfold renderTextOnCanvas. now destruct (drawOffscreen _ _ _ _ _).
Qed.

(** C7: in Export mode, when the scanned region of the offscreen canvas
    holds a pixel that is not fully transparent, the target canvas is the
    width of the tight bounding box plus 4 by its height plus 4, the pixels
    of the bounding box are copied to offset (2, 2) and every other pixel
    is transparent; when it holds none, the target canvas is 4 by 4 and
    fully transparent. *)
Theorem renderTextOnCanvas_export (st : Editor.State) (textToRender : string)
    (targetWidth : Q) :
  let offscreen :=
    fst (drawOffscreen measureText paint st textToRender targetWidth) in
  let currentY :=
    snd (drawOffscreen measureText paint st textToRender targetWidth) in
  let h := toInteger (currentY + 10) in
  let out :=
    renderTextOnCanvas measureText paint st textToRender targetWidth true in
  ((exists i j, visible offscreen h i j) ->
   exists x0 y0 x1 y1, boundingBox offscreen h x0 y0 x1 y1)
  /\ (forall x0 y0 x1 y1,
        boundingBox offscreen h x0 y0 x1 y1 ->
        canvas_width out = inject_Z ((x1 - x0 + 1) + 4)
        /\ canvas_height out = inject_Z ((y1 - y0 + 1) + 4)
        /\ (forall x y,
              2 <= x < 2 + (x1 - x0 + 1) -> 2 <= y < 2 + (y1 - y0 + 1) ->
              layers out x y
              = [Copied (canvasPixel offscreen (x0 + (x - 2)) (y0 + (y - 2)))])
        /\ (forall x y,
              ~ (2 <= x < 2 + (x1 - x0 + 1) /\ 2 <= y < 2 + (y1 - y0 + 1)) ->
              layers out x y = []))
  /\ ((forall i j, ~ visible offscreen h i j) ->
      canvas_width out = 4%Q /\ canvas_height out = 4%Q
      /\ forall x y, layers out x y = []).
Proof.
  intros offscreen currentY h out.
  assert (Hout : out = finishRender (Editor.s_backgroundColor st) offscreen
                                    currentY targetWidth true)
    by apply renderTextOnCanvas_finish.
  destruct (findBounds_spec offscreen h) as [Hcontent Hbox].
  fold h in Hout. unfold finishRender in Hout. fold h in Hout.
  set (b := findBounds offscreen (getImageData offscreen (cwidth offscreen) h))
    in *.
  split; [|split].
  - intros Hv. apply Hcontent in Hv. specialize (Hbox Hv). eauto.
  - intros x0 y0 x1 y1 Hbb.
    assert (Hc : hasContent b = true).
    { apply Hcontent. destruct Hbb as (_ & (j & Hv) & _). eauto. }
    destruct (boundingBox_unique offscreen h _ _ _ _ _ _ _ _ Hbb (Hbox Hc))
      as (-> & -> & -> & ->).
    rewrite Hc in Hout. cbn [negb] in Hout. rewrite Hout.
    cbn [canvas_width canvas_height layers drawImage clearRect resize].
    split; [reflexivity|]. split; [reflexivity|]. split.
    + intros x y Hx Hy.
      rewrite (proj2 (inRect_Z 2 2 _ _ x y)) by lia.
      now destruct (inRect 0 0 _ _ x y).
    + intros x y Hout'.
      destruct (inRect 2 2 _ _ x y) eqn:Hin.
      * apply inRect_Z in Hin. lia.
      * now destruct (inRect 0 0 _ _ x y).
  - intros Hnone.
    assert (Hc : hasContent b = false).
    { destruct (hasContent b); [|reflexivity].
      destruct (proj1 Hcontent eq_refl) as (i & j & Hv).
      now apply Hnone in Hv. }
    rewrite Hc in Hout. cbn [negb] in Hout. rewrite Hout.
    cbn [canvas_width canvas_height layers clearRect resize].
    split; [reflexivity|]. split; [reflexivity|].
    intros x y. now destruct (inRect 0 0 4 4 x y).
Qed.


End Output.

(** *** A one-character document *)

(** A browser that gives every character half its font size as advance and
    leaves one opaque pixel at (3, 2). *)
Definition sampleMeasure (ch : string) (sty : TextStyle) : TextMetrics :=
  {| tm_width := fontSize sty * (1 # 2);
     actualBoundingBoxAscent := fontSize sty * (8 # 10) |}.

Definition samplePaint (calls : list DrawCall) (x y : Z) : Pixel :=
  if (x =? 3) && (y =? 2) then mkPixel 0 0 0 255 else transparentPixel.

Definition sampleDocument : Editor.State := EditorFacts.sampleState [] None.

Definition sampleOffscreen : Canvas :=
  fst (drawOffscreen sampleMeasure samplePaint sampleDocument "A" 600).

Definition sampleScanHeight : Z :=
  toInteger
    (snd (drawOffscreen sampleMeasure samplePaint sampleDocument "A" 600) + 10).

Lemma sample_canvas :
  cwidth sampleOffscreen = 800 /\ cheight sampleOffscreen = 5000
  /\ sampleScanHeight = 31
  /\ forall i j, pixelAt sampleOffscreen i j = samplePaint [] i j.
Proof. repeat split. Qed.

Lemma sample_visible (i j : Z) :
  visible sampleOffscreen sampleScanHeight i j <-> i = 3 /\ j = 2.
Proof.
  destruct sample_canvas as (Hw & Hh & Hs & Hp).
  unfold visible, canvasPixel. rewrite Hw, Hh, Hs, Hp. unfold samplePaint.
  destruct (Z.leb_spec 0 i), (Z.ltb_spec i 800), (Z.leb_spec 0 j),
           (Z.ltb_spec j 5000), (Z.eqb_spec i 3), (Z.eqb_spec j 2);
    cbn; lia.
Qed.

Lemma renderTextOnCanvas_export_witness :
  canvas_width
    (renderTextOnCanvas sampleMeasure samplePaint sampleDocument "A" 600 true)
  = inject_Z ((3 - 3 + 1) + 4).
Proof.
  destruct (renderTextOnCanvas_export sampleMeasure samplePaint
              sampleDocument "A" 600) as (_ & Hbox & _).
  destruct (Hbox 3 2 3 2) as (Hw & _); [|exact Hw].
  split.
  - intros i j Hv. apply sample_visible in Hv. lia.
  - repeat split; eexists; apply (proj2 (sample_visible _ _));
      split; reflexivity.
Defined.


End RenderFacts.

(** * The editor around the layout core

    The handlers of the component that edit the text, the style ranges and
    the undo history.  A handler reads the state of the render it was
    created in and its setters take effect together, so each one is a
    function from the state before to the state after. *)

Module Component.

Record HistoryEntry : Type := mkHistoryEntry {
  h_text : string;
  cursorPosition : Z;
  timestamp : Z;
  h_styledRanges : list StyledRange
}.

Record TextStats : Type := mkTextStats {
  characters : Z;
  charactersWithSpaces : Z;
  words : Z;
  lines_ : Z;
  paragraphs : Z;
  selectedText : string;
  selectedCharacters : Z;
  selectedWords : Z;
  selectedLines : Z
}.

(** The state cells beside those of [Editor.State]. *)
Record Session : Type := mkSession {
  core : Editor.State;
  editingRangeId : option string;
  stats : TextStats;
  history : list HistoryEntry;
  historyIndex : Z;
  fileName : string
}.

Definition text_of (s : Session) : string := Editor.s_text (core s).
Definition ranges_of (s : Session) : list StyledRange :=
  Editor.styledRanges (core s).

(** The setters. *)
Definition setText (t : string) (st : Editor.State) : Editor.State :=
  {| Editor.s_text := t; Editor.s_fontSize := Editor.s_fontSize st;
     Editor.s_fontFamily := Editor.s_fontFamily st;
     Editor.s_textColor := Editor.s_textColor st;
     Editor.s_backgroundColor := Editor.s_backgroundColor st;
     Editor.s_lineHeight := Editor.s_lineHeight st;
     Editor.s_isBold := Editor.s_isBold st;
     Editor.s_isItalic := Editor.s_isItalic st;
     Editor.s_isUnderline := Editor.s_isUnderline st;
     Editor.s_textAlign := Editor.s_textAlign st;
     Editor.s_letterSpacing := Editor.s_letterSpacing st;
     Editor.s_wordSpacing := Editor.s_wordSpacing st;
     Editor.styledRanges := Editor.styledRanges st;
     Editor.selectedRange := Editor.selectedRange st |}.

Definition withCore (f : Editor.State -> Editor.State) (s : Session) : Session :=
  {| core := f (core s); editingRangeId := editingRangeId s; stats := stats s;
     history := history s; historyIndex := historyIndex s;
     fileName := fileName s |}.

Definition setEditingRangeId (i : option string) (s : Session) : Session :=
  {| core := core s; editingRangeId := i; stats := stats s;
     history := history s; historyIndex := historyIndex s;
     fileName := fileName s |}.

Definition setStats (v : TextStats) (s : Session) : Session :=
  {| core := core s; editingRangeId := editingRangeId s; stats := v;
     history := history s; historyIndex := historyIndex s;
     fileName := fileName s |}.

Definition setHistory (h : list HistoryEntry) (s : Session) : Session :=
  {| core := core s; editingRangeId := editingRangeId s; stats := stats s;
     history := h; historyIndex := historyIndex s; fileName := fileName s |}.

Definition setHistoryIndex (i : Z) (s : Session) : Session :=
  {| core := core s; editingRangeId := editingRangeId s; stats := stats s;
     history := history s; historyIndex := i; fileName := fileName s |}.

Definition setFileName (n : string) (s : Session) : Session :=
  {| core := core s; editingRangeId := editingRangeId s; stats := stats s;
     history := history s; historyIndex := historyIndex s; fileName := n |}.

(** [array[i]]: [None] stands for [undefined]. *)
Definition arrayGet {A : Type} (l : list A) (i : Z) : option A :=
  if i <? 0 then None else nth_error l (Z.to_nat i).

(** [array.shift()]: the array without its first element. *)
Definition shift {A : Type} (l : list A) : list A := tl l.

(** *** Style ranges *)

(** [Partial<TextStyle>]: [None] is a property that is not there.  A
    [textAlign] that is there may hold [undefined]. *)
Record PartialTextStyle : Type := mkPartialTextStyle {
  p_fontSize : option Q;
  p_fontFamily : option string;
  p_textColor : option string;
  p_isBold : option bool;
  p_isItalic : option bool;
  p_isUnderline : option bool;
  p_letterSpacing : option Q;
  p_wordSpacing : option Q;
  p_textAlign : option (option Alignment)
}.

Definition orKeep {A : Type} (new : option A) (old : A) : A :=
  match new with Some v => v | None => old end.

(** [{ ...base, ...newStyle }]. *)
Definition spreadStyle (base : TextStyle) (newStyle : PartialTextStyle)
    : TextStyle :=
  {| fontSize := orKeep (p_fontSize newStyle) (fontSize base);
     fontFamily := orKeep (p_fontFamily newStyle) (fontFamily base);
     textColor := orKeep (p_textColor newStyle) (textColor base);
     isBold := orKeep (p_isBold newStyle) (isBold base);
     isItalic := orKeep (p_isItalic newStyle) (isItalic base);
     isUnderline := orKeep (p_isUnderline newStyle) (isUnderline base);
     letterSpacing := orKeep (p_letterSpacing newStyle) (letterSpacing base);
     wordSpacing := orKeep (p_wordSpacing newStyle) (wordSpacing base);
     textAlign := orKeep (p_textAlign newStyle) (textAlign base) |}.

Definition removeStyledRange (rid : string) (s : Session) : Session :=
  setEditingRangeId None
    (withCore (Editor.setStyledRanges
                 (filter (fun range => negb (String.eqb (id range) rid))
                         (ranges_of s)))
              s).

Definition restyle (rid : string) (newStyle : PartialTextStyle)
    (range : StyledRange) : StyledRange :=
  if String.eqb (id range) rid then
    {| id := id range; range_start := range_start range;
       range_end := range_end range;
       style := spreadStyle (style range) newStyle; text := text range |}
  else range.

Definition updateStyledRange (rid : string) (newStyle : PartialTextStyle)
    (s : Session) : Session :=
  withCore (Editor.setStyledRanges (map (restyle rid newStyle) (ranges_of s))) s.

(** [currentEditingStyle]: the style the controls show. *)
Definition currentEditingStyle (s : Session) : TextStyle :=
  match editingRangeId s with
  | Some rid =>
      if String.eqb rid "" then Editor.getDefaultStyle (core s)
      else
        match array_find (fun r => String.eqb (id r) rid) (ranges_of s) with
        | Some r => style r
        | None => Editor.getDefaultStyle (core s)
        end
  | None => Editor.getDefaultStyle (core s)
  end.

Section Counting.

(** [calculateStats] counts with regular expressions; the four counts are
    taken as given functions of a string.  [selectedText] is passed
    through. *)
Variable countNonSpace : string -> Z.
Variable countWords : string -> Z.
Variable countLines : string -> Z.
Variable countParagraphs : string -> Z.

Definition calculateStats (content selected : string) : TextStats :=
  {| characters := countNonSpace content;
     charactersWithSpaces := Z.of_nat (String.length content);
     words := countWords content;
     lines_ := if String.eqb content "" then 1 else countLines content;
     paragraphs := countParagraphs content;
     selectedText := selected;
     selectedCharacters := countNonSpace selected;
     selectedWords := countWords selected;
     selectedLines := if String.eqb selected "" then 0 else countLines selected |}.

(** [handleTextSelection]; [selStart] and [selEnd] are what the text area
    reports. *)
Definition handleTextSelection (selStart selEnd : Z) (s : Session) : Session :=
  let selected := Editor.textSlice (text_of s) selStart selEnd in
  setStats (calculateStats (text_of s) selected)
    (withCore (Editor.setSelectedRange
                 (if negb (selStart =? selEnd) then Some (selStart, selEnd)
                  else None))
              s).

(** *** History *)

(** [handleTextChange]; [cursor] is [selectionStart || 0] of the text area
    and [now] is [Date.now()]. *)
Definition handleTextChange (now cursor : Z) (newText : string) (s : Session)
    : Session :=
  let newEntry :=
    {| h_text := newText; cursorPosition := cursor; timestamp := now;
       h_styledRanges := ranges_of s |} in
  let newHistory := slice (history s) 0 (historyIndex s + 1) ++ [newEntry] in
  let newHistory :=
    if 50 <? Z.of_nat (length newHistory) then shift newHistory
    else newHistory in
  setHistoryIndex (Z.of_nat (length newHistory) - 1)
    (setHistory newHistory (withCore (setText newText) s)).

(** Reading [entry.text] of an [undefined] entry throws: [None]. *)
Definition restoreEntry (newIndex : Z) (s : Session) : option Session :=
  match arrayGet (history s) newIndex with
  | Some entry =>
      Some (setHistoryIndex newIndex
              (withCore (fun st => Editor.setStyledRanges (h_styledRanges entry)
                                     (setText (h_text entry) st))
                        s))
  | None => None
  end.

Definition undo (s : Session) : option Session :=
  if 0 <? historyIndex s then restoreEntry (historyIndex s - 1) s
  else Some s.

Definition redo (s : Session) : option Session :=
  if historyIndex s <? Z.of_nat (length (history s)) - 1
  then restoreEntry (historyIndex s + 1) s
  else Some s.

(** The effect that gives an empty history its first entry. *)
Definition initHistory (now : Z) (s : Session) : Session :=
  if Z.of_nat (length (history s)) =? 0 then
    setHistoryIndex 0
      (setHistory [ {| h_text := ""; cursorPosition := 0; timestamp := now;
                       h_styledRanges := [] |} ] s)
  else s.

(** *** Clipboard and files *)

(** [cutText]: the state after, and what is written to the clipboard.
    [selStart] and [selEnd] are the selection of the text area. *)
Definition cutText (now selStart selEnd : Z) (s : Session)
    : Session * option string :=
  if String.eqb (selectedText (stats s)) "" then (s, None)
  else
    let newText :=
      (Editor.textSlice (text_of s) 0 selStart
       ++ Editor.textSlice (text_of s) selEnd
                           (Z.of_nat (String.length (text_of s))))%string in
    (handleTextChange now selStart newText s, Some (selectedText (stats s))).

(** [pasteText] with the clipboard holding [clipboardText]. *)
Definition pasteText (now selStart selEnd : Z) (clipboardText : string)
    (s : Session) : Session :=
  let newText :=
    (Editor.textSlice (text_of s) 0 selStart ++ clipboardText
     ++ Editor.textSlice (text_of s) selEnd
                         (Z.of_nat (String.length (text_of s))))%string in
  handleTextChange now selStart newText s.

(** [copyText]: what is written to the clipboard. *)
Definition copyText (s : Session) : string :=
  if String.eqb (selectedText (stats s)) "" then text_of s
  else selectedText (stats s).

(** The [onload] callback of [loadFile], for a file [name] holding
    [content]. *)
Definition loadFile (now cursor : Z) (name content : string) (s : Session)
    : Session :=
  withCore (Editor.setStyledRanges [])
    (setFileName name (handleTextChange now cursor content s)).

End Counting.

(** Style-range creation on a session. *)
Definition applyStyle (now : string) (s : Session) : Session :=
  withCore (Editor.applyStyleToSelection now) s.

End Component.

(** ** Style ranges under removal, restyling and creation *)

Module RangeFacts.
Import Editor Component.

Lemma array_find_snoc_miss {A : Type} (p : A -> bool) (l : list A) (x : A) :
  p x = false -> array_find p (l ++ [x]) = array_find p l.
Proof.
  intros Hx. induction l as [|y l IH]; cbn.
  - now rewrite Hx.
  - now rewrite IH.
Qed.

Lemma array_find_filter {A : Type} (p k : A -> bool) (l : list A) :
  (forall x, In x l -> p x = true -> k x = true) ->
  array_find p (filter k l) = array_find p l.
Proof.
  induction l as [|y l IH]; intros Hk; cbn; [reflexivity|].
  assert (IH' : array_find p (filter k l) = array_find p l).
  { apply IH. intros x Hx. apply Hk. now right. }
  destruct (p y) eqn:Hp.
  - rewrite (Hk y (or_introl eq_refl) Hp). cbn. now rewrite Hp.
  - destruct (k y); cbn; [now rewrite Hp|assumption].
Qed.

Lemma array_find_map {A : Type} (p : A -> bool) (f : A -> A) (l : list A) :
  (forall x, p (f x) = p x) ->
  array_find p (map f l) = option_map f (array_find p l).
Proof.
  intros Hp. induction l as [|y l IH]; cbn; [reflexivity|].
  rewrite Hp. now destruct (p y).
Qed.

(** Under the disjointness invariant a position lies in at most one range. *)
Lemma nonOverlapping_unique_match (l : list StyledRange) (position : Z)
    (r r' : StyledRange) :
  nonOverlapping l -> In r l -> In r' l ->
  inRange position r = true -> inRange position r' = true -> r = r'.
Proof.
  intros Hno. revert r r'.
  induction Hno as [|x l Hall _ IH]; intros r r' Hr Hr' Hp Hp'; [contradiction|].
  rewrite Forall_forall in Hall.
  apply EditorFacts.inRange_spec in Hp, Hp'.
  destruct Hr as [<-|Hr], Hr' as [<-|Hr'].
  - reflexivity.
  - specialize (Hall _ Hr'). unfold disjointRanges in Hall. lia.
  - specialize (Hall _ Hr). unfold disjointRanges in Hall. lia.
  - apply IH; try assumption; now apply EditorFacts.inRange_spec.
Qed.

Lemma map_nonOverlapping (f : StyledRange -> StyledRange)
    (l : list StyledRange) :
  (forall r, range_start (f r) = range_start r /\ range_end (f r) = range_end r) ->
  nonOverlapping l -> nonOverlapping (map f l).
Proof.
  intros Hf. unfold nonOverlapping.
  induction 1 as [|r l Hall _ IH]; cbn; constructor; [|assumption].
  rewrite Forall_forall in *. intros y Hy.
  apply in_map_iff in Hy. destruct Hy as (x & <- & Hx).
  specialize (Hall x Hx). unfold disjointRanges in *.
  destruct (Hf r) as [-> ->], (Hf x) as [-> ->]. exact Hall.
Qed.

Lemma restyle_interval (rid : string) (p : PartialTextStyle) (r : StyledRange) :
  id (restyle rid p r) = id r
  /\ range_start (restyle rid p r) = range_start r
  /\ range_end (restyle rid p r) = range_end r
  /\ text (restyle rid p r) = text r.
Proof. unfold restyle. destruct (String.eqb (id r) rid); now repeat split. Qed.

Lemma resolver_default (st : State) (l : list StyledRange) :
  getDefaultStyle (setStyledRanges l st) = getDefaultStyle st.
Proof. reflexivity. Qed.

(** [removeStyledRange] drops exactly the ranges with the given id and
    leaves the editing target empty; the ranges stay pairwise disjoint; a
    position none of whose ranges has that id resolves as before; with an id
    no range has, the ranges do not change. *)
Theorem removeStyledRange_spec (rid : string) (s : Session) :
  (forall r, In r (ranges_of (removeStyledRange rid s))
             <-> In r (ranges_of s) /\ id r <> rid)
  /\ editingRangeId (removeStyledRange rid s) = None
  /\ (nonOverlapping (ranges_of s) ->
      nonOverlapping (ranges_of (removeStyledRange rid s)))
  /\ (forall position,
        (forall r, In r (ranges_of s) -> inRange position r = true ->
                   id r <> rid) ->
        getStyleForPosition (core (removeStyledRange rid s)) position
        = getStyleForPosition (core s) position)
  /\ ((forall r, In r (ranges_of s) -> id r <> rid) ->
      ranges_of (removeStyledRange rid s) = ranges_of s).
Proof.
  assert (Hkeep : forall r, negb (String.eqb (id r) rid) = true <-> id r <> rid).
  { intros r. destruct (String.eqb_spec (id r) rid); cbn; split;
      congruence. }
  split; [|split; [|split; [|split]]].
  - intros r. unfold removeStyledRange, ranges_of. cbn.
    now rewrite filter_In, Hkeep.
  - reflexivity.
  - intros Hno. unfold removeStyledRange, ranges_of. cbn.
    now apply EditorFacts.filter_nonOverlapping.
  - intros position Hother. unfold getStyleForPosition, removeStyledRange. cbn.
    rewrite array_find_filter; [reflexivity|].
    intros r Hin Hp. apply Hkeep. now apply Hother.
  - intros Hnone. unfold removeStyledRange, ranges_of. cbn.
    apply filter_all. apply forallb_forall. intros r Hin.
    apply Hkeep. now apply Hnone.
Qed.

(** [updateStyledRange] keeps the number, order, ids, intervals and stored
    texts of the ranges, so they stay pairwise disjoint; a position resolves
    to the style it had, overlaid with the new properties when the range it
    resolves through has the given id; positions without a range keep the
    default style. *)
Theorem updateStyledRange_spec (rid : string) (newStyle : PartialTextStyle)
    (s : Session) :
  map id (ranges_of (updateStyledRange rid newStyle s)) = map id (ranges_of s)
  /\ map range_start (ranges_of (updateStyledRange rid newStyle s))
     = map range_start (ranges_of s)
  /\ map range_end (ranges_of (updateStyledRange rid newStyle s))
     = map range_end (ranges_of s)
  /\ map text (ranges_of (updateStyledRange rid newStyle s))
     = map text (ranges_of s)
  /\ (nonOverlapping (ranges_of s) ->
      nonOverlapping (ranges_of (updateStyledRange rid newStyle s)))
  /\ (forall position,
        getStyleForPosition (core (updateStyledRange rid newStyle s)) position
        = match array_find (inRange position) (ranges_of s) with
          | Some r =>
              if String.eqb (id r) rid then spreadStyle (style r) newStyle
              else style r
          | None => getDefaultStyle (core s)
          end).
Proof.
  unfold updateStyledRange, ranges_of. cbn.
  repeat split.
  - rewrite map_map. apply map_ext. intros r. apply restyle_interval.
  - rewrite map_map. apply map_ext. intros r. apply restyle_interval.
  - rewrite map_map. apply map_ext. intros r. apply restyle_interval.
  - rewrite map_map. apply map_ext. intros r. apply restyle_interval.
  - apply map_nonOverlapping. intros r.
    destruct (restyle_interval rid newStyle r) as (_ & H1 & H2 & _). now split.
  - intros position. unfold getStyleForPosition. cbn.
    rewrite array_find_map.
    + destruct (array_find (inRange position) (styledRanges (core s))) as [r|];
        cbn; [|reflexivity].
      unfold restyle. now destruct (String.eqb (id r) rid).
    + intros r. unfold inRange.
      destruct (restyle_interval rid newStyle r) as (_ & -> & -> & _).
      reflexivity.
Qed.

(** Restyling with the same properties twice is restyling once, and
    restyling with no property, or with an id no range has, changes
    nothing. *)
Theorem updateStyledRange_idempotent (rid : string)
    (newStyle : PartialTextStyle) (s : Session) :
  updateStyledRange rid newStyle (updateStyledRange rid newStyle s)
  = updateStyledRange rid newStyle s
  /\ ranges_of (updateStyledRange rid
                  (mkPartialTextStyle None None None None None None None None None)
                  s)
     = ranges_of s
  /\ ((forall r, In r (ranges_of s) -> id r <> rid) ->
      ranges_of (updateStyledRange rid newStyle s) = ranges_of s).
Proof.
  split; [|split].
  - unfold updateStyledRange, withCore, ranges_of, setStyledRanges. cbn.
    do 2 f_equal. rewrite map_map. apply map_ext. intros r. unfold restyle.
    destruct (String.eqb (id r) rid) eqn:Hid; cbn [id]; rewrite Hid; [|reflexivity].
    f_equal. unfold spreadStyle. cbn.
    destruct newStyle as [a b c d e f g h i].
    destruct a, b, c, d, e, f, g, h, i; reflexivity.
  - unfold updateStyledRange, ranges_of. cbn.
    rewrite <- (map_id (styledRanges (core s))) at 2.
    apply map_ext. intros r. unfold restyle.
    destruct (String.eqb (id r) rid); [|reflexivity].
    destruct r as [? ? ? [? ? ? ? ? ? ? ? ?] ?]. reflexivity.
  - intros Hnone. unfold updateStyledRange, ranges_of. cbn.
    rewrite <- (map_id (styledRanges (core s))) at 2.
    apply map_ext_in. intros r Hin. unfold restyle.
    destruct (String.eqb_spec (id r) rid) as [Heq|]; [|reflexivity].
    now apply Hnone in Heq.
Qed.

(** After a style is applied to the selection [(s, e)] with [s < e], every
    position of the selection resolves to the style that was current at the
    application.  A position outside the selection resolves as before when
    no range that holds it overlaps the selection; with pairwise disjoint
    ranges, a position outside the selection whose range overlaps the
    selection falls back to the default style. *)
Theorem applyStyleToSelection_resolver (now : string) (st : State) (s e : Z) :
  selectedRange st = Some (s, e) -> s < e ->
  (forall position, s <= position < e ->
     getStyleForPosition (applyStyleToSelection now st) position
     = getDefaultStyle st)
  /\ (forall position, ~ (s <= position < e) ->
        (forall r, In r (styledRanges st) -> inRange position r = true ->
                   ~ overlaps s e r) ->
        getStyleForPosition (applyStyleToSelection now st) position
        = getStyleForPosition st position)
  /\ (nonOverlapping (styledRanges st) ->
      forall position r, ~ (s <= position < e) ->
        In r (styledRanges st) -> inRange position r = true ->
        overlaps s e r ->
        getStyleForPosition (applyStyleToSelection now st) position
        = getDefaultStyle st).
Proof.
  intros Hsel Hlt.
  assert (Hranges := EditorFacts.applyStyleToSelection_ranges now st s e Hsel
                       ltac:(lia)).
  assert (Hdef : getDefaultStyle (applyStyleToSelection now st)
                 = getDefaultStyle st).
  { unfold applyStyleToSelection. rewrite Hsel.
    destruct (s =? e); reflexivity. }
  assert (Hnew : forall position,
             inRange position (EditorFacts.createdRange now st s e)
             = ((s <=? position) && (position <? e))%bool).
  { intros position. unfold inRange. cbn.
    now rewrite Z.geb_leb. }
  split; [|split].
  - intros position Hp. unfold getStyleForPosition. rewrite Hranges.
    rewrite (array_find_first _ _ [] (EditorFacts.createdRange now st s e)).
    + reflexivity.
    + intros r Hr. apply filter_In in Hr. destruct Hr as [_ Hk].
      destruct (inRange position r) eqn:Hin; [|reflexivity].
      apply EditorFacts.inRange_spec in Hin.
      apply EditorFacts.keepsRange_spec in Hk. unfold overlaps in Hk. lia.
    + rewrite Hnew. apply andb_true_iff. rewrite Z.leb_le, Z.ltb_lt. lia.
  - intros position Hout Hfree. unfold getStyleForPosition.
    rewrite Hranges, Hdef, array_find_snoc_miss.
    + rewrite array_find_filter; [reflexivity|].
      intros r Hr Hp. apply EditorFacts.keepsRange_spec. now apply Hfree.
    + rewrite Hnew. apply andb_false_iff. rewrite Z.leb_gt, Z.ltb_ge. lia.
  - intros Hno position r Hout Hr Hp Hov. unfold getStyleForPosition.
    rewrite Hranges, Hdef, array_find_snoc_miss.
    + rewrite array_find_none; [reflexivity|].
      intros r' Hr'. apply filter_In in Hr'. destruct Hr' as [Hin' Hk'].
      destruct (inRange position r') eqn:Hp'; [|reflexivity].
      rewrite (nonOverlapping_unique_match _ position r r' Hno Hr Hin' Hp Hp')
        in Hov.
      apply EditorFacts.keepsRange_spec in Hk'. contradiction.
    + rewrite Hnew. apply andb_false_iff. rewrite Z.leb_gt, Z.ltb_ge. lia.
Qed.

(** Removing the range that was just created, by its id, gives back the
    ranges the creation kept, and all the old ranges when none of them
    overlapped the selection, provided the id is new. *)
Theorem removeStyledRange_after_apply (now : string) (sn : Session) (s e : Z) :
  selectedRange (core sn) = Some (s, e) -> s <> e ->
  (forall r, In r (ranges_of sn) -> id r <> now) ->
  ranges_of (removeStyledRange now (applyStyle now sn))
  = filter (keepsRange s e) (ranges_of sn)
  /\ ((forall r, In r (ranges_of sn) -> ~ overlaps s e r) ->
      ranges_of (removeStyledRange now (applyStyle now sn)) = ranges_of sn).
Proof.
  intros Hsel Hne Hfresh.
  assert (Hfirst : ranges_of (removeStyledRange now (applyStyle now sn))
                   = filter (keepsRange s e) (ranges_of sn)).
  { unfold removeStyledRange, applyStyle, ranges_of. cbn.
    rewrite (EditorFacts.applyStyleToSelection_ranges now _ s e Hsel Hne).
    rewrite filter_app. cbn. rewrite String.eqb_refl. cbn.
    rewrite app_nil_r. apply filter_all. apply forallb_forall.
    intros r Hr. apply filter_In in Hr. destruct Hr as [Hr _].
    destruct (String.eqb_spec (id r) now) as [Heq|]; [|reflexivity].
    now apply Hfresh in Heq. }
  split; [exact Hfirst|].
  intros Hfree. rewrite Hfirst. apply filter_all. apply forallb_forall.
  intros r Hr. apply EditorFacts.keepsRange_spec. now apply Hfree.
Qed.

End RangeFacts.

(** ** Strings cut at text positions *)

Module StringFacts.

Lemma substring_0_0 (s : string) : substring 0 0 s = EmptyString.
Proof. now destruct s. Qed.

Lemma length_append (x y : string) :
  String.length (x ++ y) = (String.length x + String.length y)%nat.
Proof. induction x as [|c x IH]; cbn; [reflexivity|now rewrite IH]. Qed.

Lemma substring_prefix_append (x y : string) :
  substring 0 (String.length x) (x ++ y) = x.
Proof.
  induction x as [|c x IH]; cbn; [apply substring_0_0|now rewrite IH].
Qed.

Lemma substring_skip_append (x y : string) (m : nat) :
  substring (String.length x) m (x ++ y) = substring 0 m y.
Proof. induction x as [|c x IH]; cbn; [reflexivity|exact IH]. Qed.

Lemma substring_all (s : string) : substring 0 (String.length s) s = s.
Proof. induction s as [|c s IH]; cbn; [reflexivity|now rewrite IH]. Qed.

Lemma length_substring (s : string) (a n : nat) :
  (a + n <= String.length s)%nat -> String.length (substring a n s) = n.
Proof.
  revert a n. induction s as [|c s IH]; intros a n H; cbn in H.
  - assert (a = 0 /\ n = 0)%nat as [-> ->] by lia. reflexivity.
  - destruct a as [|a]; cbn.
    + destruct n as [|n]; cbn; [reflexivity|]. rewrite IH by lia. reflexivity.
    + apply IH. lia.
Qed.

Lemma substring_split (s : string) (a b : nat) :
  (a <= b <= String.length s)%nat ->
  substring a (String.length s - a) s
  = (substring a (b - a) s ++ substring b (String.length s - b) s)%string.
Proof.
  revert a b. induction s as [|c s IH]; intros a b H; cbn in H.
  - assert (a = 0 /\ b = 0)%nat as [-> ->] by lia. reflexivity.
  - destruct a as [|a].
    + destruct b as [|b].
      * cbn. reflexivity.
      * cbn [String.length Nat.sub substring append]. f_equal.
        specialize (IH 0%nat b ltac:(lia)).
        rewrite !Nat.sub_0_r in IH. exact IH.
    + destruct b as [|b]; [lia|].
      cbn [String.length Nat.sub substring]. apply IH. lia.
Qed.

(** A string is its three pieces around two positions. *)
Lemma substring_three (s : string) (a b : nat) :
  (a <= b <= String.length s)%nat ->
  s = (substring 0 a s ++ substring a (b - a) s
       ++ substring b (String.length s - b) s)%string.
Proof.
  intros H.
  rewrite <- (substring_split s a b H).
  pose proof (substring_split s 0 a ltac:(lia)) as H0.
  rewrite !Nat.sub_0_r, substring_all in H0. exact H0.
Qed.

Lemma textSlice_inside (s : string) (b e : Z) :
  0 <= b <= e -> e <= Z.of_nat (String.length s) ->
  Editor.textSlice s b e = substring (Z.to_nat b) (Z.to_nat e - Z.to_nat b) s.
Proof.
  intros Hb He. unfold Editor.textSlice.
  rewrite !relativeIndex_inside by lia. f_equal. lia.
Qed.

Lemma textSlice_length (s : string) (b e : Z) :
  0 <= b <= e -> e <= Z.of_nat (String.length s) ->
  Z.of_nat (String.length (Editor.textSlice s b e)) = e - b.
Proof.
  intros Hb He. rewrite textSlice_inside by assumption.
  rewrite length_substring by lia. lia.
Qed.

End StringFacts.

(** ** The undo history, the clipboard and files *)

Module HistoryFacts.
Import Editor Component.

(** The history is empty with index [-1], or the index points into a
    history of at most 50 entries. *)
Definition validHistory (s : Session) : Prop :=
  (history s = [] /\ historyIndex s = -1)
  \/ (0 <= historyIndex s < Z.of_nat (length (history s))
      /\ (length (history s) <= 50)%nat).

Definition currentEntry (s : Session) : option HistoryEntry :=
  arrayGet (history s) (historyIndex s).

(** The entry an edit records. *)
Definition editEntry (now cursor : Z) (newText : string) (s : Session)
    : HistoryEntry :=
  {| h_text := newText; cursorPosition := cursor; timestamp := now;
     h_styledRanges := ranges_of s |}.

Lemma validHistory_slice (s : Session) :
  validHistory s ->
  slice (history s) 0 (historyIndex s + 1)
  = firstn (Z.to_nat (historyIndex s + 1)) (history s)
  /\ (Z.to_nat (historyIndex s + 1) <= length (history s))%nat
  /\ -1 <= historyIndex s.
Proof.
  intros [[Hnil Hi]|[Hi Hlen]].
  - rewrite Hnil, Hi. repeat split; cbn; lia.
  - replace (historyIndex s + 1)
      with (Z.of_nat (Z.to_nat (historyIndex s + 1))) at 1 by lia.
    rewrite slice_prefix by lia. repeat split; lia.
Qed.

Lemma nth_error_snoc_last {A : Type} (l : list A) (x : A) :
  nth_error (l ++ [x]) (length l) = Some x.
Proof.
  rewrite nth_error_app2 by lia. now rewrite Nat.sub_diag.
Qed.

Lemma nth_error_tl {A : Type} (l : list A) (n : nat) :
  nth_error (tl l) n = nth_error l (S n).
Proof. destruct l; [now destruct n|reflexivity]. Qed.

Lemma length_tl {A : Type} (l : list A) : length (tl l) = (length l - 1)%nat.
Proof. destruct l; cbn; lia. Qed.

(** What an edit does to the history: the entries after the current one
    are dropped, the new entry is appended, and the oldest entry is dropped
    when that makes 51. *)
Lemma handleTextChange_history (now cursor : Z) (newText : string)
    (s : Session) :
  validHistory s ->
  let kept := firstn (Z.to_nat (historyIndex s + 1)) (history s) in
  history (handleTextChange now cursor newText s)
  = (if (length kept =? 50)%nat
     then tl kept ++ [editEntry now cursor newText s]
     else kept ++ [editEntry now cursor newText s])
  /\ historyIndex (handleTextChange now cursor newText s)
     = Z.of_nat (length (history (handleTextChange now cursor newText s))) - 1
  /\ (1 <= length (history (handleTextChange now cursor newText s)) <= 50)%nat.
Proof.
  intros Hv kept.
  destruct (validHistory_slice s Hv) as (Hslice & Hle & Hidx).
  assert (Hkept : (length kept <= 50)%nat).
  { unfold kept. rewrite length_firstn.
    destruct Hv as [[Hnil _]|[_ Hlen]]; [rewrite Hnil; cbn|]; lia. }
  unfold handleTextChange.
  cbn [history historyIndex setHistoryIndex setHistory withCore].
  rewrite Hslice. fold kept. fold (editEntry now cursor newText s).
  clearbody kept. rewrite length_app. cbn [length].
  destruct (Nat.eqb_spec (length kept) 50) as [Hfull|Hroom].
  - replace (50 <? Z.of_nat (length kept + 1)) with true
      by (symmetry; apply Z.ltb_lt; lia).
    unfold shift.
    assert (Htl : tl (kept ++ [editEntry now cursor newText s])
                  = tl kept ++ [editEntry now cursor newText s])
      by (destruct kept; [discriminate|reflexivity]).
    rewrite Htl, !length_app, length_tl. cbn [length].
    split; [reflexivity|]. split; lia.
  - replace (50 <? Z.of_nat (length kept + 1)) with false
      by (symmetry; apply Z.ltb_ge; lia).
    rewrite !length_app. cbn [length].
    split; [reflexivity|]. split; lia.
Qed.

Lemma handleTextChange_valid (now cursor : Z) (newText : string) (s : Session) :
  validHistory s -> validHistory (handleTextChange now cursor newText s).
Proof.
  intros Hv.
  destruct (handleTextChange_history now cursor newText s Hv) as (_ & Hi & Hl).
  right. lia.
Qed.

Lemma restoreEntry_some (i : Z) (s : Session) :
  0 <= i < Z.of_nat (length (history s)) ->
  exists e,
    arrayGet (history s) i = Some e
    /\ restoreEntry i s
       = Some (setHistoryIndex i
                 (withCore (fun st => setStyledRanges (h_styledRanges e)
                                        (setText (h_text e) st)) s)).
Proof.
  intros Hi. unfold restoreEntry, arrayGet.
  destruct (Z.ltb_spec i 0); [lia|].
  destruct (nth_error (history s) (Z.to_nat i)) as [e|] eqn:He.
  - eauto.
  - apply nth_error_None in He. lia.
Qed.

(** The history stays well formed under every handler that touches it,
    and neither undo nor redo ever reads an entry that is not there or
    changes the list of entries. *)
Theorem history_stays_valid (s : Session) :
  validHistory s ->
  (forall now, validHistory (initHistory now s))
  /\ (forall now cursor newText,
        validHistory (handleTextChange now cursor newText s))
  /\ (exists s', undo s = Some s' /\ validHistory s'
                 /\ history s' = history s)
  /\ (exists s', redo s = Some s' /\ validHistory s'
                 /\ history s' = history s)
  /\ (forall now selStart selEnd,
        validHistory (fst (cutText now selStart selEnd s)))
  /\ (forall now selStart selEnd clip,
        validHistory (pasteText now selStart selEnd clip s))
  /\ (forall now cursor name content,
        validHistory (loadFile now cursor name content s)).
Proof.
  intros Hv.
  split; [|split; [|split; [|split; [|split; [|split]]]]].
  - intros now. unfold initHistory.
    destruct (Z.eqb_spec (Z.of_nat (length (history s))) 0); [|assumption].
    right. cbn. lia.
  - intros. now apply handleTextChange_valid.
  - unfold undo. destruct (Z.ltb_spec 0 (historyIndex s)) as [Hpos|Hnot].
    + destruct Hv as [[_ Hi]|[Hi Hlen]]; [lia|].
      destruct (restoreEntry_some (historyIndex s - 1) s ltac:(lia))
        as (e & _ & ->).
      eexists. split; [reflexivity|]. split; [|reflexivity].
      right. cbn. lia.
    + eauto.
  - unfold redo.
    destruct (Z.ltb_spec (historyIndex s) (Z.of_nat (length (history s)) - 1))
      as [Hlt|Hnot].
    + assert (Hi : -1 <= historyIndex s /\ (length (history s) <= 50)%nat).
      { destruct Hv as [[Hnil Hi]|[Hi Hlen]]; [rewrite Hnil; cbn|]; lia. }
      destruct (restoreEntry_some (historyIndex s + 1) s ltac:(lia))
        as (e & _ & ->).
      eexists. split; [reflexivity|]. split; [|reflexivity].
      right. cbn. lia.
    + eauto.
  - intros now selStart selEnd. unfold cutText.
    destruct (String.eqb _ _); cbn [fst]; [assumption|].
    now apply handleTextChange_valid.
  - intros. unfold pasteText. now apply handleTextChange_valid.
  - intros now cursor name content.
    pose proof (handleTextChange_valid now cursor content s Hv) as Hv'.
    exact Hv'.
Qed.

Lemma handleTextChange_current (now cursor : Z) (newText : string)
    (s : Session) :
  validHistory s ->
  currentEntry (handleTextChange now cursor newText s)
  = Some (editEntry now cursor newText s).
Proof.
  intros Hv.
  destruct (handleTextChange_history now cursor newText s Hv) as (Hh & Hi & Hl).
  unfold currentEntry, arrayGet. rewrite Hi.
  destruct (Z.ltb_spec (Z.of_nat (length (history (handleTextChange now cursor
                                                     newText s))) - 1) 0);
    [lia|].
  rewrite Hh.
  set (kept := firstn (Z.to_nat (historyIndex s + 1)) (history s)) in *.
  destruct (length kept =? 50)%nat.
  - rewrite length_app. cbn [length].
    replace (Z.to_nat (Z.of_nat (length (tl kept) + 1) - 1))
      with (length (tl kept)) by lia.
    apply nth_error_snoc_last.
  - rewrite length_app. cbn [length].
    replace (Z.to_nat (Z.of_nat (length kept + 1) - 1))
      with (length kept) by lia.
    apply nth_error_snoc_last.
Qed.

(** After an edit the new text is current, the ranges are untouched, the
    history ends with the entry of the edit, which carries the ranges as
    they were, and there is nothing to redo. *)
Theorem handleTextChange_spec (now cursor : Z) (newText : string)
    (s : Session) :
  validHistory s ->
  text_of (handleTextChange now cursor newText s) = newText
  /\ ranges_of (handleTextChange now cursor newText s) = ranges_of s
  /\ currentEntry (handleTextChange now cursor newText s)
     = Some {| h_text := newText; cursorPosition := cursor; timestamp := now;
               h_styledRanges := ranges_of s |}
  /\ historyIndex (handleTextChange now cursor newText s)
     = Z.of_nat (length (history (handleTextChange now cursor newText s))) - 1
  /\ (1 <= length (history (handleTextChange now cursor newText s)) <= 50)%nat
  /\ redo (handleTextChange now cursor newText s)
     = Some (handleTextChange now cursor newText s).
Proof.
  intros Hv.
  destruct (handleTextChange_history now cursor newText s Hv) as (_ & Hi & Hl).
  split; [reflexivity|]. split; [reflexivity|].
  split; [now apply handleTextChange_current|].
  split; [exact Hi|]. split; [exact Hl|].
  unfold redo. rewrite Hi.
  now rewrite Z.ltb_irrefl.
Qed.

(** The entry that was current before an edit is the one before the new
    entry afterwards, also when the oldest entry was dropped. *)
Lemma handleTextChange_previous (now cursor : Z) (newText : string)
    (s : Session) :
  validHistory s -> 0 <= historyIndex s ->
  0 < historyIndex (handleTextChange now cursor newText s)
  /\ arrayGet (history (handleTextChange now cursor newText s))
              (historyIndex (handleTextChange now cursor newText s) - 1)
     = currentEntry s.
Proof.
  intros Hv Hpos.
  destruct (handleTextChange_history now cursor newText s Hv) as (Hh & Hi & Hl).
  assert (Hin : 0 <= historyIndex s < Z.of_nat (length (history s))
                /\ (length (history s) <= 50)%nat).
  { destruct Hv as [[_ H]|H]; [lia|exact H]. }
  set (kept := firstn (Z.to_nat (historyIndex s + 1)) (history s)) in *.
  assert (Hklen : length kept = Z.to_nat (historyIndex s + 1)).
  { unfold kept. rewrite length_firstn. lia. }
  assert (Hcur : currentEntry s = nth_error kept (Z.to_nat (historyIndex s))).
  { unfold currentEntry, arrayGet, kept.
    destruct (Z.ltb_spec (historyIndex s) 0); [lia|].
    rewrite nth_error_firstn.
    destruct (Nat.ltb_spec (Z.to_nat (historyIndex s))
                           (Z.to_nat (historyIndex s + 1))); [reflexivity|lia]. }
  rewrite Hi, Hh, Hcur. unfold arrayGet.
  destruct (length kept =? 50)%nat eqn:Hfull.
  - apply Nat.eqb_eq in Hfull.
    rewrite length_app, length_tl. cbn [length]. split; [lia|].
    destruct (Z.ltb_spec (Z.of_nat (length kept - 1 + 1) - 1 - 1) 0); [lia|].
    rewrite nth_error_app1 by (rewrite length_tl; lia).
    rewrite nth_error_tl. f_equal. lia.
  - rewrite length_app. cbn [length]. split; [lia|].
    destruct (Z.ltb_spec (Z.of_nat (length kept + 1) - 1 - 1) 0); [lia|].
    rewrite nth_error_app1 by lia. f_equal. lia.
Qed.

(** Undo right after an edit brings back the text and the ranges of the
    entry that was current before the edit, and redo then brings back the
    edited text with the ranges as they were at the edit. *)
Theorem undo_after_edit (now cursor : Z) (newText : string) (s : Session) :
  validHistory s -> 0 <= historyIndex s ->
  exists before s1 s2,
    currentEntry s = Some before
    /\ undo (handleTextChange now cursor newText s) = Some s1
    /\ text_of s1 = h_text before
    /\ ranges_of s1 = h_styledRanges before
    /\ redo s1 = Some s2
    /\ text_of s2 = newText
    /\ ranges_of s2 = ranges_of s
    /\ historyIndex s2 = historyIndex (handleTextChange now cursor newText s)
    /\ history s2 = history (handleTextChange now cursor newText s).
Proof.
  intros Hv Hpos.
  destruct (handleTextChange_previous now cursor newText s Hv Hpos)
    as (Hidx & Hprev).
  destruct (handleTextChange_history now cursor newText s Hv) as (_ & Hi & Hl).
  pose proof (handleTextChange_current now cursor newText s Hv) as Hnew.
  set (s' := handleTextChange now cursor newText s) in *.
  destruct (restoreEntry_some (historyIndex s' - 1) s' ltac:(lia))
    as (before & Hget & Hundo).
  exists before. eexists. eexists.
  split; [now rewrite <- Hprev|].
  split.
  { unfold undo. destruct (Z.ltb_spec 0 (historyIndex s')); [|lia].
    exact Hundo. }
  split; [reflexivity|]. split; [reflexivity|].
  unfold redo. cbn [historyIndex history setHistoryIndex withCore].
  destruct (Z.ltb_spec (historyIndex s' - 1)
                       (Z.of_nat (length (history s')) - 1)); [|lia].
  unfold restoreEntry. cbn [historyIndex history setHistoryIndex withCore].
  replace (historyIndex s' - 1 + 1) with (historyIndex s') by lia.
  unfold currentEntry in Hnew. rewrite Hnew.
  split; [reflexivity|]. now repeat split.
Qed.

(** Undo followed by redo comes back to the same index and to the text and
    ranges recorded there; the history is not changed.  At the first entry,
    or with an empty history, undo does nothing; at the last entry redo does
    nothing. *)
Theorem undo_then_redo (s : Session) :
  validHistory s ->
  (0 < historyIndex s ->
   exists s1 s2 e,
     undo s = Some s1 /\ redo s1 = Some s2
     /\ currentEntry s = Some e
     /\ historyIndex s1 = historyIndex s - 1
     /\ text_of s2 = h_text e /\ ranges_of s2 = h_styledRanges e
     /\ historyIndex s2 = historyIndex s /\ history s2 = history s)
  /\ (historyIndex s <= 0 -> undo s = Some s)
  /\ (Z.of_nat (length (history s)) - 1 <= historyIndex s -> redo s = Some s).
Proof.
  intros Hv. split; [|split].
  - intros Hpos.
    destruct Hv as [[_ Hi]|[Hi Hlen]]; [lia|].
    destruct (restoreEntry_some (historyIndex s - 1) s ltac:(lia))
      as (e1 & _ & Hundo).
    destruct (restoreEntry_some (historyIndex s) s ltac:(lia))
      as (e & Hget & _).
    eexists. eexists. exists e.
    split.
    { unfold undo. destruct (Z.ltb_spec 0 (historyIndex s)); [|lia].
      exact Hundo. }
    split.
    { unfold redo. cbn [historyIndex history setHistoryIndex withCore].
      destruct (Z.ltb_spec (historyIndex s - 1)
                           (Z.of_nat (length (history s)) - 1)); [|lia].
      unfold restoreEntry. cbn [historyIndex history setHistoryIndex withCore].
      replace (historyIndex s - 1 + 1) with (historyIndex s) by lia.
      rewrite Hget. reflexivity. }
    split; [exact Hget|]. cbn. repeat split; lia.
  - intros Hle. unfold undo.
    destruct (Z.ltb_spec 0 (historyIndex s)); [lia|reflexivity].
  - intros Hle. unfold redo.
    destruct (Z.ltb_spec (historyIndex s) (Z.of_nat (length (history s)) - 1));
      [lia|reflexivity].
Qed.

(** Loading a file replaces the text and the file name and clears the
    ranges, so every position resolves to the default style; the entry it
    records carries the ranges from before the load, so undo followed by
    redo shows the loaded text with those ranges again. *)
Theorem loadFile_spec (now cursor : Z) (name content : string) (s : Session) :
  validHistory s ->
  let s' := loadFile now cursor name content s in
  text_of s' = content /\ fileName s' = name /\ ranges_of s' = []
  /\ (forall position,
        getStyleForPosition (core s') position = getDefaultStyle (core s))
  /\ currentEntry s'
     = Some {| h_text := content; cursorPosition := cursor; timestamp := now;
               h_styledRanges := ranges_of s |}
  /\ (0 <= historyIndex s ->
      exists s1 s2, undo s' = Some s1 /\ redo s1 = Some s2
                    /\ text_of s2 = content /\ ranges_of s2 = ranges_of s).
Proof.
  intros Hv s'.
  pose proof (handleTextChange_current now cursor content s Hv) as Hnew.
  split; [reflexivity|]. split; [reflexivity|]. split; [reflexivity|].
  split; [reflexivity|]. split; [exact Hnew|].
  intros Hpos.
  destruct (handleTextChange_previous now cursor content s Hv Hpos)
    as (Hidx & _).
  destruct (handleTextChange_history now cursor content s Hv) as (_ & Hi & Hl).
  assert (Hh : history s' = history (handleTextChange now cursor content s))
    by reflexivity.
  assert (Hx : historyIndex s'
               = historyIndex (handleTextChange now cursor content s))
    by reflexivity.
  destruct (restoreEntry_some (historyIndex s' - 1) s'
              ltac:(rewrite Hx, Hh; lia)) as (before & Hget & Hundo).
  eexists. eexists. split.
  { unfold undo. rewrite Hx.
    destruct (Z.ltb_spec 0 (historyIndex (handleTextChange now cursor content s)));
      [|lia].
    rewrite <- Hx. exact Hundo. }
  unfold redo. cbn [historyIndex history setHistoryIndex withCore].
  rewrite Hx, Hh.
  destruct (Z.ltb_spec
              (historyIndex (handleTextChange now cursor content s) - 1)
              (Z.of_nat (length (history (handleTextChange now cursor content s)))
               - 1)); [|lia].
  unfold restoreEntry. cbn [historyIndex history setHistoryIndex withCore].
  rewrite Hh.
  replace (historyIndex (handleTextChange now cursor content s) - 1 + 1)
    with (historyIndex (handleTextChange now cursor content s)) by lia.
  unfold currentEntry in Hnew. rewrite Hnew.
  split; [reflexivity|]. now split.
Qed.

End HistoryFacts.

(** ** Selection, cut and paste *)

Module ClipboardFacts.
Import Editor Component StringFacts.

Section Counting.

Variable countNonSpace : string -> Z.
Variable countWords : string -> Z.
Variable countLines : string -> Z.
Variable countParagraphs : string -> Z.

Abbreviation handleTextSelection :=
  (handleTextSelection countNonSpace countWords countLines countParagraphs).

(** A selection that the text area reports inside the text, with
    [selStart <= selEnd], is recorded only when it is not empty, and then the
    range created from it is well formed: [0 <= start < end <= length], with
    the selected characters as its stored text. *)
Theorem handleTextSelection_then_apply (now : string) (selStart selEnd : Z)
    (s : Session) :
  0 <= selStart <= selEnd ->
  selEnd <= Z.of_nat (String.length (text_of s)) ->
  let s1 := handleTextSelection selStart selEnd s in
  selectedText (stats s1) = textSlice (text_of s) selStart selEnd
  /\ Z.of_nat (String.length (selectedText (stats s1))) = selEnd - selStart
  /\ (selStart = selEnd ->
      selectedRange (core s1) = None /\ applyStyle now s1 = s1)
  /\ (selStart < selEnd ->
      exists kept r,
        ranges_of (applyStyle now s1) = kept ++ [r]
        /\ id r = now
        /\ 0 <= range_start r < range_end r
        /\ range_end r <= Z.of_nat (String.length (text_of s))
        /\ style r = getDefaultStyle (core s)
        /\ text r = textSlice (text_of s) (range_start r) (range_end r)
        /\ Z.of_nat (String.length (text r)) = range_end r - range_start r
        /\ selectedRange (core (applyStyle now s1)) = None).
Proof.
  intros Hsel Hend s1.
  split; [reflexivity|].
  split; [now apply textSlice_length|].
  split.
  - intros ->. unfold s1, Component.handleTextSelection, applyStyle.
    cbn. rewrite Z.eqb_refl. cbn. split; reflexivity.
  - intros Hlt.
    assert (Hrange : selectedRange (core s1) = Some (selStart, selEnd)).
    { unfold s1, Component.handleTextSelection. cbn.
      destruct (Z.eqb_spec selStart selEnd); [lia|reflexivity]. }
    exists (filter (keepsRange selStart selEnd) (ranges_of s)).
    exists (EditorFacts.createdRange now (core s1) selStart selEnd).
    split.
    { unfold applyStyle, ranges_of. cbn [core withCore].
      now rewrite (EditorFacts.applyStyleToSelection_ranges now (core s1)
                     selStart selEnd Hrange) by lia. }
    cbn [id range_start range_end style text EditorFacts.createdRange].
    split; [reflexivity|]. split; [lia|]. split; [lia|].
    split; [reflexivity|]. split; [reflexivity|].
    split; [now apply textSlice_length|].
    unfold applyStyle, applyStyleToSelection. cbn [core withCore].
    rewrite Hrange. destruct (Z.eqb_spec selStart selEnd); [lia|reflexivity].
Qed.

(** Cutting a selection that is not empty writes the selected characters to
    the clipboard and leaves the text without them; pasting them back at the
    place of the cut gives the text before the cut.  The ranges are not
    touched by either step. *)
Theorem cut_then_paste (now now' selStart selEnd : Z) (s : Session) :
  0 <= selStart < selEnd ->
  selEnd <= Z.of_nat (String.length (text_of s)) ->
  let s1 := handleTextSelection selStart selEnd s in
  let s2 := fst (cutText now selStart selEnd s1) in
  let clip := textSlice (text_of s) selStart selEnd in
  snd (cutText now selStart selEnd s1) = Some clip
  /\ text_of s2
     = (textSlice (text_of s) 0 selStart
        ++ textSlice (text_of s) selEnd
                     (Z.of_nat (String.length (text_of s))))%string
  /\ Z.of_nat (String.length (text_of s2))
     = Z.of_nat (String.length (text_of s)) - (selEnd - selStart)
  /\ text_of (pasteText now' selStart selStart clip s2) = text_of s
  /\ ranges_of (pasteText now' selStart selStart clip s2) = ranges_of s.
Proof.
  intros Hsel Hend s1 s2 clip.
  set (t := text_of s) in *.
  set (A := Z.to_nat selStart). set (B := Z.to_nat selEnd).
  set (L := String.length t) in *.
  assert (HP : textSlice t 0 selStart = substring 0 A t).
  { rewrite textSlice_inside by lia. f_equal. unfold A. cbn. lia. }
  assert (HS : textSlice t selEnd (Z.of_nat L) = substring B (L - B) t).
  { rewrite textSlice_inside by lia. unfold B. now rewrite Nat2Z.id. }
  assert (HM : clip = substring A (B - A) t).
  { unfold clip. now rewrite textSlice_inside by lia. }
  assert (HlenP : String.length (substring 0 A t) = A)
    by (apply length_substring; unfold A, L in *; lia).
  assert (HlenS : String.length (substring B (L - B) t) = (L - B)%nat)
    by (apply length_substring; unfold B, L in *; lia).
  assert (Hnonempty : String.eqb (selectedText (stats s1)) "" = false).
  { apply String.eqb_neq. intros Hempty.
    assert (Hlen : String.length (selectedText (stats s1)) = (B - A)%nat).
    { change (selectedText (stats s1)) with clip. rewrite HM.
      apply length_substring. unfold A, B, L in *. lia. }
    rewrite Hempty in Hlen. cbn in Hlen. unfold A, B in Hlen. lia. }
  assert (Hcut : cutText now selStart selEnd s1
                 = (handleTextChange now selStart
                      (substring 0 A t ++ substring B (L - B) t)%string s1,
                    Some clip)).
  { unfold cutText. rewrite Hnonempty.
    change (text_of s1) with t. fold L. now rewrite HP, HS. }
  unfold s2. rewrite Hcut. cbn [fst snd].
  split; [reflexivity|]. split.
  { rewrite HP, HS. reflexivity. }
  split.
  { change (text_of (handleTextChange now selStart
                       (substring 0 A t ++ substring B (L - B) t)%string s1))
      with (substring 0 A t ++ substring B (L - B) t)%string.
    rewrite length_append, HlenP, HlenS. unfold A, B, L in *. lia. }
  split; [|reflexivity].
  unfold pasteText.
  change (text_of (handleTextChange now selStart
                     (substring 0 A t ++ substring B (L - B) t)%string s1))
    with (substring 0 A t ++ substring B (L - B) t)%string.
  set (t' := (substring 0 A t ++ substring B (L - B) t)%string).
  assert (Hlen' : String.length t' = (A + (L - B))%nat).
  { unfold t'. now rewrite length_append, HlenP, HlenS. }
  change (text_of (handleTextChange now' selStart
                     (textSlice t' 0 selStart ++ clip
                      ++ textSlice t' selStart (Z.of_nat (String.length t')))%string
                     (handleTextChange now selStart t' s1)))
    with (textSlice t' 0 selStart ++ clip
          ++ textSlice t' selStart (Z.of_nat (String.length t')))%string.
  rewrite (textSlice_inside t' 0 selStart) by (unfold A, B, L in *; lia).
  rewrite (textSlice_inside t' selStart) by (unfold A, B, L in *; lia).
  change (Z.to_nat 0) with 0%nat. rewrite Nat.sub_0_r. fold A.
  rewrite Nat2Z.id, Hlen'.
  replace (A + (L - B) - A)%nat with (L - B)%nat by lia.
  assert (Hpre : substring 0 A t' = substring 0 A t).
  { unfold t'. remember (substring 0 A t) as P eqn:EP.
    rewrite <- HlenP. apply substring_prefix_append. }
  assert (Hpost : substring A (L - B) t' = substring B (L - B) t).
  { unfold t'. remember (substring 0 A t) as P eqn:EP.
    remember (substring B (L - B) t) as S eqn:ES.
    rewrite <- HlenP, substring_skip_append, <- HlenS. apply substring_all. }
  rewrite Hpre, Hpost, HM. symmetry. apply substring_three.
  unfold A, B, L in *. lia.
Qed.

End Counting.

End ClipboardFacts.

(** ** More on the lines the breaker returns *)

Module LineFacts.
Import Wrap.

Lemma Math_max_l (a b : Q) : (a <= Math_max a b)%Q.
Proof.
  unfold Math_max. destruct (Qle_bool b a) eqn:H; [apply Qle_refl|].
  apply Qlt_le_weak, Qnot_le_lt. intros Hle.
  apply Qle_bool_iff in Hle. congruence.
Qed.

Lemma Math_max_r (a b : Q) : (b <= Math_max a b)%Q.
Proof.
  unfold Math_max. destruct (Qle_bool b a) eqn:H; [|apply Qle_refl].
  now apply Qle_bool_iff.
Qed.

Lemma maxLineHeight_bounds (lineHeight : Q) (l : list LineSegment) :
  (0 <= maxLineHeight lineHeight l)%Q
  /\ forall s, In s l ->
       (fontSize (seg_style s) * lineHeight <= maxLineHeight lineHeight l)%Q.
Proof.
  induction l as [|x l [IH0 IH]] using rev_ind.
  - split; [apply Qle_refl|intros s []].
  - rewrite WrapFacts.maxLineHeight_snoc. split.
    + eapply Qle_trans; [exact IH0|apply Math_max_l].
    + intros s Hs. apply in_app_or in Hs. destruct Hs as [Hs|[<-|[]]].
      * eapply Qle_trans; [exact (IH s Hs)|apply Math_max_l].
      * apply Math_max_r.
Qed.

Lemma length_concat_nonempty {A : Type} (ls : list (list A)) :
  Forall (fun l => l <> []) ls -> (length ls <= length (concat ls))%nat.
Proof.
  induction 1 as [|l ls Hl _ IH]; cbn; [lia|].
  rewrite length_app. destruct l; [contradiction|cbn; lia].
Qed.

Section Breaker.

Variable lineHeight : Q.
Variable docAlign : Alignment.
Variable targetWidth : Q.

Abbreviation wrap := (wrapStyledSegments lineHeight docAlign targetWidth).

(** Every line returned holds at least one segment; its stored width,
    height and space count are those of its segments; the height is not
    negative and covers every segment of the line.  There are never more
    lines than segments that are not newlines, and a text of newlines only,
    or the empty text, gives no line. *)
Theorem wrapStyledSegments_lines (segs : list LineSegment) :
  (forall line, In line (wrap segs) ->
     segments line <> []
     /\ metricsWidth line = sumWidth (segments line)
     /\ maxHeight line = maxLineHeight lineHeight (segments line)
     /\ spaces line = countSpaces (segments line)
     /\ (0 <= maxHeight line)%Q
     /\ (forall s, In s (segments line) ->
           (fontSize (seg_style s) * lineHeight <= maxHeight line)%Q))
  /\ (length (wrap segs)
      <= length (filter (fun s => negb (isNewline s)) segs))%nat
  /\ (forallb isNewline segs = true -> wrap segs = []).
Proof.
  pose proof (WrapFacts.wrapStyledSegments_consistent lineHeight docAlign
                targetWidth segs) as Hcons.
  pose proof (WrapFacts.wrapStyledSegments_placed lineHeight docAlign
                targetWidth segs) as Hcat.
  assert (Hne : Forall (fun l => l <> []) (map segments (wrap segs))).
  { apply Forall_map. eapply Forall_impl; [|exact Hcons].
    intros l Hl. apply Hl. }
  assert (Hlen : (length (wrap segs)
                  <= length (filter (fun s => negb (isNewline s)) segs))%nat).
  { rewrite <- (length_map segments).
    change (fun s => negb (isNewline s)) with WrapFacts.notNewline.
    rewrite <- Hcat. now apply length_concat_nonempty. }
  split; [|split].
  - intros line Hin. rewrite Forall_forall in Hcons.
    destruct (Hcons line Hin) as (H1 & H2 & H3 & H4).
    destruct (maxLineHeight_bounds lineHeight (segments line)) as [H5 H6].
    rewrite <- H3 in H5, H6. now repeat split.
  - exact Hlen.
  - intros Hall.
    assert (Hnone : filter (fun s => negb (isNewline s)) segs = []).
    { clear - Hall. induction segs as [|s segs IH]; [reflexivity|].
      cbn in *. apply andb_true_iff in Hall. destruct Hall as [Hs Hrest].
      rewrite Hs. cbn. now apply IH. }
    rewrite Hnone in Hlen. destruct (wrap segs); [reflexivity|cbn in Hlen; lia].
Qed.

(** *** Paragraphs are wrapped one by one *)

Definition prependLines (L : list LineData) (a : Acc) : Acc :=
  {| lines := L ++ lines a;
     currentLineSegments := currentLineSegments a;
     currentLineMetricsWidth := currentLineMetricsWidth a;
     currentLineMaxHeight := currentLineMaxHeight a;
     currentLineSpaces := currentLineSpaces a;
     currentLineEffectiveAlignment := currentLineEffectiveAlignment a |}.

Lemma processLine_prepend (L : list LineData) (a : Acc) :
  processLine docAlign (prependLines L a)
  = prependLines L (processLine docAlign a).
Proof.
  unfold processLine, prependLines. cbn.
  destruct (0 <? Z.of_nat (length (currentLineSegments a)));
    [now rewrite app_assoc|reflexivity].
Qed.

Lemma adoptAlignment_prepend (L : list LineData) (s : LineSegment) (a : Acc) :
  adoptAlignment docAlign s (prependLines L a)
  = prependLines L (adoptAlignment docAlign s a).
Proof.
  unfold adoptAlignment, prependLines. cbn.
  destruct (textAlign (seg_style s)); [|reflexivity].
  destruct (Alignment_eqb _ _); reflexivity.
Qed.

Lemma pushSegment_prepend (L : list LineData) (s : LineSegment) (a : Acc) :
  pushSegment lineHeight s (prependLines L a)
  = prependLines L (pushSegment lineHeight s a).
Proof. reflexivity. Qed.

Lemma breakIfNeeded_prepend (L : list LineData) (s : LineSegment) (a : Acc) :
  breakIfNeeded lineHeight docAlign targetWidth s (prependLines L a)
  = prependLines L (breakIfNeeded lineHeight docAlign targetWidth s a).
Proof.
  unfold breakIfNeeded.
  change (overflows targetWidth s (prependLines L a))
    with (overflows targetWidth s a).
  destruct (overflows targetWidth s a); [|reflexivity].
  change (currentLineSegments (prependLines L a)) with (currentLineSegments a).
  destruct (negb _).
  - unfold breakAtSpace, processLine, prependLines. cbn.
    destruct (0 <? Z.of_nat (length (slice (currentLineSegments a) 0 _)));
      [now rewrite app_assoc|reflexivity].
  - apply processLine_prepend.
Qed.

Lemma step_prepend (L : list LineData) (a : Acc) (s : LineSegment) :
  step lineHeight docAlign targetWidth (prependLines L a) s
  = prependLines L (step lineHeight docAlign targetWidth a s).
Proof.
  unfold step. rewrite adoptAlignment_prepend.
  destruct (isNewline s).
  - apply processLine_prepend.
  - now rewrite breakIfNeeded_prepend, pushSegment_prepend.
Qed.

Lemma wrapFrom_prepend (L : list LineData) (segs : list LineSegment) (a : Acc) :
  wrapFrom lineHeight docAlign targetWidth (prependLines L a) segs
  = prependLines L (wrapFrom lineHeight docAlign targetWidth a segs).
Proof.
  revert a. induction segs as [|s segs IH]; intros a; [reflexivity|].
  cbn [wrapFrom fold_left]. rewrite step_prepend. apply IH.
Qed.

Lemma processLine_restart (a : Acc) :
  processLine docAlign a
  = prependLines (lines (processLine docAlign a)) (initial docAlign).
Proof. unfold processLine, prependLines, initial. cbn. now rewrite app_nil_r. Qed.

(** The lines of a text cut at a newline: those of the part before, the
    last of them closed by the newline segment, then those of the part
    after. *)
Lemma wrap_at_newline (before after : list LineSegment) (nl : LineSegment) :
  isNewline nl = true ->
  wrap (before ++ nl :: after)
  = lines (processLine docAlign
             (adoptAlignment docAlign nl
                (wrapFrom lineHeight docAlign targetWidth (initial docAlign)
                          before)))
    ++ wrap after.
Proof.
  intros Hnl. unfold wrapStyledSegments.
  assert (Happ : wrapFrom lineHeight docAlign targetWidth (initial docAlign)
                   (before ++ nl :: after)
                 = wrapFrom lineHeight docAlign targetWidth
                     (step lineHeight docAlign targetWidth
                        (wrapFrom lineHeight docAlign targetWidth
                                  (initial docAlign) before) nl)
                     after).
  { unfold wrapFrom. now rewrite fold_left_app. }
  rewrite Happ.
  rewrite (WrapFacts.step_newline lineHeight docAlign targetWidth _ nl Hnl).
  rewrite (processLine_restart
             (adoptAlignment docAlign nl
                (wrapFrom lineHeight docAlign targetWidth (initial docAlign)
                          before))).
  rewrite wrapFrom_prepend, processLine_prepend.
  cbn [lines prependLines initial]. now rewrite app_nil_r.
Qed.

(** A newline separates the wrapping of what comes before it from the
    wrapping of what comes after it: the lines of the whole text are the
    lines of the first part followed by the lines of the second, segment for
    segment, and record for record when the newline segment carries no
    alignment of its own. *)
Theorem wrapStyledSegments_paragraphs (before after : list LineSegment)
    (nl : LineSegment) :
  isNewline nl = true ->
  map segments (wrap (before ++ nl :: after))
  = map segments (wrap before) ++ map segments (wrap after)
  /\ (textAlign (seg_style nl) = None
      \/ textAlign (seg_style nl) = Some docAlign ->
      wrap (before ++ nl :: after) = wrap before ++ wrap after).
Proof.
  intros Hnl. rewrite (wrap_at_newline before after nl Hnl).
  set (X := wrapFrom lineHeight docAlign targetWidth (initial docAlign) before).
  change (wrap before) with (lines (processLine docAlign X)).
  split.
  - rewrite map_app. f_equal.
    rewrite !WrapFacts.processLine_lines.
    rewrite WrapFacts.adoptAlignment_segments, WrapFacts.adoptAlignment_lines.
    destruct (WrapFacts.nonEmpty (currentLineSegments X)); [|reflexivity].
    now rewrite !map_app.
  - intros Hal. f_equal.
    assert (Hsame : adoptAlignment docAlign nl X = X).
    { unfold adoptAlignment. destruct Hal as [->| ->]; [reflexivity|].
      destruct (Alignment_eqb (currentLineEffectiveAlignment X) docAlign)
        eqn:Heq; [|reflexivity].
      apply PlaceFacts.Alignment_eqb_eq in Heq. rewrite <- Heq.
      now destruct X. }
    now rewrite Hsame.
Qed.

(** *** A text that fits on one line *)

(** The first alignment, in reading order, that a segment carries and that
    differs from the document default; the default when there is none. *)
Fixpoint firstOwnAlignment (segs : list LineSegment) : Alignment :=
  match segs with
  | [] => docAlign
  | s :: rest =>
      match textAlign (seg_style s) with
      | Some al =>
          if Alignment_eqb al docAlign then firstOwnAlignment rest else al
      | None => firstOwnAlignment rest
      end
  end.

Lemma Alignment_eqb_refl (a : Alignment) : Alignment_eqb a a = true.
Proof. now destruct a. Qed.

Lemma adoptAlignment_alignment (s : LineSegment) (a : Acc) :
  currentLineEffectiveAlignment (adoptAlignment docAlign s a)
  = match textAlign (seg_style s) with
    | Some al =>
        if Alignment_eqb (currentLineEffectiveAlignment a) docAlign
        then al else currentLineEffectiveAlignment a
    | None => currentLineEffectiveAlignment a
    end.
Proof.
  unfold adoptAlignment. destruct (textAlign (seg_style s)); [|reflexivity].
  now destruct (Alignment_eqb _ _).
Qed.

(** While nothing breaks, the accumulator only grows. *)
Lemma wrapFrom_fits (segs : list LineSegment) (a : Acc) :
  forallb (fun s => negb (isNewline s)) segs = true ->
  WrapFacts.noBreakFrom targetWidth (currentLineMetricsWidth a)
    (WrapFacts.nonEmpty (currentLineSegments a)) segs = true ->
  lines (wrapFrom lineHeight docAlign targetWidth a segs) = lines a
  /\ currentLineSegments (wrapFrom lineHeight docAlign targetWidth a segs)
     = currentLineSegments a ++ segs
  /\ (currentLineEffectiveAlignment a = docAlign ->
      currentLineEffectiveAlignment
        (wrapFrom lineHeight docAlign targetWidth a segs)
      = firstOwnAlignment segs)
  /\ (currentLineEffectiveAlignment a <> docAlign ->
      currentLineEffectiveAlignment
        (wrapFrom lineHeight docAlign targetWidth a segs)
      = currentLineEffectiveAlignment a).
Proof.
  revert a. induction segs as [|s segs IH]; intros a Hnl Hfit.
  - cbn. now rewrite app_nil_r.
  - cbn [forallb] in Hnl. apply andb_true_iff in Hnl. destruct Hnl as [Hs Hnl].
    apply negb_true_iff in Hs.
    cbn [WrapFacts.noBreakFrom] in Hfit. rewrite Hs in Hfit.
    apply andb_true_iff in Hfit. destruct Hfit as [Hnow Hrest].
    cbn [wrapFrom fold_left].
    rewrite (WrapFacts.step_fits lineHeight docAlign targetWidth a s Hs Hnow).
    set (a' := pushSegment lineHeight s (adoptAlignment docAlign s a)).
    assert (Hsegs : currentLineSegments a' = currentLineSegments a ++ [s]).
    { unfold a'. cbn. now rewrite WrapFacts.adoptAlignment_segments. }
    assert (Hal : currentLineEffectiveAlignment a'
                  = currentLineEffectiveAlignment (adoptAlignment docAlign s a))
      by reflexivity.
    destruct (IH a' Hnl) as (Hl & Hc & Hdef & Hown).
    { rewrite Hsegs, WrapFacts.nonEmpty_snoc. unfold a'. cbn.
      now rewrite WrapFacts.adoptAlignment_width. }
    fold (wrapFrom lineHeight docAlign targetWidth a' segs).
    split; [|split; [|split]].
    + rewrite Hl. unfold a'. cbn. apply WrapFacts.adoptAlignment_lines.
    + rewrite Hc, Hsegs, <- app_assoc. reflexivity.
    + intros Ha. cbn [firstOwnAlignment].
      rewrite adoptAlignment_alignment, Ha, Alignment_eqb_refl in Hal.
      destruct (textAlign (seg_style s)) as [al|].
      * destruct (Alignment_eqb al docAlign) eqn:Heq.
        -- apply Hdef. rewrite Hal. now apply PlaceFacts.Alignment_eqb_eq.
        -- rewrite Hown; [exact Hal|]. rewrite Hal. intros ->.
           now rewrite Alignment_eqb_refl in Heq.
      * apply Hdef. exact Hal.
    + intros Ha.
      assert (Hkeep : currentLineEffectiveAlignment a'
                      = currentLineEffectiveAlignment a).
      { rewrite Hal, adoptAlignment_alignment.
        destruct (textAlign (seg_style s)); [|reflexivity].
        destruct (Alignment_eqb (currentLineEffectiveAlignment a) docAlign)
          eqn:Heq; [|reflexivity].
        now apply PlaceFacts.Alignment_eqb_eq in Heq. }
      rewrite Hown; rewrite Hkeep; [reflexivity|assumption].
Qed.

(** A text without newlines in which no width-triggered break occurs gives
    exactly one line: all its segments, their total width, the largest line
    height, the number of spaces, and as alignment the first alignment of a
    segment that differs from the document default, or the default. *)
Theorem wrapStyledSegments_single_line (segs : list LineSegment) :
  segs <> [] ->
  forallb (fun s => negb (isNewline s)) segs = true ->
  WrapFacts.noBreak targetWidth segs = true ->
  wrap segs
  = [ {| segments := segs;
         metricsWidth := sumWidth segs;
         maxHeight := maxLineHeight lineHeight segs;
         spaces := countSpaces segs;
         effectiveAlignment := firstOwnAlignment segs |} ].
Proof.
  intros Hne Hnl Hfit.
  destruct (wrapFrom_fits segs (initial docAlign) Hnl Hfit)
    as (Hl & Hc & Hdef & _).
  specialize (Hdef eq_refl). cbn [lines currentLineSegments initial app] in Hl, Hc.
  pose proof (WrapFacts.wrapFrom_consistent lineHeight docAlign targetWidth segs
                (initial docAlign) (WrapFacts.initial_consistent lineHeight
                                      docAlign))
    as (_ & Hw & Hh & Hs).
  unfold wrapStyledSegments. rewrite WrapFacts.processLine_lines.
  rewrite Hl, Hc, Hw, Hh, Hs, Hc, Hdef.
  destruct segs; [contradiction|reflexivity].
Qed.

(** *** Where a width-triggered break cuts *)

Lemma lastSpaceFrom_none (l : list LineSegment) (n : nat) :
  lastSpaceFrom l n = -1 ->
  forall i s, (i < n)%nat -> nth_error l i = Some s -> isSpace s = false.
Proof.
  induction n as [|k IH]; cbn [lastSpaceFrom]; intros H i s Hi Hs; [lia|].
  destruct (nth_error l k) as [x|] eqn:Hx.
  - destruct (isSpace x) eqn:Hsp; [lia|].
    destruct (Nat.eq_dec i k) as [->|Hne]; [congruence|].
    apply (IH H i s); [lia|assumption].
  - destruct (Nat.eq_dec i k) as [->|Hne]; [congruence|].
    apply (IH H i s); [lia|assumption].
Qed.

Lemma lastSpaceIndex_none (l : list LineSegment) :
  lastSpaceIndex l = -1 <-> existsb isSpace l = false.
Proof.
  split.
  - intros H. destruct (existsb isSpace l) eqn:Hex; [|reflexivity].
    apply existsb_exists in Hex. destruct Hex as (s & Hin & Hs).
    apply In_nth_error in Hin. destruct Hin as [i Hi].
    rewrite (lastSpaceFrom_none l (length l) H i s) in Hs; [discriminate| |exact Hi].
    apply nth_error_Some. congruence.
  - intros Hex. destruct (Z.eq_dec (lastSpaceIndex l) (-1)) as [|Hfound];
      [assumption|].
    destruct (WrapFacts.lastSpaceIndex_split l Hfound)
      as (pre & sp & _ & Hsp & Hl & _).
    assert (Hin : existsb isSpace l = true).
    { apply existsb_exists. exists sp. split; [|assumption].
      rewrite Hl. apply in_or_app. right. now left. }
    congruence.
Qed.

(** When a segment does not fit on a line that holds a space, the line is
    closed right after its last space, with the width of what it keeps, and
    the segments after that space, none of them a space, start the next
    line, followed by the new segment.  When the line holds no space, the
    whole line is closed and the new segment starts the next line alone. *)
Theorem step_break_shape (a : Acc) (s : LineSegment) :
  isNewline s = false ->
  overflows targetWidth s a = true ->
  (existsb isSpace (currentLineSegments a) = true ->
   exists pre sp moved line,
     currentLineSegments a = pre ++ sp :: moved
     /\ isSpace sp = true
     /\ Forall (fun x => isSpace x = false) moved
     /\ lines (step lineHeight docAlign targetWidth a s) = lines a ++ [line]
     /\ segments line = pre ++ [sp]
     /\ metricsWidth line = sumWidth (pre ++ [sp])
     /\ currentLineSegments (step lineHeight docAlign targetWidth a s)
        = moved ++ [s]
     /\ currentLineMetricsWidth (step lineHeight docAlign targetWidth a s)
        = (sumWidth moved + width s)%Q)
  /\ (existsb isSpace (currentLineSegments a) = false ->
      exists line,
        lines (step lineHeight docAlign targetWidth a s) = lines a ++ [line]
        /\ segments line = currentLineSegments a
        /\ metricsWidth line = currentLineMetricsWidth a
        /\ currentLineSegments (step lineHeight docAlign targetWidth a s) = [s]
        /\ currentLineMetricsWidth (step lineHeight docAlign targetWidth a s)
           = (0 + width s)%Q).
Proof.
  intros Hs Hover.
  assert (Hne : WrapFacts.nonEmpty (currentLineSegments a) = true).
  { unfold overflows in Hover. apply andb_true_iff in Hover. apply Hover. }
  unfold step, breakIfNeeded.
  rewrite Hs, WrapFacts.overflows_adoptAlignment, Hover.
  rewrite WrapFacts.adoptAlignment_segments.
  split.
  - intros Hex.
    assert (Hfound : lastSpaceIndex (currentLineSegments a) <> -1).
    { intros Hnone. apply lastSpaceIndex_none in Hnone. congruence. }
    destruct (WrapFacts.lastSpaceIndex_split _ Hfound)
      as (pre & sp & Hkept & Hsp & Hcur & Hmoved).
    destruct (Z.eqb_spec (lastSpaceIndex (currentLineSegments a)) (-1));
      [contradiction|]. cbn [negb].
    exists pre, sp,
      (sliceFrom (currentLineSegments a)
                 (lastSpaceIndex (currentLineSegments a) + 1)).
    eexists.
    split; [exact Hcur|]. split; [exact Hsp|]. split; [exact Hmoved|].
    unfold breakAtSpace. rewrite WrapFacts.adoptAlignment_segments.
    cbn [lines currentLineSegments currentLineMetricsWidth pushSegment].
    rewrite WrapFacts.processLine_lines.
    cbn [lines currentLineSegments currentLineMetricsWidth currentLineMaxHeight
         currentLineSpaces currentLineEffectiveAlignment].
    rewrite Hkept, WrapFacts.nonEmpty_snoc, WrapFacts.adoptAlignment_lines.
    split; [reflexivity|]. cbn [segments metricsWidth]. now repeat split.
  - intros Hex. apply lastSpaceIndex_none in Hex. rewrite Hex.
    change (negb (-1 =? -1)) with false. cbv iota.
    eexists.
    cbn [lines currentLineSegments currentLineMetricsWidth pushSegment].
    rewrite WrapFacts.processLine_lines.
    rewrite WrapFacts.adoptAlignment_segments, WrapFacts.adoptAlignment_lines,
      WrapFacts.adoptAlignment_width, Hne.
    split; [reflexivity|]. cbn [segments metricsWidth app processLine
      currentLineSegments currentLineMetricsWidth]. now repeat split.
Qed.

End Breaker.

End LineFacts.

(** ** From the text to the drawing calls *)

Module DrawFacts.
Import Wrap Render.

(** The text without its newline characters. *)
Fixpoint dropNewlines (s : string) : string :=
  match s with
  | EmptyString => EmptyString
  | String c rest =>
      if Ascii.eqb c (ascii_of_nat 10) then dropNewlines rest
      else String c (dropNewlines rest)
  end.

(** The characters of a list of segments, put together. *)
Definition textOf (segs : list LineSegment) : string :=
  String.concat "" (map char segs).

(** The glyphs a list of calls draws, with their styles, and the number of
    underline rules. *)
Fixpoint glyphs (calls : list DrawCall) : list (string * TextStyle) :=
  match calls with
  | [] => []
  | FillText c sty _ _ :: rest => (c, sty) :: glyphs rest
  | FillRect _ _ _ _ _ :: rest => glyphs rest
  end.

Fixpoint countRules (calls : list DrawCall) : nat :=
  match calls with
  | [] => 0
  | FillText _ _ _ _ :: rest => countRules rest
  | FillRect _ _ _ _ _ :: rest => S (countRules rest)
  end.

Definition glyphOf (s : LineSegment) : string * TextStyle :=
  (char s, seg_style s).

Lemma concat_cons_char (c : ascii) (l : list string) :
  String.concat "" (String c "" :: l) = String c (String.concat "" l).
Proof. destruct l; reflexivity. Qed.

Lemma glyphs_app (c1 c2 : list DrawCall) :
  glyphs (c1 ++ c2) = glyphs c1 ++ glyphs c2.
Proof.
  induction c1 as [|[? ? ? ?|? ? ? ? ?] c1 IH]; cbn; [reflexivity| |assumption].
  now rewrite IH.
Qed.

Lemma countRules_app (c1 c2 : list DrawCall) :
  countRules (c1 ++ c2) = (countRules c1 + countRules c2)%nat.
Proof.
  induction c1 as [|[? ? ? ?|? ? ? ? ?] c1 IH]; cbn; [reflexivity|assumption|].
  now rewrite IH.
Qed.

Lemma placeDefault_segments (segs : list LineSegment) (x : Q) :
  map fst (fst (placeDefault segs x)) = segs.
Proof.
  revert x. induction segs as [|s segs IH]; intros x; cbn; [reflexivity|].
  specialize (IH (x + width s)%Q).
  destruct (placeDefault segs _). cbn in *. now rewrite IH.
Qed.

Lemma placeJustified_segments (e : Q) (segs : list LineSegment) (x : Q) :
  map fst (fst (placeJustified e segs x)) = segs.
Proof.
  revert x. induction segs as [|s segs IH]; intros x; cbn; [reflexivity|].
  specialize (IH (if isSpace s then (x + width s + e)%Q else (x + width s)%Q)).
  destruct (placeJustified e segs _). cbn in *. now rewrite IH.
Qed.

(** Whatever the alignment, a line is placed segment by segment, in order. *)
Lemma placeLine_segments (targetWidth : Q) (line : LineData) :
  map fst (fst (placeLine targetWidth line)) = segments line.
Proof.
  unfold placeLine.
  destruct (effectiveAlignment line); try apply placeDefault_segments;
    destruct (justifies line);
    auto using placeDefault_segments, placeJustified_segments.
Qed.

Section Browser.

Variable measureText : string -> TextStyle -> TextMetrics.

Abbreviation getStyledSegments := (getStyledSegments measureText).
Abbreviation styledSegmentsFrom := (styledSegmentsFrom measureText).
Abbreviation drawLines := (drawLines measureText).

Lemma styledSegmentsFrom_spec (st : Editor.State) (s : string) (i : Z) :
  length (styledSegmentsFrom st s i) = String.length s
  /\ textOf (styledSegmentsFrom st s i) = s
  /\ forall k seg,
       nth_error (styledSegmentsFrom st s i) k = Some seg ->
       char seg = substring k 1 s
       /\ seg_style seg = Editor.getStyleForPosition st (i + Z.of_nat k)
       /\ width seg = measureTextWidth measureText (char seg) (seg_style seg).
Proof.
  revert i. induction s as [|c s IH]; intros i.
  - repeat split; destruct k; discriminate.
  - destruct (IH (i + 1)) as (Hlen & Htext & Hnth).
    cbn [Render.styledSegmentsFrom]. split; [|split].
    + cbn. now rewrite Hlen.
    + unfold textOf in *. cbn [map char]. now rewrite concat_cons_char, Htext.
    + intros [|k] seg Hk.
      * cbn in Hk. injection Hk as <-. cbn [char seg_style width].
        rewrite Z.add_0_r. repeat split. cbn. now rewrite StringFacts.substring_0_0.
      * cbn [nth_error] in Hk. destruct (Hnth k seg Hk) as (H1 & H2 & H3).
        repeat split; [exact H1| |exact H3].
        rewrite H2. f_equal. lia.
Qed.

(** [getStyledSegments] makes one segment per character, in order: the
    characters of the segments put together are the text; the segment at
    index [k] holds the character at [k], the style the resolver gives for
    position [k], and the advance width measured for that character under
    that style. *)
Theorem getStyledSegments_spec (st : Editor.State) (textToProcess : string) :
  length (getStyledSegments st textToProcess) = String.length textToProcess
  /\ textOf (getStyledSegments st textToProcess) = textToProcess
  /\ forall k seg,
       nth_error (getStyledSegments st textToProcess) k = Some seg ->
       char seg = substring k 1 textToProcess
       /\ seg_style seg = Editor.getStyleForPosition st (Z.of_nat k)
       /\ width seg = measureTextWidth measureText (char seg) (seg_style seg).
Proof.
  destruct (styledSegmentsFrom_spec st textToProcess 0) as (H1 & H2 & H3).
  split; [exact H1|]. split; [exact H2|]. exact H3.
Qed.

Lemma textOf_filter_newlines (st : Editor.State) (s : string) (i : Z) :
  textOf (filter (fun x => negb (isNewline x)) (styledSegmentsFrom st s i))
  = dropNewlines s.
Proof.
  revert i. induction s as [|c s IH]; intros i; [reflexivity|].
  cbn [Render.styledSegmentsFrom filter dropNewlines].
  match goal with
  | |- context [isNewline ?seg] =>
      assert (Hn : isNewline seg = Ascii.eqb c (ascii_of_nat 10))
  end.
  { unfold isNewline, NEWLINE. cbn [char String.eqb].
    now destruct (Ascii.eqb c (ascii_of_nat 10)). }
  rewrite Hn. destruct (Ascii.eqb c (ascii_of_nat 10)); cbn [negb].
  - apply IH.
  - unfold textOf. cbn [map char]. rewrite concat_cons_char. f_equal.
    apply IH.
Qed.

Lemma drawSegment_glyphs (y : Q) (seg : LineSegment) (x : Q) :
  glyphs (drawSegment measureText y seg x) = [glyphOf seg]
  /\ countRules (drawSegment measureText y seg x)
     = if isUnderline (seg_style seg) then 1%nat else 0%nat.
Proof.
  unfold drawSegment. cbn. now destruct (isUnderline (seg_style seg)).
Qed.

Lemma placed_glyphs (y : Q) (placed : list (LineSegment * Q)) :
  glyphs (flat_map (fun p => drawSegment measureText y (fst p) (snd p)) placed)
  = map glyphOf (map fst placed)
  /\ countRules
       (flat_map (fun p => drawSegment measureText y (fst p) (snd p)) placed)
     = length (filter (fun s => isUnderline (seg_style s)) (map fst placed)).
Proof.
  induction placed as [|[seg x] placed [IHg IHr]]; [now split|].
  cbn [flat_map map fst snd filter].
  destruct (drawSegment_glyphs y seg x) as [Hg Hr].
  rewrite glyphs_app, countRules_app, Hg, Hr, IHg, IHr.
  split; [reflexivity|].
  now destruct (isUnderline (seg_style seg)).
Qed.

Lemma drawLines_glyphs_from (st : Editor.State) (targetWidth : Q)
    (linesData : list LineData) (calls : list DrawCall) (y : Q) :
  let out := fst (fold_left (drawLine measureText st targetWidth) linesData
                            (calls, y)) in
  glyphs out
  = glyphs calls ++ map glyphOf (concat (map segments linesData))
  /\ countRules out
     = (countRules calls
        + length (filter (fun s => isUnderline (seg_style s))
                         (concat (map segments linesData))))%nat.
Proof.
  revert calls y. induction linesData as [|l ls IH]; intros calls y.
  - cbn. rewrite app_nil_r. split; [reflexivity|lia].
  - cbn [fold_left]. unfold drawLine at 2 4.
    destruct (IH (calls ++ flat_map
                    (fun p => drawSegment measureText y (fst p) (snd p))
                    (fst (placeLine targetWidth l)))
                 (y + orElse (maxHeight l)
                        (fontSize (Editor.getDefaultStyle st)
                         * Editor.s_lineHeight st))%Q) as [IHg IHr].
    cbv zeta in IHg, IHr |- *. rewrite IHg, IHr.
    destruct (placed_glyphs y (fst (placeLine targetWidth l))) as [Hg Hr].
    rewrite glyphs_app, countRules_app, Hg, Hr, placeLine_segments.
    cbn [map concat]. rewrite map_app, filter_app, length_app, <- app_assoc.
    split; [reflexivity|lia].
Qed.

(** The calls that draw a text carry exactly its characters other than
    newlines, each once and in order, each with the style resolved for its
    position in the text; the glyphs put together are the text without its
    newlines; and there is one underline rule per underlined character. *)
Theorem drawn_text (st : Editor.State) (textToRender : string)
    (targetWidth : Q) :
  let segs := getStyledSegments st textToRender in
  let linesData :=
    wrapStyledSegments (Editor.s_lineHeight st) (Editor.s_textAlign st)
                       targetWidth segs in
  let calls := fst (drawLines st targetWidth linesData) in
  glyphs calls = map glyphOf (filter (fun s => negb (isNewline s)) segs)
  /\ String.concat "" (map fst (glyphs calls)) = dropNewlines textToRender
  /\ countRules calls
     = length (filter (fun s => isUnderline (seg_style s))
                      (filter (fun s => negb (isNewline s)) segs)).
Proof.
  intros segs linesData calls.
  destruct (drawLines_glyphs_from st targetWidth linesData [] 0%Q) as [Hg Hr].
  fold (drawLines st targetWidth linesData) in Hg, Hr. fold calls in Hg, Hr.
  pose proof (WrapFacts.wrapStyledSegments_placed (Editor.s_lineHeight st)
                (Editor.s_textAlign st) targetWidth segs) as Hcat.
  fold linesData in Hcat. unfold WrapFacts.notNewline in Hcat.
  cbn [glyphs app countRules Nat.add] in Hg, Hr. rewrite Hcat in Hg, Hr.
  split; [exact Hg|]. split; [|exact Hr].
  rewrite Hg, map_map. cbn [glyphOf fst].
  change (map (fun x => char x) ?l) with (map char l).
  apply (textOf_filter_newlines st textToRender 0).
Qed.

End Browser.

End DrawFacts.

(** ** Left, centre and right placement *)

Module AlignFacts.
Import Wrap Render.

Local Open Scope Q_scope.

Lemma placeDefault_app (pre post : list LineSegment) (x : Q) :
  placeDefault (pre ++ post) x
  = (fst (placeDefault pre x)
       ++ fst (placeDefault post (snd (placeDefault pre x))),
     snd (placeDefault post (snd (placeDefault pre x)))).
Proof.
  revert x. induction pre as [|s pre IH]; intros x; cbn [app placeDefault].
  - cbn. now destruct (placeDefault post x).
  - rewrite IH. destruct (placeDefault pre _). reflexivity.
Qed.

Lemma placeDefault_length (segs : list LineSegment) (x : Q) :
  length (fst (placeDefault segs x)) = length segs.
Proof.
  rewrite <- (length_map fst). now rewrite DrawFacts.placeDefault_segments.
Qed.

Lemma placeDefault_pen (segs : list LineSegment) (x : Q) :
  snd (placeDefault segs x) == x + sumWidth segs.
Proof.
  revert x. induction segs as [|s segs IH]; intros x; cbn [placeDefault].
  - unfold sumWidth. cbn. ring.
  - specialize (IH (x + width s)).
    destruct (placeDefault segs _). cbn [snd] in *.
    rewrite IH, WrapFacts.sumWidth_cons. ring.
Qed.

Lemma placeDefault_nth (pre : list LineSegment) (s : LineSegment)
    (post : list LineSegment) (x : Q) :
  nth_error (fst (placeDefault (pre ++ s :: post) x)) (length pre)
  = Some (s, snd (placeDefault pre x)).
Proof.
  rewrite placeDefault_app. cbn [fst].
  rewrite nth_error_app2 by (rewrite placeDefault_length; lia).
  rewrite placeDefault_length, Nat.sub_diag. cbn [placeDefault].
  destruct (placeDefault post _). reflexivity.
Qed.

(** The x the default loop starts from. *)
Definition startX (targetWidth : Q) (line : LineData) : Q :=
  match effectiveAlignment line with
  | AlignCenter => 0 + (targetWidth - metricsWidth line) / 2
  | AlignRight => 0 + targetWidth - metricsWidth line
  | _ => 0
  end.

(** On a line of [wrapStyledSegments] that does not take the justify branch,
    each segment is drawn where the one before it ends, the first one at the
    start of the alignment: 0 for left and for a justify line without a
    space or without a character other than spaces, the free width for
    right, half of it for centre.  So a right-aligned line ends at
    [targetWidth] and a centred line has the same margin on both sides. *)
Theorem placeLine_aligned (lineHeight : Q) (docAlign : Alignment)
    (targetWidth : Q) (segs : list LineSegment) (line : LineData) :
  In line (wrapStyledSegments lineHeight docAlign targetWidth segs) ->
  justifies line = false ->
  let x0 := startX targetWidth line in
  (forall pre s post,
      segments line = pre ++ s :: post ->
      exists x,
        nth_error (fst (placeLine targetWidth line)) (length pre) = Some (s, x)
        /\ x == x0 + sumWidth pre)
  /\ snd (placeLine targetWidth line) == x0 + metricsWidth line
  /\ (effectiveAlignment line = AlignLeft
      \/ effectiveAlignment line = AlignJustify -> x0 = 0)
  /\ (effectiveAlignment line = AlignRight ->
      snd (placeLine targetWidth line) == targetWidth)
  /\ (effectiveAlignment line = AlignCenter ->
      targetWidth - snd (placeLine targetWidth line) == x0).
Proof.
  intros Hin Hj x0.
  pose proof (WrapFacts.wrapStyledSegments_consistent
                lineHeight docAlign targetWidth segs) as Hall.
  rewrite Forall_forall in Hall.
  destruct (Hall line Hin) as (_ & Hw & _ & _).
  assert (Hplace : placeLine targetWidth line
                   = placeDefault (segments line) x0).
  { unfold placeLine, x0, startX. rewrite Hj.
    now destruct (effectiveAlignment line). }
  assert (Hpen : snd (placeLine targetWidth line) == x0 + metricsWidth line).
  { rewrite Hplace, placeDefault_pen, Hw. reflexivity. }
  split; [|split; [|split; [|split]]].
  - intros pre s post Hsegs. rewrite Hplace, Hsegs, placeDefault_nth.
    eexists. split; [reflexivity|]. apply placeDefault_pen.
  - exact Hpen.
  - unfold x0, startX. now intros [-> | ->].
  - intros Hal. rewrite Hpen. unfold x0, startX. rewrite Hal. ring.
  - intros Hal. rewrite Hpen. unfold x0, startX. rewrite Hal. field.
Qed.

End AlignFacts.

(** ** More on the target canvas *)

Module CropFacts.
Import Render RenderFacts.

Section Output.

Variable measureText : string -> TextStyle -> TextMetrics.
Variable paint : list DrawCall -> Z -> Z -> Pixel.

Abbreviation render := (renderTextOnCanvas measureText paint).
Abbreviation drawn := (drawOffscreen measureText paint).

(** A pixel cell of the target canvas. *)
Definition onCanvas (t : Target) (x y : Z) : Prop :=
  0 <= x /\ 0 <= y
  /\ (inject_Z (x + 1) <= canvas_width t)%Q
  /\ (inject_Z (y + 1) <= canvas_height t)%Q.

Lemma onCanvas_inRect (t : Target) (x y : Z) :
  onCanvas t x y ->
  inRect 0 0 (canvas_width t) (canvas_height t) x y = true.
Proof.
  intros (Hx & Hy & Hw & Hh). apply inRect_spec. rewrite !Z.sub_0_r. tauto.
Qed.

(** The result of the render in terms of the scan. *)
Lemma render_cases (st : Editor.State) (textToRender : string)
    (targetWidth : Q) (forExport : bool) :
  let offscreen := fst (drawn st textToRender targetWidth) in
  let currentY := snd (drawn st textToRender targetWidth) in
  let h := toInteger (currentY + 10) in
  let b := findBounds offscreen (getImageData offscreen (cwidth offscreen) h) in
  render st textToRender targetWidth forExport
  = finishRender (Editor.s_backgroundColor st) offscreen currentY targetWidth
                 forExport
  /\ (hasContent b = true <-> exists i j, visible offscreen h i j)
  /\ (hasContent b = true ->
      boundingBox offscreen h (minX b) (minY b) (maxX b) (maxY b)).
Proof.
  intros offscreen currentY h b.
  split; [apply renderTextOnCanvas_finish|].
  apply findBounds_spec.
Qed.

(** In Preview mode, when the scanned region holds no visible pixel, the
    target canvas is [targetWidth + 20] by 200 and every pixel of it is the
    background colour alone. *)
Theorem renderTextOnCanvas_blank_preview (st : Editor.State)
    (textToRender : string) (targetWidth : Q) :
  let offscreen := fst (drawn st textToRender targetWidth) in
  let currentY := snd (drawn st textToRender targetWidth) in
  let h := toInteger (currentY + 10) in
  let out := render st textToRender targetWidth false in
  (forall i j, ~ visible offscreen h i j) ->
  canvas_width out = (targetWidth + 20)%Q
  /\ canvas_height out = 200%Q
  /\ forall x y, onCanvas out x y ->
       layers out x y = [Solid (Editor.s_backgroundColor st)].
Proof.
  intros offscreen currentY h out Hnone.
  destruct (render_cases st textToRender targetWidth false)
    as (Hout & Hcontent & _).
  fold offscreen currentY h in Hout, Hcontent. fold out in Hout.
  unfold finishRender in Hout. fold h in Hout.
  set (b := findBounds offscreen (getImageData offscreen (cwidth offscreen) h))
    in *.
  assert (Hc : hasContent b = false).
  { destruct (hasContent b); [|reflexivity].
    destruct (proj1 Hcontent eq_refl) as (i & j & Hv). now apply Hnone in Hv. }
  rewrite Hc in Hout. cbn [negb] in Hout.
  assert (Hw : canvas_width out = (targetWidth + 20)%Q) by now rewrite Hout.
  assert (Hh : canvas_height out = 200%Q) by now rewrite Hout.
  split; [exact Hw|]. split; [exact Hh|].
  intros x y Hon. apply onCanvas_inRect in Hon. rewrite Hw, Hh in Hon.
  rewrite Hout. cbn [layers fillRect clearRect resize]. now rewrite Hon.
Qed.

(** Whatever was drawn, an Export canvas never holds a background fill: a
    pixel of it is transparent or a single copied pixel; and every pixel of
    a Preview canvas has the background colour underneath. *)
Theorem renderTextOnCanvas_background (st : Editor.State)
    (textToRender : string) (targetWidth : Q) :
  (forall x y,
     layers (render st textToRender targetWidth true) x y = []
     \/ exists p, layers (render st textToRender targetWidth true) x y
                  = [Copied p])
  /\ (forall x y,
        onCanvas (render st textToRender targetWidth false) x y ->
        layers (render st textToRender targetWidth false) x y
        = [Solid (Editor.s_backgroundColor st)]
        \/ exists p,
             layers (render st textToRender targetWidth false) x y
             = [Copied p; Solid (Editor.s_backgroundColor st)]).
Proof.
  split.
  - intros x y.
    destruct (render_cases st textToRender targetWidth true) as (-> & _ & _).
    unfold finishRender.
    destruct (hasContent _); cbn [negb layers drawImage clearRect resize].
    + destruct (inRect 2 2 _ _ x y); [right|left];
        destruct (inRect 0 0 _ _ x y); eauto.
    + left. now destruct (inRect 0 0 4 4 x y).
  - intros x y.
    destruct (render_cases st textToRender targetWidth false) as (-> & _ & _).
    unfold finishRender.
    destruct (hasContent _); cbn [negb]; intros Hon;
      apply onCanvas_inRect in Hon;
      cbn [canvas_width canvas_height layers drawImage fillRect clearRect resize]
        in Hon |- *; rewrite Hon.
    + destruct (inRect 10 10 _ _ x y); eauto.
    + now left.
Qed.

(** The Export crop is tight and loses nothing: with the bounding box
    [(x0, y0)-(x1, y1)] of the visible pixels of the scanned region, every
    visible pixel [(i, j)] is found again at [(i - x0 + 2, j - y0 + 2)]; the
    first and last content column and row each hold a visible pixel; the
    two pixels of padding on every side are transparent; and the canvas is at
    least 5 by 5 and at most 4 more than the scanned region each way. *)
Theorem renderTextOnCanvas_export_tight (st : Editor.State)
    (textToRender : string) (targetWidth : Q) (x0 y0 x1 y1 : Z) :
  let offscreen := fst (drawn st textToRender targetWidth) in
  let currentY := snd (drawn st textToRender targetWidth) in
  let h := toInteger (currentY + 10) in
  let out := render st textToRender targetWidth true in
  boundingBox offscreen h x0 y0 x1 y1 ->
  let w' := x1 - x0 + 1 + 4 in
  let h' := y1 - y0 + 1 + 4 in
  canvas_width out = inject_Z w' /\ canvas_height out = inject_Z h'
  /\ 5 <= w' <= cwidth offscreen + 4 /\ 5 <= h' <= h + 4
  /\ (forall i j, visible offscreen h i j ->
        layers out (i - x0 + 2) (j - y0 + 2)
        = [Copied (canvasPixel offscreen i j)]
        /\ 2 <= i - x0 + 2 < w' - 2 /\ 2 <= j - y0 + 2 < h' - 2)
  /\ (exists y p, layers out 2 y = [Copied p] /\ 0 < alpha p)
  /\ (exists y p, layers out (w' - 3) y = [Copied p] /\ 0 < alpha p)
  /\ (exists x p, layers out x 2 = [Copied p] /\ 0 < alpha p)
  /\ (exists x p, layers out x (h' - 3) = [Copied p] /\ 0 < alpha p)
  /\ (forall x y, x < 2 \/ y < 2 \/ w' - 2 <= x \/ h' - 2 <= y ->
        layers out x y = []).
Proof.
  intros offscreen currentY h out Hbb w' h'.
  destruct (render_cases st textToRender targetWidth true)
    as (Hout & Hcontent & Hbox).
  fold offscreen currentY h in Hout, Hcontent, Hbox. fold out in Hout.
  unfold finishRender in Hout. fold h in Hout.
  set (b := findBounds offscreen (getImageData offscreen (cwidth offscreen) h))
    in *.
  assert (Hc : hasContent b = true).
  { apply Hcontent. destruct Hbb as (_ & (j & Hv) & _). eauto. }
  destruct (boundingBox_unique offscreen h _ _ _ _ _ _ _ _ Hbb (Hbox Hc))
    as (E0 & E1 & E2 & E3).
  rewrite Hc in Hout. cbn [negb] in Hout. rewrite <- E0, <- E1, <- E2, <- E3 in Hout.
  assert (Hcopy : forall x y,
             2 <= x < 2 + (x1 - x0 + 1) -> 2 <= y < 2 + (y1 - y0 + 1) ->
             layers out x y
             = [Copied (canvasPixel offscreen (x0 + (x - 2)) (y0 + (y - 2)))]).
  { intros x y Hx Hy. rewrite Hout. cbn [layers drawImage clearRect resize].
    rewrite (proj2 (inRect_Z 2 2 _ _ x y)) by lia.
    now destruct (inRect 0 0 _ _ x y). }
  assert (Hvis : forall i j, visible offscreen h i j ->
             layers out (i - x0 + 2) (j - y0 + 2)
             = [Copied (canvasPixel offscreen i j)]
             /\ 2 <= i - x0 + 2 < w' - 2 /\ 2 <= j - y0 + 2 < h' - 2).
  { intros i j Hv. destruct Hbb as (Hin & _).
    destruct (Hin i j Hv) as [Hi Hj]. unfold w', h'.
    rewrite Hcopy by lia.
    replace (x0 + (i - x0 + 2 - 2)) with i by lia.
    replace (y0 + (j - y0 + 2 - 2)) with j by lia.
    repeat split; lia. }
  destruct Hbb as (Hin & (ja & Ha) & (jb & Hb) & (ic & Hcc) & (id' & Hd)).
  pose proof (Hin _ _ Ha) as Ba. pose proof (Hin _ _ Hb) as Bb.
  pose proof (Hin _ _ Hcc) as Bc. pose proof (Hin _ _ Hd) as Bd.
  assert (Hsize : 5 <= w' <= cwidth offscreen + 4 /\ 5 <= h' <= h + 4).
  { unfold w', h'. destruct Ha as (Ha1 & Ha2 & _), Hb as (Hb1 & Hb2 & _),
      Hcc as (Hc1 & Hc2 & _), Hd as (Hd1 & Hd2 & _). lia. }
  split; [now rewrite Hout|]. split; [now rewrite Hout|].
  split; [apply Hsize|]. split; [apply Hsize|].
  split; [exact Hvis|].
  split.
  { exists (ja - y0 + 2), (canvasPixel offscreen x0 ja).
    destruct (Hvis _ _ Ha) as (Hl & _).
    replace (x0 - x0 + 2) with 2 in Hl by lia. split; [exact Hl|apply Ha]. }
  split.
  { exists (jb - y0 + 2), (canvasPixel offscreen x1 jb).
    destruct (Hvis _ _ Hb) as (Hl & _).
    replace (x1 - x0 + 2) with (w' - 3) in Hl by (unfold w'; lia).
    split; [exact Hl|apply Hb]. }
  split.
  { exists (ic - x0 + 2), (canvasPixel offscreen ic y0).
    destruct (Hvis _ _ Hcc) as (Hl & _).
    replace (y0 - y0 + 2) with 2 in Hl by lia. split; [exact Hl|apply Hcc]. }
  split.
  { exists (id' - x0 + 2), (canvasPixel offscreen id' y1).
    destruct (Hvis _ _ Hd) as (Hl & _).
    replace (y1 - y0 + 2) with (h' - 3) in Hl by (unfold h'; lia).
    split; [exact Hl|apply Hd]. }
  intros x y Hedge. rewrite Hout. cbn [layers drawImage clearRect resize].
  destruct (inRect 2 2 _ _ x y) eqn:Hin2.
  - apply inRect_Z in Hin2. unfold w', h' in Hedge. lia.
  - now destruct (inRect 0 0 _ _ x y).
Qed.

End Output.

End CropFacts.

(** ** The properties above on concrete documents *)

Module Samples.
Import Editor Component.

Local Open Scope string_scope.

Definition noStats : TextStats :=
  {| characters := 0; charactersWithSpaces := 0; words := 0; lines_ := 1;
     paragraphs := 0; selectedText := ""; selectedCharacters := 0;
     selectedWords := 0; selectedLines := 0 |}.

Definition sampleSession (ranges : list StyledRange) (sel : option (Z * Z))
    (h : list HistoryEntry) (i : Z) : Session :=
  {| core := EditorFacts.sampleState ranges sel; editingRangeId := None;
     stats := noStats; history := h; historyIndex := i;
     fileName := "untitled.txt" |}.

Definition entry (t : string) : HistoryEntry :=
  {| h_text := t; cursorPosition := 0; timestamp := 0; h_styledRanges := [] |}.

Definition counted (s : string) : Z := Z.of_nat (String.length s).

Lemma applyStyleToSelection_resolver_witness :
  getStyleForPosition
    (applyStyleToSelection "2"
       (EditorFacts.sampleState [EditorFacts.sampleRange "1" 2 5] (Some (4, 8))))
    6
  = getDefaultStyle
      (EditorFacts.sampleState [EditorFacts.sampleRange "1" 2 5] (Some (4, 8))).
Proof.
  destruct (RangeFacts.applyStyleToSelection_resolver "2"
              (EditorFacts.sampleState [EditorFacts.sampleRange "1" 2 5]
                                       (Some (4, 8)))
              4 8 eq_refl eq_refl) as (Hinside & _).
  apply Hinside. split; [discriminate|reflexivity].
Defined.

Lemma removeStyledRange_after_apply_witness :
  ranges_of
    (removeStyledRange "2"
       (applyStyle "2"
          (sampleSession [EditorFacts.sampleRange "1" 0 2] (Some (4, 8)) [] (-1))))
  = [EditorFacts.sampleRange "1" 0 2]%list.
Proof.
  destruct (RangeFacts.removeStyledRange_after_apply "2"
              (sampleSession [EditorFacts.sampleRange "1" 0 2] (Some (4, 8))
                             [] (-1))
              4 8 eq_refl) as (Hkept & _).
  - discriminate.
  - intros r [<-|[]]. discriminate.
  - exact Hkept.
Defined.

Lemma validHistory_empty (ranges : list StyledRange) (sel : option (Z * Z)) :
  HistoryFacts.validHistory (sampleSession ranges sel [] (-1)).
Proof. left. split; reflexivity. Defined.

Lemma validHistory_two :
  HistoryFacts.validHistory
    (sampleSession [] None [entry ""; entry "Welcome"] 1).
Proof. right. split; [split; [discriminate|reflexivity]|]. cbn. lia. Defined.

Lemma history_stays_valid_witness :
  HistoryFacts.validHistory
    (handleTextChange 1 0 "a" (sampleSession [] None [] (-1))).
Proof.
  destruct (HistoryFacts.history_stays_valid (sampleSession [] None [] (-1))
              (validHistory_empty [] None)) as (_ & Hedit & _).
  apply Hedit.
Defined.

Lemma handleTextChange_spec_witness :
  text_of (handleTextChange 1 0 "a" (sampleSession [] None [] (-1))) = "a".
Proof.
  destruct (HistoryFacts.handleTextChange_spec 1 0 "a"
              (sampleSession [] None [] (-1)) (validHistory_empty [] None))
    as (Htext & _).
  exact Htext.
Defined.

Lemma undo_after_edit_witness :
  exists before s1 s2,
    HistoryFacts.currentEntry
      (sampleSession [] None [entry ""; entry "Welcome"] 1) = Some before
    /\ undo (handleTextChange 1 7 "Welcome!"
               (sampleSession [] None [entry ""; entry "Welcome"] 1))
       = Some s1
    /\ text_of s1 = h_text before
    /\ ranges_of s1 = h_styledRanges before
    /\ redo s1 = Some s2
    /\ text_of s2 = "Welcome!"
    /\ ranges_of s2
       = ranges_of (sampleSession [] None [entry ""; entry "Welcome"] 1)
    /\ historyIndex s2
       = historyIndex
           (handleTextChange 1 7 "Welcome!"
              (sampleSession [] None [entry ""; entry "Welcome"] 1))
    /\ history s2
       = history
           (handleTextChange 1 7 "Welcome!"
              (sampleSession [] None [entry ""; entry "Welcome"] 1)).
Proof.
  apply (HistoryFacts.undo_after_edit 1 7 "Welcome!"
           (sampleSession [] None [entry ""; entry "Welcome"] 1)
           validHistory_two).
  discriminate.
Defined.

Lemma undo_then_redo_witness :
  exists s1 s2 e,
    undo (sampleSession [] None [entry ""; entry "Welcome"] 1) = Some s1
    /\ redo s1 = Some s2
    /\ HistoryFacts.currentEntry
         (sampleSession [] None [entry ""; entry "Welcome"] 1) = Some e
    /\ historyIndex s1 = 1 - 1
    /\ text_of s2 = h_text e /\ ranges_of s2 = h_styledRanges e
    /\ historyIndex s2 = 1
    /\ history s2 = [entry ""; entry "Welcome"]%list.
Proof.
  destruct (HistoryFacts.undo_then_redo
              (sampleSession [] None [entry ""; entry "Welcome"] 1)
              validHistory_two) as (Hround & _).
  apply Hround. reflexivity.
Defined.

Lemma loadFile_spec_witness :
  ranges_of
    (loadFile 1 0 "notes.txt" "hello"
       (sampleSession [EditorFacts.sampleRange "1" 0 2] None [] (-1)))
  = []%list.
Proof.
  destruct (HistoryFacts.loadFile_spec 1 0 "notes.txt" "hello"
              (sampleSession [EditorFacts.sampleRange "1" 0 2] None [] (-1))
              (validHistory_empty _ None)) as (_ & _ & Hranges & _).
  exact Hranges.
Defined.

Lemma handleTextSelection_then_apply_witness :
  selectedText
    (stats (handleTextSelection counted counted counted counted 2 5
              (sampleSession [] None [] (-1))))
  = textSlice (text_of (sampleSession [] None [] (-1))) 2 5.
Proof.
  destruct (ClipboardFacts.handleTextSelection_then_apply counted counted
              counted counted "1" 2 5 (sampleSession [] None [] (-1)))
    as (Hsel & _).
  - split; discriminate.
  - discriminate.
  - exact Hsel.
Defined.

Lemma cut_then_paste_witness :
  text_of
    (pasteText 2 2 2 (textSlice (text_of (sampleSession [] None [] (-1))) 2 5)
       (fst (cutText 1 2 5
               (handleTextSelection counted counted counted counted 2 5
                  (sampleSession [] None [] (-1))))))
  = text_of (sampleSession [] None [] (-1)).
Proof.
  destruct (ClipboardFacts.cut_then_paste counted counted counted counted
              1 2 2 5 (sampleSession [] None [] (-1)))
    as (_ & _ & _ & Hback & _).
  - split; [discriminate|reflexivity].
  - discriminate.
  - exact Hback.
Defined.

(** "ab", a newline, "cd". *)
Definition twoParagraphs : list LineSegment * LineSegment * list LineSegment :=
  ([ WrapFacts.seg "a" (WrapFacts.plainStyle AlignLeft) 8;
     WrapFacts.seg "b" (WrapFacts.plainStyle AlignLeft) 8 ]%list,
   WrapFacts.seg NEWLINE (WrapFacts.plainStyle AlignLeft) 0,
   [ WrapFacts.seg "c" (WrapFacts.plainStyle AlignLeft) 8;
     WrapFacts.seg "d" (WrapFacts.plainStyle AlignLeft) 8 ]%list).

Lemma wrapStyledSegments_paragraphs_witness :
  let before := fst (fst twoParagraphs) in
  let nl := snd (fst twoParagraphs) in
  let after := snd twoParagraphs in
  map segments
      (Wrap.wrapStyledSegments (3 # 2) AlignLeft 100 (before ++ nl :: after)%list)
  = (map segments (Wrap.wrapStyledSegments (3 # 2) AlignLeft 100 before)
     ++ map segments (Wrap.wrapStyledSegments (3 # 2) AlignLeft 100 after))%list.
Proof.
  cbv zeta.
  destruct (LineFacts.wrapStyledSegments_paragraphs (3 # 2) AlignLeft 100
              (fst (fst twoParagraphs)) (snd twoParagraphs)
              (snd (fst twoParagraphs)) eq_refl) as (Hsegs & _).
  exact Hsegs.
Defined.

Lemma wrapStyledSegments_single_line_witness :
  length (Wrap.wrapStyledSegments (3 # 2) AlignLeft 100
            (fst (fst twoParagraphs))) = 1%nat.
Proof.
  assert (Hne : fst (fst twoParagraphs) <> []%list) by discriminate.
  assert (Hnl : forallb (fun s => negb (isNewline s)) (fst (fst twoParagraphs))
                = true) by (vm_compute; reflexivity).
  assert (Hfit : WrapFacts.noBreak 100 (fst (fst twoParagraphs)) = true)
    by (vm_compute; reflexivity).
  rewrite (LineFacts.wrapStyledSegments_single_line (3 # 2) AlignLeft 100
             (fst (fst twoParagraphs)) Hne Hnl Hfit).
  reflexivity.
Defined.

Lemma step_break_shape_witness :
  exists pre sp moved line,
    Wrap.currentLineSegments WrapFacts.beforeBreak = (pre ++ sp :: moved)%list
    /\ isSpace sp = true
    /\ Forall (fun x => isSpace x = false) moved
    /\ Wrap.lines
         (Wrap.step (3 # 2) AlignLeft 100 WrapFacts.beforeBreak
            (WrapFacts.seg "b" (WrapFacts.plainStyle AlignRight) 40))
       = (Wrap.lines WrapFacts.beforeBreak ++ [line])%list
    /\ segments line = (pre ++ [sp])%list
    /\ metricsWidth line = Wrap.sumWidth (pre ++ [sp])%list
    /\ Wrap.currentLineSegments
         (Wrap.step (3 # 2) AlignLeft 100 WrapFacts.beforeBreak
            (WrapFacts.seg "b" (WrapFacts.plainStyle AlignRight) 40))
       = (moved ++ [WrapFacts.seg "b" (WrapFacts.plainStyle AlignRight) 40])%list
    /\ Wrap.currentLineMetricsWidth
         (Wrap.step (3 # 2) AlignLeft 100 WrapFacts.beforeBreak
            (WrapFacts.seg "b" (WrapFacts.plainStyle AlignRight) 40))
       = (Wrap.sumWidth moved + 40)%Q.
Proof.
  assert (Hs : isNewline (WrapFacts.seg "b" (WrapFacts.plainStyle AlignRight) 40)
               = false) by (vm_compute; reflexivity).
  assert (Hover : Wrap.overflows 100
                    (WrapFacts.seg "b" (WrapFacts.plainStyle AlignRight) 40)
                    WrapFacts.beforeBreak = true) by (vm_compute; reflexivity).
  destruct (LineFacts.step_break_shape (3 # 2) AlignLeft 100
              WrapFacts.beforeBreak _ Hs Hover) as (Hspace & _).
  apply Hspace. vm_compute. reflexivity.
Defined.

(** "ab", right-aligned. *)
Definition rightLine : LineData :=
  hd (mkLineData [] 0 0 0 AlignLeft)
     (Wrap.wrapStyledSegments (3 # 2) AlignRight 100
        [ WrapFacts.seg "a" (WrapFacts.plainStyle AlignRight) 8;
          WrapFacts.seg "b" (WrapFacts.plainStyle AlignRight) 8 ]%list).

Lemma placeLine_aligned_witness :
  (snd (Render.placeLine 100 rightLine) == 100)%Q.
Proof.
  assert (Hin : In rightLine
                   (Wrap.wrapStyledSegments (3 # 2) AlignRight 100
                      [ WrapFacts.seg "a" (WrapFacts.plainStyle AlignRight) 8;
                        WrapFacts.seg "b" (WrapFacts.plainStyle AlignRight) 8 ]%list))
    by (vm_compute; left; reflexivity).
  assert (Hj : Render.justifies rightLine = false) by (vm_compute; reflexivity).
  assert (Hal : effectiveAlignment rightLine = AlignRight)
    by (vm_compute; reflexivity).
  pose proof (AlignFacts.placeLine_aligned (3 # 2) AlignRight 100 _ rightLine
                Hin Hj) as (_ & _ & _ & Hright & _).
  exact (Hright Hal).
Defined.

(** A browser that leaves the offscreen canvas empty. *)
Definition blankPaint (calls : list Render.DrawCall) (x y : Z) : Render.Pixel :=
  Render.transparentPixel.

Lemma blank_canvas (i j : Z) :
  Render.canvasPixel
    (fst (Render.drawOffscreen RenderFacts.sampleMeasure blankPaint
            RenderFacts.sampleDocument "A" 600)) i j
  = Render.transparentPixel.
Proof.
  unfold Render.canvasPixel.
  destruct (_ && _)%bool; reflexivity.
Qed.

Lemma renderTextOnCanvas_blank_preview_witness :
  Render.canvas_height
    (Render.renderTextOnCanvas RenderFacts.sampleMeasure blankPaint
       RenderFacts.sampleDocument "A" 600 false)
  = 200%Q.
Proof.
  destruct (CropFacts.renderTextOnCanvas_blank_preview
              RenderFacts.sampleMeasure blankPaint RenderFacts.sampleDocument
              "A" 600) as (_ & Hh & _); [|exact Hh].
  intros i j (_ & _ & Halpha). rewrite blank_canvas in Halpha.
  discriminate Halpha.
Defined.

Lemma renderTextOnCanvas_export_tight_witness :
  Render.canvas_width
    (Render.renderTextOnCanvas RenderFacts.sampleMeasure RenderFacts.samplePaint
       RenderFacts.sampleDocument "A" 600 true)
  = inject_Z (3 - 3 + 1 + 4).
Proof.
  destruct (CropFacts.renderTextOnCanvas_export_tight
              RenderFacts.sampleMeasure RenderFacts.samplePaint
              RenderFacts.sampleDocument "A" 600 3 2 3 2) as (Hw & _);
    [|exact Hw].
  split.
  - intros i j Hv. apply RenderFacts.sample_visible in Hv. lia.
  - repeat split; eexists; apply (proj2 (RenderFacts.sample_visible _ _));
      split; reflexivity.
Defined.

End Samples.

(** ** The style controls and the branches of the history *)

Module ControlFacts.
Import Editor Component.

(** Every property that is there in [p] has its value in [sty]. *)
Definition shows (p : PartialTextStyle) (sty : TextStyle) : Prop :=
  (forall v, p_fontSize p = Some v -> fontSize sty = v)
  /\ (forall v, p_fontFamily p = Some v -> fontFamily sty = v)
  /\ (forall v, p_textColor p = Some v -> textColor sty = v)
  /\ (forall v, p_isBold p = Some v -> isBold sty = v)
  /\ (forall v, p_isItalic p = Some v -> isItalic sty = v)
  /\ (forall v, p_isUnderline p = Some v -> isUnderline sty = v)
  /\ (forall v, p_letterSpacing p = Some v -> letterSpacing sty = v)
  /\ (forall v, p_wordSpacing p = Some v -> wordSpacing sty = v)
  /\ (forall v, p_textAlign p = Some v -> textAlign sty = v).

Lemma spreadStyle_shows (base : TextStyle) (p : PartialTextStyle) :
  shows p (spreadStyle base p).
Proof.
  unfold shows, spreadStyle. cbn.
  repeat split; intros v H; rewrite H; reflexivity.
Qed.

(** While a range is being edited, the controls show the style of the first
    range with that id, and after a restyling of that id they show every
    value that was just set; when no range has the id they show the default
    style; after any removal they show the default style again. *)
Theorem currentEditingStyle_after_update (rid : string)
    (newStyle : PartialTextStyle) (s : Session) :
  editingRangeId s = Some rid -> rid <> ""%string ->
  currentEditingStyle (updateStyledRange rid newStyle s)
  = match array_find (fun r => String.eqb (id r) rid) (ranges_of s) with
    | Some r => spreadStyle (style r) newStyle
    | None => getDefaultStyle (core s)
    end
  /\ ((exists r, In r (ranges_of s) /\ id r = rid) ->
      shows newStyle (currentEditingStyle (updateStyledRange rid newStyle s)))
  /\ ((forall r, In r (ranges_of s) -> id r <> rid) ->
      currentEditingStyle s = getDefaultStyle (core s))
  /\ (forall other,
        currentEditingStyle (removeStyledRange other s)
        = getDefaultStyle (core s)).
Proof.
  intros Hedit Hne.
  assert (Hrid : String.eqb rid "" = false) by now apply String.eqb_neq.
  assert (Hshown :
    currentEditingStyle (updateStyledRange rid newStyle s)
    = match array_find (fun r => String.eqb (id r) rid) (ranges_of s) with
      | Some r => spreadStyle (style r) newStyle
      | None => getDefaultStyle (core s)
      end).
  { unfold currentEditingStyle, updateStyledRange, ranges_of. cbn.
    rewrite Hedit, Hrid.
    rewrite RangeFacts.array_find_map.
    - destruct (array_find (fun r => String.eqb (id r) rid)
                           (styledRanges (core s))) as [r|] eqn:Hf;
        cbn; [|reflexivity].
      apply array_find_some in Hf. destruct Hf as (_ & _ & _ & Hid & _).
      unfold restyle. now rewrite Hid.
    - intros r. now destruct (RangeFacts.restyle_interval rid newStyle r)
        as (-> & _). }
  split; [exact Hshown|]. split; [|split].
  - intros (r & Hin & Hid). rewrite Hshown.
    destruct (array_find (fun r => String.eqb (id r) rid) (ranges_of s))
      as [r'|] eqn:Hf.
    + apply spreadStyle_shows.
    + apply (array_find_none_inv _ _ Hf) in Hin.
      rewrite Hid, String.eqb_refl in Hin. discriminate.
  - intros Hnone. unfold currentEditingStyle. rewrite Hedit, Hrid.
    rewrite array_find_none; [reflexivity|].
    intros r Hin. apply String.eqb_neq. now apply Hnone.
  - reflexivity.
Qed.

(** An edit keeps the entries up to the current one, so the entries that
    undo had stepped back over can no longer be redone, and appends its own
    entry; when that would make 51 entries the oldest one is dropped.  At
    the end of a history of fewer than 50 entries the edit only appends. *)
Theorem handleTextChange_branches (now cursor : Z) (newText : string)
    (s : Session) :
  HistoryFacts.validHistory s ->
  let kept := firstn (Z.to_nat (historyIndex s + 1)) (history s) in
  let e := {| h_text := newText; cursorPosition := cursor; timestamp := now;
              h_styledRanges := ranges_of s |} in
  history (handleTextChange now cursor newText s)
  = (if (length kept =? 50)%nat then tl kept ++ [e] else kept ++ [e])
  /\ (historyIndex s = Z.of_nat (length (history s)) - 1 ->
      (length (history s) < 50)%nat ->
      history (handleTextChange now cursor newText s) = history s ++ [e])
  /\ (historyIndex s = 49 ->
      history (handleTextChange now cursor newText s) = tl (history s) ++ [e]).
Proof.
  intros Hv kept e.
  destruct (HistoryFacts.handleTextChange_history now cursor newText s Hv)
    as (Hh & _).
  fold kept in Hh. split; [exact Hh|]. split.
  - intros Hend Hroom. rewrite Hh.
    assert (Hall : kept = history s).
    { unfold kept. apply firstn_all2. lia. }
    rewrite Hall.
    destruct (Nat.eqb_spec (length (history s)) 50); [lia|reflexivity].
  - intros Hfull. rewrite Hh.
    assert (Hlen : length (history s) = 50%nat).
    { destruct Hv as [[_ Hi]|[Hi Hl]]; lia. }
    assert (Hall : kept = history s).
    { unfold kept. apply firstn_all2. lia. }
    rewrite Hall, Hlen. reflexivity.
Qed.

Lemma currentEditingStyle_after_update_witness :
  currentEditingStyle
    (updateStyledRange "1"
       (mkPartialTextStyle (Some 20%Q) None None None None None None None None)
       (setEditingRangeId (Some "1"%string)
          (Samples.sampleSession [EditorFacts.sampleRange "1" 0 2] None [] (-1))))
  = spreadStyle EditorFacts.boldStyle
      (mkPartialTextStyle (Some 20%Q) None None None None None None None None).
Proof.
  destruct (currentEditingStyle_after_update "1"
              (mkPartialTextStyle (Some 20%Q) None None None None None None None
                                  None)
              (setEditingRangeId (Some "1"%string)
                 (Samples.sampleSession [EditorFacts.sampleRange "1" 0 2] None
                                        [] (-1)))
              eq_refl) as (Hshown & _).
  - discriminate.
  - exact Hshown.
Defined.

Lemma handleTextChange_branches_witness :
  history
    (handleTextChange 1 0 "Hi"
       (Samples.sampleSession [] None
          [Samples.entry ""; Samples.entry "Welcome"] 0))
  = [ Samples.entry "";
      {| h_text := "Hi"; cursorPosition := 0; timestamp := 1;
         h_styledRanges := [] |} ].
Proof.
  destruct (handleTextChange_branches 1 0 "Hi"
              (Samples.sampleSession [] None
                 [Samples.entry ""; Samples.entry "Welcome"] 0))
    as (Hh & _).
  - right. split; [split; [discriminate|reflexivity]|]. cbn. lia.
  - exact Hh.
Defined.

End ControlFacts.
